(** * EvolutionaryAlgorithm.js: population engine, selection, variation, replacement

    A shallow embedding of the library's latest version (the second program
    of [src/unnamed/part_000], with [number_coding] and variable-length
    individuals), together with [applyGeneticOperators] of the two earlier
    versions ([src/ea.js], and the first program of [part_000]), to which
    the properties below compare it.

    Modelling conventions.
    - JavaScript numbers are exact rationals ([Q]); [NaN] is kept where the
      code can produce it (a read past the end of an array inside the
      roulette walk).  Floating-point rounding is not modelled: the
      theorems on what the roulette returns state what holds whatever the
      rounding (how many draws and positions, where the individuals come
      from, the order of the walk, a sum compared with a part of itself);
      the lemmas that compute a selection are about the exact numbers.
    - [Math.random] is a stream [random : nat -> Q]; the world counts the
      draws made so far, so the k-th call returns [random k].
    - Arrays are mutable and shared: they live in a heap and are passed by
      address.  Individuals are never modified after their construction, so
      a reference to one is the object itself, tagged with its identity
      [oid]; [===] on two individuals compares identities.
    - [Array.prototype.sort] is taken to be stable.
    - A thrown exception ends the computation ([Throw]). *)

From Stdlib Require Import QArith Qround ZArith Lia Lqa Ascii String
  DecimalString.
From stdpp Require Import base list strings sorting.

(** ** JavaScript built-ins used by the library *)

Module Js.

(** A number that may be [NaN]. *)
Inductive number := NaN | Num (q : Q).

Definition Qlt_bool (a b : Q) : bool := negb (Qle_bool b a).

Definition Math_floor (x : Q) : Z := Qfloor x.

(** [Math.round]: the nearest integer, halves rounded up. *)
Definition Math_round (x : Q) : Z := Qfloor (x + (1 # 2)).

(** [Math.max(0, x)]. *)
Definition Math_max0 (x : Q) : Q := if Qle_bool 0 x then x else 0.

(** [x % 1]: the remainder has the sign of [x]. *)
Definition mod1 (x : Q) : Q :=
  if Qle_bool 0 x then x - inject_Z (Qfloor x) else x - inject_Z (Qceiling x).

Definition num_add (a b : number) : number :=
  match a, b with
  | Num x, Num y => Num (x + y)
  | _, _ => NaN
  end.

(** [a < b]; every comparison with [NaN] is false. *)
Definition num_lt (a : number) (b : Q) : bool :=
  match a with
  | Num x => Qlt_bool x b
  | NaN => false
  end.

Definition num_max0 (a : number) : number :=
  match a with
  | Num x => Num (Math_max0 x)
  | NaN => NaN
  end.

Definition num_mod1 (a : number) : number :=
  match a with
  | Num x => Num (mod1 x)
  | NaN => NaN
  end.

Definition num_sub1 (a : number) : number :=
  match a with
  | Num x => Num (x - 1)
  | NaN => NaN
  end.

(** An array of numbers read at [j]: past the end the read is
    [undefined], which arithmetic turns into [NaN]. *)
Definition num_get (a : list number) (j : nat) : number := default NaN (a !! j).

(** [a[j] = v] on an array of numbers; a write past the end extends the
    array (the skipped positions read as [NaN] in arithmetic). *)
Definition num_set (a : list number) (j : nat) (v : number) : list number :=
  if (j <? length a)%nat then <[j := v]> a
  else a ++ replicate (j - length a) NaN ++ [v].

(** Relative index of [slice] and [splice]: negative counts from the end,
    the result is clamped to [0 .. len]. *)
Definition rel_index (len i : Z) : Z :=
  if (i <? 0)%Z then Z.max (len + i) 0 else Z.min i len.

(** [l.slice(s, e)]. *)
Definition Array_slice {A} (l : list A) (s e : Z) : list A :=
  let len := Z.of_nat (length l) in
  let k := rel_index len s in
  let final := rel_index len e in
  take (Z.to_nat (final - k)) (drop (Z.to_nat k) l).

(** [l.splice(s, dc, items...)]: the removed elements and the array left. *)
Definition Array_splice {A} (l : list A) (s dc : Z) (items : list A)
  : list A * list A :=
  let len := Z.of_nat (length l) in
  let k := rel_index len s in
  let d := Z.min (Z.max dc 0) (len - k) in
  (take (Z.to_nat d) (drop (Z.to_nat k) l),
   take (Z.to_nat k) l ++ items ++ drop (Z.to_nat (k + d)) l).

(** [Array.apply(null, new Array(k)).map(function (_, i) { return i; })]. *)
Definition range (k : nat) : list nat := seq 0 k.

(** ASCII [toUpperCase]. *)
Definition upper (c : ascii) : ascii :=
  let n := nat_of_ascii c in
  if ((97 <=? n) && (n <=? 122))%nat then ascii_of_nat (n - 32) else c.

Fixpoint toUpperCase (s : string) : string :=
  match s with
  | EmptyString => EmptyString
  | String c s' => String (upper c) (toUpperCase s')
  end.

End Js.
Import Js.

(** ** Data model *)

(** A property key.  [Idx i] is the canonical array index [i] (the keys of a
    variable-length individual); [Name s] is any other property name (the
    variable names of a configuration).  A name that is the decimal text
    of an index is the key [Idx] of that index. *)
Inductive key := Idx (i : nat) | Name (s : string).

Definition key_eqb (a b : key) : bool :=
  match a, b with
  | Idx i, Idx j => (i =? j)%nat
  | Name s, Name t => String.eqb s t
  | _, _ => false
  end.

(** Property order of an object: array indices in ascending order first,
    then the other names in the order of their creation. *)
Definition key_before (a b : key) : bool :=
  match a, b with
  | Idx i, Idx j => (i <? j)%nat
  | Idx _, Name _ => true
  | Name _, _ => false
  end.

(** The value of a variable: [undefined], a number, or what a read of a
    property [name] that an array inherits gives (a function of
    [Array.prototype] or [Object.prototype], or the prototype itself). *)
Inductive value := VUndefined | VNum (q : Q) | VInherited (name : string).

(** A plain object [{}], as its properties in property order. *)
Abbreviation object := (list (key * value)).

(** [o[k] = v]. *)
Fixpoint obj_set (k : key) (v : value) (o : object) : object :=
  match o with
  | [] => [(k, v)]
  | (k', v') :: o' =>
      if key_eqb k k' then (k, v) :: o'
      else if key_before k k' then (k, v) :: (k', v') :: o'
      else (k', v') :: obj_set k v o'
  end.

(** [o[k]]. *)
Fixpoint obj_get (o : object) (k : key) : value :=
  match o with
  | [] => VUndefined
  | (k', v) :: o' => if key_eqb k k' then v else obj_get o' k
  end.

Definition Object_keys (o : object) : list key := o.*1.

(** The properties that every array inherits from [Array.prototype]
    (ECMAScript 2023). *)
Definition Array_prototype_names : list string :=
  ["constructor"; "at"; "concat"; "copyWithin"; "entries"; "every"; "fill";
   "filter"; "find"; "findIndex"; "findLast"; "findLastIndex"; "flat";
   "flatMap"; "forEach"; "includes"; "indexOf"; "join"; "keys";
   "lastIndexOf"; "map"; "pop"; "push"; "reduce"; "reduceRight"; "reverse";
   "shift"; "slice"; "some"; "sort"; "splice"; "toLocaleString";
   "toReversed"; "toSorted"; "toSpliced"; "toString"; "unshift"; "values";
   "with"]%string.

(** The further ones that it inherits from [Object.prototype]. *)
Definition Object_prototype_names : list string :=
  ["hasOwnProperty"; "isPrototypeOf"; "propertyIsEnumerable"; "valueOf";
   "__defineGetter__"; "__defineSetter__"; "__lookupGetter__";
   "__lookupSetter__"; "__proto__"]%string.

(** [name in Array.prototype]. *)
Definition Array_inherits (name : string) : bool :=
  existsb (String.eqb name) (Array_prototype_names ++ Object_prototype_names).

(** The index that a property name denotes, when it is the canonical
    decimal text of one (["7"], but not ["07"]). *)
Definition index_of_name (s : string) : option nat :=
  match NilZero.uint_of_string s with
  | Some u =>
      let i := Nat.of_uint u in
      if String.eqb (NilZero.string_of_uint (Nat.to_uint i)) s then Some i
      else None
  | None => None
  end.

(** [data[k]] on an array of values: an element, the [length], an
    inherited property, or [undefined]. *)
Definition data_get (data : list value) (k : key) : value :=
  match k with
  | Idx i => default VUndefined (data !! i)
  | Name s =>
      match index_of_name s with
      | Some i => default VUndefined (data !! i)
      | None =>
          if String.eqb s "length" then VNum (inject_Z (Z.of_nat (length data)))
          else if Array_inherits s then VInherited s
          else VUndefined
      end
  end.

(** An [EAIndividual]: [oid] is the identity of the object. *)
Record EAIndividual := mkIndividual {
  oid : nat;
  variables : object;
  fitness : Q;
}.

(** [EAIndividual.prototype.toArray]. *)
Definition toArray (this : EAIndividual) : list value := (variables this).*2.

(** An [EA] (the configuration); its [variables] field is [EA_variables]
    here, [interval] holds [interval[0]] and [interval[1]]. *)
Record EA := mkEA {
  EA_variables : list key;
  interval : Q * Q;
  number_coding : string;
  fitnessFunction : object -> Q;
  variable_individual_length : bool;
}.

(** ** Arrays of individuals *)

(** An array position: a hole (never assigned), [undefined], or an
    individual. *)
Inductive slot := Hole | Undefined | Obj (x : EAIndividual).

Abbreviation jsarray := (list slot).

(** [new Array(n)]. *)
Definition new_Array (n : nat) : jsarray := replicate n Hole.

(** [a[i]]: a hole and a position outside the array read as [undefined]. *)
Definition arr_get (a : jsarray) (i : Z) : slot :=
  if (i <? 0)%Z then Undefined
  else match a !! Z.to_nat i with
       | Some (Obj x) => Obj x
       | _ => Undefined
       end.

(** [a[i] = v]: a write past the end extends the array with holes. *)
Definition arr_set (a : jsarray) (i : nat) (v : slot) : jsarray :=
  if (i <? length a)%nat then <[i := v]> a
  else a ++ replicate (i - length a) Hole ++ [v].

(** [a === b] for values held in arrays: identity of objects. *)
Definition strict_eq (a b : slot) : bool :=
  match a, b with
  | Obj x, Obj y => (oid x =? oid y)%nat
  | Undefined, Undefined => true
  | _, _ => false
  end.

(** [a.indexOf(x)] from position [i] on; holes are skipped. *)
Fixpoint indexOf_from (a : jsarray) (x : slot) (i : Z) : Z :=
  match a with
  | [] => (-1)%Z
  | Hole :: a' => indexOf_from a' x (i + 1)%Z
  | y :: a' => if strict_eq y x then i else indexOf_from a' x (i + 1)%Z
  end.

Definition Array_indexOf (a : jsarray) (x : slot) : Z := indexOf_from a x 0%Z.

Definition individuals_of (a : jsarray) : list EAIndividual :=
  omap (fun s => match s with Obj x => Some x | _ => None end) a.

Definition is_undefined (s : slot) : bool :=
  match s with Undefined => true | _ => false end.

Definition is_hole (s : slot) : bool :=
  match s with Hole => true | _ => false end.

(** Insertion of [x] in a list sorted by [function(a, b) { return b.fitness
    - a.fitness; }]: [x] goes before the first element that is not fitter. *)
Fixpoint insert_by_fitness (x : EAIndividual) (l : list EAIndividual)
  : list EAIndividual :=
  match l with
  | [] => [x]
  | y :: l' =>
      if Qlt_bool (fitness x) (fitness y) then y :: insert_by_fitness x l'
      else x :: y :: l'
  end.

Definition sort_by_fitness (l : list EAIndividual) : list EAIndividual :=
  foldr insert_by_fitness [] l.

(** [a.sort(function(a, b) { return b.fitness - a.fitness; })]: the
    individuals in descending order of fitness (stable), then the
    [undefined] elements, then the holes. *)
Definition Array_sort (a : jsarray) : jsarray :=
  (Obj <$> sort_by_fitness (individuals_of a))
    ++ filter (fun s => is_undefined s = true) a
    ++ filter (fun s => is_hole s = true) a.

(** ** The world: heap of arrays, identities, random source *)

Abbreviation addr := nat (only parsing).

Record World := mkWorld {
  heap : list jsarray;
  oids : nat;
  draws : nat;
}.

Inductive exn := Error (msg : string) | TypeError.

Inductive outcome (A : Type) :=
| Return (a : A) (w : World)
| Throw (e : exn).
Arguments Return {A} a w.
Arguments Throw {A} e.

Definition M (A : Type) : Type := World -> outcome A.

#[global] Instance M_ret : MRet M := fun A a w => Return a w.

#[global] Instance M_bind : MBind M := fun A B f m w =>
  match m w with
  | Return a w' => f a w'
  | Throw e => Throw e
  end.

Definition throw {A} (e : exn) : M A := fun _ => Throw e.

(** The array at an address. *)
Definition read (a : addr) : M jsarray :=
  fun w => Return (default [] (heap w !! a)) w.

(** In-place update of the array at an address. *)
Definition write (a : addr) (l : jsarray) : M unit :=
  fun w => Return tt (mkWorld (<[a := l]> (heap w)) (oids w) (draws w)).

(** A new array. *)
Definition alloc (l : jsarray) : M addr :=
  fun w => Return (length (heap w)) (mkWorld (heap w ++ [l]) (oids w) (draws w)).

(** The identity of a new object. *)
Definition fresh_oid : M nat :=
  fun w => Return (oids w) (mkWorld (heap w) (S (oids w)) (draws w)).

(** ** Construction of a configuration *)

(** The [variables] argument: an array of names, or anything else. *)
Inductive variables_arg := VariablesArray (l : list key) | VariablesOther (k : key).

(** The [interval] argument: an array (of numbers), or anything else. *)
Inductive interval_arg := IntervalArray (l : list Q) | IntervalOther.

Record EA_options := mkEA_options { variableIndividualLength : bool }.

(** [new EA(variables, interval, number_coding, fitnessFunction, options)].
    [None] is an argument left out ([undefined]). *)
Definition new_EA (variables : variables_arg) (interval : interval_arg)
    (number_coding : option string) (fitnessFunction : option (object -> Q))
    (options : option EA_options) : exn + EA :=
  let this_variables :=
    match variables with
    | VariablesArray l => [] ++ l
    | VariablesOther k => [] ++ [k]
    end in
  match interval with
  | IntervalArray [lo; hi] =>
      match number_coding with
      | None => inl TypeError
      | Some s =>
          let upper := toUpperCase s in
          let this_number_coding :=
            if String.eqb upper "" then "INT"%string else upper in
          match fitnessFunction with
          | None => inl (Error "Fitness function must be valid function.")
          | Some f =>
              inr (mkEA this_variables (lo, hi) this_number_coding f
                     (match options with
                      | Some o => variableIndividualLength o
                      | None => false
                      end))
          end
      end
  | _ => inl (Error "Interval must be array with min and max value.")
  end.

(** ** Options of the population's methods *)

Record Options := mkOptions {
  rouletteMethod : option string;
  shuffleOrder : bool;
  number_of_mutated_values : option nat;
  max_shrink_size : option nat;
  max_growth_size : option nat;
  max_swap_size : option nat;
  max_replace_size : option nat;
  max_insert_size : option nat;
  newGenerationSize : option nat;
  generationGap : option nat;
}.

Definition no_options : Options :=
  mkOptions None false None None None None None None None None.

(** [(options && options.field) || d]: a field left out and [0] are falsy. *)
Definition option_or (options : option Options) (field : Options -> option nat)
    (d : nat) : nat :=
  match options with
  | Some o => match field o with Some (S k) => S k | _ => d end
  | None => d
  end.

(** An [EAPopulation]; [individuals] is the address of its array. *)
Record EAPopulation := mkPopulation {
  algorithm : EA;
  individuals : addr;
}.

Definition Qnat (n : nat) : Q := inject_Z (Z.of_nat n).

(** [for (i = i0; i < i0 + k; i++) s = body(i, s)]. *)
Fixpoint for_range {St} (i k : nat) (body : nat -> St -> M St) (s : St) : M St :=
  match k with
  | O => mret s
  | S k' => s' ← body i s; for_range (S i) k' body s'
  end.

(** [while (f < pos) f += weights[j++]], on the weights from position [j]
    on: a read past the end is [undefined], [f] becomes [NaN], and the
    comparison with [NaN] ends the loop. *)
Fixpoint walk (rest : list number) (pos : Q) (f : number) (j : nat)
  : number * nat :=
  if num_lt f pos then
    match rest with
    | [] => (NaN, S j)
    | x :: rest' => walk rest' pos (num_add f x) (S j)
    end
  else (f, j).

(** [individuals.slice(0).map(function(individual) { return Math.max(0,
    individual.fitness); })]: [map] skips a hole and leaves a hole, read
    as [NaN] later; [undefined] has no property [fitness]. *)
Fixpoint map_fitness (inds : jsarray) : M (list number) :=
  match inds with
  | [] => mret []
  | Hole :: rest => fs ← map_fitness rest; mret (NaN :: fs)
  | Undefined :: _ => throw TypeError
  | Obj x :: rest => fs ← map_fitness rest; mret (Num (Math_max0 (fitness x)) :: fs)
  end.

(** [individuals.reduce(function(a, b) { return {fitness: a.fitness +
    weight(b.fitness)}; }, {fitness: 0}).fitness]; [reduce] skips holes. *)
Definition roulette_size (weight : Q -> Q) (inds : jsarray) : Q :=
  foldl (fun a s => match s with Obj b => (a + weight (fitness b))%Q | _ => a end)
        0%Q inds.

(** The whole part of the fitness gives that many copies of the individual:
    [for (var j = 0; j < wholePart; j++, i++) parents[i] = individual]
    inside [individuals.forEach]. *)
Definition whole_part (individual : EAIndividual) : nat :=
  Z.to_nat (Math_floor (Math_max0 (fitness individual))).

Definition whole_copies (inds : jsarray) (parents : jsarray) (i : nat)
  : jsarray * nat :=
  foldl (fun '(parents, i) s =>
           match s with
           | Obj individual =>
               (foldl (fun p j => arr_set p (i + j) (Obj individual)) parents
                      (seq 0 (whole_part individual)),
                i + whole_part individual)
           | _ => (parents, i)
           end)
        (parents, i) inds.

(** [Object.keys(individuals)]: the positions that are not holes. *)
Definition array_keys (inds : jsarray) : list nat :=
  omap (fun '(k, s) => match s with Hole => None | _ => Some k end)
       (imap (fun k s => (k, s)) inds).

(** [temp = keys[a]; keys[a] = keys[b]; keys[b] = temp], for [b] inside the
    array (where [Math.random] puts it); the keys are left as they are
    otherwise. *)
Definition swap_keys (keys : list nat) (a : nat) (b : Z) : list nat :=
  match keys !! a, (if (b <? 0)%Z then None else keys !! Z.to_nat b) with
  | Some ka, Some kb => <[Z.to_nat b := ka]> (<[a := kb]> keys)
  | _, _ => keys
  end.

(** [individuals[keys[j - 1]]]. *)
Definition parent_at_key (inds : jsarray) (keys : list nat) (j : nat) : slot :=
  match j with
  | O => Undefined
  | S j' => match keys !! j' with
            | Some k => arr_get inds (Z.of_nat k)
            | None => Undefined
            end
  end.

(** ** The engine, over a source of random numbers *)

Section Engine.

(** The successive results of [Math.random()]. *)
Variable random : nat -> Q.

Definition Math_random : M Q :=
  fun w => Return (random (draws w)) (mkWorld (heap w) (oids w) (S (draws w))).

(** *** Individuals *)

(** The loop of the constructor: [this.variables[variable] =
    generateFunction(variable, v)] for every position [v]. *)
Fixpoint EAIndividual_fill (generateFunction : key -> nat -> M value)
    (vars : list key) (v : nat) (o : object) : M object :=
  match vars with
  | [] => mret o
  | variable :: rest =>
      x ← generateFunction variable v;
      EAIndividual_fill generateFunction rest (S v) (obj_set variable x o)
  end.

(** [new EAIndividual(variables, generateFunction, fitnessFunction)]. *)
Definition new_EAIndividual (vars : list key)
    (generateFunction : key -> nat -> M value) (fitnessFunction : object -> Q)
  : M EAIndividual :=
  id ← fresh_oid;
  o ← EAIndividual_fill generateFunction vars 0 [];
  mret (mkIndividual id o (fitnessFunction o)).

(** [Math.random() * (interval[1] - interval[0]) + interval[0]]. *)
Definition in_interval (this : EA) (r : Q) : Q :=
  (r * ((interval this).2 - (interval this).1) + (interval this).1)%Q.

(** The generator of [initializePopulation] and of [uniform_mutation]:
    rounded when [number_coding == 'INT']. *)
Definition uniform_value (this : EA) : M value :=
  r ← Math_random;
  mret (VNum (if String.eqb (number_coding this) "INT"
              then inject_Z (Math_round (in_interval this r))
              else in_interval this r)).

(** *** Population: construction and simple methods *)

(** [new EAPopulation(algorithm)]. *)
Definition new_EAPopulation (algorithm : EA) : M EAPopulation :=
  a ← alloc [];
  mret (mkPopulation algorithm a).

(** [get count()]. *)
Definition count (this : EAPopulation) : M nat :=
  l ← read (individuals this);
  mret (length l).

(** [push(individual)]: the stored array grows in place. *)
Definition push (this : EAPopulation) (individual : slot) : M unit :=
  match individual with
  | Obj _ =>
      l ← read (individuals this);
      write (individuals this) (l ++ [individual])
  | _ => throw (Error "Population must consists only from EAIndividual objects.")
  end.

(** [hasIndividual(individual)]. *)
Definition hasIndividual (this : EAPopulation) (individual : slot) : M bool :=
  l ← read (individuals this);
  mret (negb (Array_indexOf l individual =? -1)%Z).

(** [while (population.count < n) { ... population.push(individual); }];
    every round adds one individual, so [n] rounds of fuel are enough. *)
Fixpoint populate (fuel : nat) (this : EA) (population : EAPopulation) (n : nat)
  : M unit :=
  c ← count population;
  if (c <? n)%nat then
    match fuel with
    | O => mret tt
    | S fuel' =>
        vars ← (if variable_individual_length this
                then r ← Math_random;
                     mret (Idx <$> range (Z.to_nat (Math_round (r * 100))))
                else mret (EA_variables this));
        individual ← new_EAIndividual vars (fun _ _ => uniform_value this)
                                      (fitnessFunction this);
        push population (Obj individual);;
        populate fuel' this population n
    end
  else mret tt.

(** [EA.prototype.initializePopulation(method, n)]; the only method is
    ['random'], which is also the default. *)
Definition initializePopulation (this : EA) (method : string) (n : nat)
  : M EAPopulation :=
  population ← new_EAPopulation this;
  (if (0 <? n)%nat then populate n this population n else mret tt);;
  mret population.

(** *** Selection *)

Definition getRandomParents (individuals : addr) (n : nat) : M addr :=
  inds ← read individuals;
  let individuals_length := length inds in
  parents ← for_range 0 n
    (fun i parents =>
       r ← Math_random;
       let index := Math_floor (r * Qnat individuals_length) in
       mret (arr_set parents i (arr_get inds index)))
    (new_Array n);
  alloc parents.

Definition getBestParents (individuals : addr) (n : nat) : M addr :=
  inds ← read individuals;
  let copy := Array_slice inds 0 (Z.of_nat (length inds)) in
  let sorted := Array_sort copy in
  alloc (Array_slice sorted 0 (Z.of_nat n)).

(** One round of the loop [for (i; i < n; i++)] that twists the roulette;
    [without] says whether [replacement] is the decrementing function. *)
Definition roulette_step (inds : jsarray) (without : bool) (i : nat)
    (st : jsarray * list number * Q) : M (jsarray * list number * Q) :=
  let '(parents, fitnessValues, rouletteSize) := st in
  r ← Math_random;
  let roulette_position := (r * rouletteSize)%Q in
  let '(f, j) := walk fitnessValues roulette_position (Num 0) 0 in
  let parents := arr_set parents i (arr_get inds (Z.of_nat j - 1)) in
  if without then
    mret (parents,
          num_set fitnessValues j (num_max0 (num_sub1 (num_get fitnessValues j))),
          (rouletteSize - 1)%Q)
  else mret (parents, fitnessValues, rouletteSize).

(** One round of the loop of the ['univerzal'] method; [weights] is
    [Math.max(0, fitnessValues[keys[j]])] by position [j], and [f], [j] and
    the position go on from one round to the next.  The sums [f] and
    [roulette_position + pointerStep] are exact here and rounded in the
    code. *)
Definition univerzal_step (inds : jsarray) (keys : list nat)
    (weights : list number) (pointerStep : Q) (i : nat)
    (st : jsarray * number * nat * Q) : M (jsarray * number * nat * Q) :=
  let '(parents, f, j, roulette_position) := st in
  let '(f, j) := walk (drop j weights) roulette_position f j in
  mret (arr_set parents i (parent_at_key inds keys j), f, j,
        (roulette_position + pointerStep)%Q).

(** The shuffle of the keys: [b = a + Math.round(Math.random() * (len - a -
    1))], then the exchange of [keys[a]] and [keys[b]]. *)
Definition shuffle_keys (keys : list nat) : M (list nat) :=
  let len := length keys in
  for_range 0 len
    (fun a keys =>
       r ← Math_random;
       let b := (Z.of_nat a + Math_round (r * (Qnat len - Qnat a - 1)))%Z in
       mret (swap_keys keys a b))
    keys.

Definition is_remainder (method : string) : bool :=
  String.eqb method "remainder_with_replacement"
  || String.eqb method "remainder_without_replacement".

Definition is_without (method : string) : bool :=
  String.eqb method "without_replacement"
  || String.eqb method "remainder_without_replacement".

Definition getParentsFromRoulette (individuals : addr) (method : string)
    (n : nat) (shuffleOrder : bool) : M addr :=
  inds ← read individuals;
  fitnessValues ← map_fitness inds;
  let parents := new_Array n in
  if String.eqb method "univerzal" then
    keys ← (if shuffleOrder then shuffle_keys (array_keys inds)
            else mret (array_keys inds));
    let rouletteSize := roulette_size Math_max0 inds in
    if Qeq_bool rouletteSize 0 then alloc []
    else
      (* for n = 0 the quotient is not used: the loop below does not run *)
      let pointerStep := (rouletteSize / Qnat n)%Q in
      r ← Math_random;
      let weights := (fun k => num_max0 (num_get fitnessValues k)) <$> keys in
      '(parents, _, _, _) ← for_range 0 n
        (univerzal_step inds keys weights pointerStep)
        (parents, Num 0, 0%nat, (r * pointerStep)%Q);
      alloc parents
  else if is_remainder method then
    let '(parents, i) := whole_copies inds parents 0 in
    let rouletteSize := roulette_size (fun f => mod1 (Math_max0 f)) inds in
    if Qeq_bool rouletteSize 0 then alloc parents
    else
      let fitnessValues := (fun f => num_mod1 (num_max0 f)) <$> fitnessValues in
      '(parents, _, _) ← for_range i (n - i)
        (roulette_step inds (is_without method))
        (parents, fitnessValues, rouletteSize);
      alloc parents
  else
    let rouletteSize := roulette_size Math_max0 inds in
    if Qeq_bool rouletteSize 0 then alloc []
    else
      '(parents, _, _) ← for_range 0 n
        (roulette_step inds (is_without method))
        (parents, fitnessValues, rouletteSize);
      alloc parents.

(** [options.rouletteMethod || 'with_replacement']. *)
Definition rouletteMethod_or_default (o : Options) : string :=
  match rouletteMethod o with
  | Some s => if String.eqb s "" then "with_replacement"%string else s
  | None => "with_replacement"%string
  end.

(** [getParents(method, n, options)]; reading [options.rouletteMethod]
    fails when there are no options. *)
Definition getParents (this : EAPopulation) (method : string) (n : nat)
    (options : option Options) : M addr :=
  if String.eqb method "best" then getBestParents (individuals this) n
  else if String.eqb method "roulette" then
    match options with
    | None => throw TypeError
    | Some o =>
        getParentsFromRoulette (individuals this) (rouletteMethod_or_default o)
                               n (shuffleOrder o)
    end
  else if String.eqb method "random" then getRandomParents (individuals this) n
  else alloc [].

(** *** Variation *)

(** The closure variable [current_individual_data]: the parent's
    [variables] object, or an array of its values. *)
Inductive individual_data := DataObject (o : object) | DataArray (a : list value).

Definition data_length (d : individual_data) : nat :=
  match d with
  | DataObject o => length (Object_keys o)
  | DataArray a => length a
  end.

(** [current_individual_data[variable]]. *)
Definition data_read (d : individual_data) (variable : key) : value :=
  match d with
  | DataObject o => obj_get o variable
  | DataArray a => data_get a variable
  end.

(** [parents[i]], for the reads [parents[i].variables] and
    [parent.variables]. *)
Definition parent_of (ps : jsarray) (i : nat) : M EAIndividual :=
  match arr_get ps (Z.of_nat i) with
  | Obj x => mret x
  | _ => throw TypeError
  end.

(** [Math.round(Math.random() * bound)]. *)
Definition round_random (bound : Q) : M Z :=
  r ← Math_random;
  mret (Math_round (r * bound)).

(** The function assigned to [f] in [case 'extremal_mutation']. *)
Definition extremal_value (this : EA) : M value :=
  r ← Math_random;
  let x := if Qlt_bool (1 # 2) r then (interval this).2 else (interval this).1 in
  mret (VNum (if String.eqb (number_coding this) "INT"
              then inject_Z (Math_round x) else x)).

(** [f] when the loop runs: [case 'extremal_mutation'] assigns it and falls
    through to [case 'uniform_mutation'], which assigns it again. *)
Definition mutation_value (this : EA) (method : string) : M value :=
  let f := if String.eqb method "extremal_mutation"
           then Some (extremal_value this) else None in
  let f := uniform_value this in
  f.

(** [pos[j] = Math.floor(Math.random() * variables_length)] for [j < n]. *)
Fixpoint mutated_positions (variables_length : nat) (n : nat) : M (list Z) :=
  match n with
  | O => mret []
  | S n' =>
      r ← Math_random;
      pos ← mutated_positions variables_length n';
      mret (Math_floor (r * Qnat variables_length) :: pos)
  end.

(** [pos.indexOf(k) != -1]. *)
Definition has_position (pos : list Z) (k : nat) : bool :=
  existsb (Z.eqb (Z.of_nat k)) pos.

(** [generateFunction] of the uniform and extremal mutation. *)
Definition generate_mutated (f : M value) (n : nat) (data : individual_data)
    (variable : key) (k : nat) : M value :=
  let variables_length := data_length data in
  pos ← mutated_positions variables_length n;
  if has_position pos k then f else mret (data_read data variable).

(** [generateFunction] of the four variable-length mutations. *)
Definition generate_copy (data : individual_data) (variable : key) (k : nat)
  : M value :=
  mret (data_read data variable).

(** [Math.round((Math.random() * (interval[1] - interval[0])) +
    interval[0])], [k] times. *)
Fixpoint fresh_values (this : EA) (k : nat) : M (list value) :=
  match k with
  | O => mret []
  | S k' =>
      r ← Math_random;
      xs ← fresh_values this k';
      mret (VNum (inject_Z (Math_round (in_interval this r))) :: xs)
  end.

(** [getVariables(i)] for every method: the keys of the child, and the
    value it leaves in [current_individual_data]. *)
Definition getVariables (this : EA) (ps : jsarray) (method : string)
    (options : option Options) (i : nat) : M (list key * individual_data) :=
  parent ← parent_of ps i;
  let variable_keys := Object_keys (variables parent) in
  let variables_length := length variable_keys in
  if String.eqb method "shrink_mutation" then
    let max_shrink_size := option_or options max_shrink_size 5 in
    start_pos ← round_random (Qnat variables_length);
    shrink_size ← round_random (Qnat max_shrink_size);
    let data := (Array_splice (toArray parent) start_pos shrink_size []).2 in
    mret (Idx <$> range (length data), DataArray data)
  else if String.eqb method "growth_mutation" then
    let max_growth_size := option_or options max_growth_size 5 in
    pos ← round_random (Qnat variables_length);
    growth_size ← round_random (Qnat max_growth_size);
    new_values ← fresh_values this (Z.to_nat growth_size);
    let data := (Array_splice (toArray parent) pos 0 new_values).2 in
    mret (Idx <$> range (length data), DataArray data)
  else if String.eqb method "swap_mutation" then
    let max_swap_size := option_or options max_swap_size 5 in
    swap_size ← round_random (Qnat max_swap_size);
    let max_index := (Z.of_nat variables_length - swap_size)%Z in
    pos1 ← round_random (inject_Z max_index);
    off ← round_random (inject_Z (max_index - pos1));
    let pos2 := Z.min (off + pos1) max_index in
    let data := toArray parent in
    let data2 := Array_slice data pos2 (pos2 + swap_size) in
    let '(data1, data) := Array_splice data pos1 swap_size data2 in
    let '(_, data) := Array_splice data pos2 swap_size data1 in
    mret (variable_keys, DataArray data)
  else if String.eqb method "replace_mutation" then
    let max_replace_size := option_or options max_replace_size 5 in
    let max_insert_size := option_or options max_insert_size 5 in
    start_pos ← round_random (Qnat variables_length);
    replace_size ← round_random (Qnat max_replace_size);
    insert_size ← round_random (Qnat max_insert_size);
    new_values ← fresh_values this (Z.to_nat insert_size);
    let data := (Array_splice (toArray parent) start_pos replace_size new_values).2 in
    mret (Idx <$> range (length data), DataArray data)
  else
    mret (variable_keys, DataObject (variables parent)).

Definition is_structural (method : string) : bool :=
  String.eqb method "shrink_mutation" || String.eqb method "growth_mutation"
  || String.eqb method "swap_mutation" || String.eqb method "replace_mutation".

Definition generateFunction (this : EA) (method : string)
    (options : option Options) : individual_data -> key -> nat -> M value :=
  if is_structural method then generate_copy
  else generate_mutated (mutation_value this method)
                        (option_or options number_of_mutated_values 1).

(** [applyGeneticOperators(parents, method, options)]; [None] is a
    [parents] argument left out. *)
Definition applyGeneticOperators (this : EAPopulation) (parents : option addr)
    (method : string) (options : option Options) : M addr :=
  match parents with
  | None => alloc []
  | Some parents =>
      ps ← read parents;
      if (length ps =? 0)%nat then alloc []
      else
        let algorithm := algorithm this in
        let parents_length := length ps in
        children ← for_range 0 parents_length
          (fun i children =>
             '(vars, data) ← getVariables algorithm ps method options i;
             child ← new_EAIndividual vars
                       (generateFunction algorithm method options data)
                       (fitnessFunction algorithm);
             mret (arr_set children i (Obj child)))
          (new_Array parents_length);
        alloc children
  end.

(** *** Replacement *)

(** [a.sort(function(a, b) { return b.fitness - a.fitness; })], in place. *)
Definition sort_in_place (a : addr) : M unit :=
  l ← read a;
  write a (Array_sort l).

(** [replacement(parents, children, method, options)]; the result is the
    population after the assignment to [this.individuals]. *)
Definition replacement (this : EAPopulation) (parents children : addr)
    (method : string) (options : option Options) : M EAPopulation :=
  inds ← read (individuals this);
  let individuals_length := length inds in
  if String.eqb method "comma_strategy" then
    let newGenerationSize := option_or options newGenerationSize individuals_length in
    sort_in_place children;;
    cs ← read children;
    a ← alloc (Array_slice cs 0 (Z.of_nat newGenerationSize));
    mret (mkPopulation (algorithm this) a)
  else if String.eqb method "separate_competition" then
    let generationGap := option_or options generationGap 0 in
    let num_parents := (Z.of_nat individuals_length - Z.of_nat generationGap)%Z in
    sort_in_place parents;;
    ps ← read parents;
    let kept := Array_slice ps 0 num_parents in
    sort_in_place children;;
    cs ← read children;
    a ← alloc (kept ++ Array_slice cs 0 (Z.of_nat generationGap));
    mret (mkPopulation (algorithm this) a)
  else if String.eqb method "plus_strategy" then
    let newGenerationSize := option_or options newGenerationSize individuals_length in
    ps ← read parents;
    cs ← read children;
    let plus := Array_sort (ps ++ cs) in
    a ← alloc (Array_slice plus 0 (Z.of_nat newGenerationSize));
    mret (mkPopulation (algorithm this) a)
  else
    mret (mkPopulation (algorithm this) children).

End Engine.

(** ** The earlier versions of [applyGeneticOperators] *)

(** The first program of [src/unnamed/part_000] (the second version):
    individuals carry their variables as their own properties, children are
    new individuals, and there is no number coding. *)
Module Version2.
Section Engine.

Variable random : nat -> Q.

(** [f] after [case 'extremal_mutation': var f = ...] and, falling through,
    [var f = f || function() { ... }]. *)
Definition mutation_value (this : EA) (method : string) : M value :=
  let f := if String.eqb method "extremal_mutation"
           then Some (r ← Math_random random;
                      mret (VNum (if Qlt_bool (1 # 2) r then (interval this).2
                                  else (interval this).1)))
           else None in
  let f := match f with
           | Some f => f
           | None => r ← Math_random random; mret (VNum (in_interval this r))
           end in
  f.

(** [function(variable, k) { return (pos.indexOf(k) != -1) ? f() :
    parent[variable]; }]. *)
Definition generate (f : M value) (pos : list Z) (parent : slot)
    (variable : key) (k : nat) : M value :=
  if has_position pos k then f
  else match parent with
       | Obj x => mret (obj_get (variables x) variable)
       | _ => throw TypeError
       end.

Definition applyGeneticOperators (this : EAPopulation) (parents : addr)
    (method : string) (options : option Options) : M addr :=
  ps ← read parents;
  if negb (0 <? length ps)%nat
  then throw (Error "Argument parents can not by empty.")
  else
    let algorithm := algorithm this in
    let parents_length := length ps in
    let f := mutation_value algorithm method in
    let n := option_or options number_of_mutated_values 1 in
    let variables := EA_variables algorithm in
    let variables_length := length variables in
    children ← for_range 0 parents_length
      (fun i children =>
         let parent := arr_get ps (Z.of_nat i) in
         pos ← mutated_positions random variables_length n;
         child ← new_EAIndividual variables (generate f pos parent)
                   (fitnessFunction algorithm);
         mret (arr_set children i (Obj child)))
      (new_Array parents_length);
    alloc children.

End Engine.
End Version2.

(** [src/ea.js] (the first version): individuals are mutable objects that
    hold their variables and [fitness] as properties;
    [applyGeneticOperators] writes into the parents and returns nothing. *)
Module Version1.
Section Engine.

Variable random : nat -> Q.

(** The objects by address, and the draws made so far. *)
Record World := mkWorld {
  objects : list object;
  draws : nat;
}.

(** [f()]; the flag says whether [f] is the extremal function. *)
Definition mutation_value (interval : Q * Q) (extremal : bool) (r : Q) : value :=
  if extremal then VNum (if Qlt_bool (1 # 2) r then interval.2 else interval.1)
  else VNum (r * (interval.2 - interval.1) + interval.1).

(** [var pos = Math.floor(Math.random() * variables_length);
    parents[i][variables[pos]] = f();] on the parent at address [p]. *)
Definition mutate_once (variables : list key) (interval : Q * Q)
    (extremal : bool) (p : nat) (w : World) : exn + World :=
  let pos := Math_floor (random (draws w) * Qnat (length variables)) in
  let name := if (pos <? 0)%Z then Name "undefined"
              else default (Name "undefined") (variables !! Z.to_nat pos) in
  match objects w !! p with
  | None => inl TypeError
  | Some o =>
      let x := mutation_value interval extremal (random (S (draws w))) in
      inr (mkWorld (<[p := obj_set name x o]> (objects w)) (S (S (draws w))))
  end.

Fixpoint mutate_times (variables : list key) (interval : Q * Q)
    (extremal : bool) (p : nat) (n : nat) (w : World) : exn + World :=
  match n with
  | O => inr w
  | S n' =>
      match mutate_once variables interval extremal p w with
      | inl e => inl e
      | inr w' => mutate_times variables interval extremal p n' w'
      end
  end.

Fixpoint mutate_all (variables : list key) (interval : Q * Q)
    (extremal : bool) (n : nat) (parents : list nat) (w : World) : exn + World :=
  match parents with
  | [] => inr w
  | p :: rest =>
      match mutate_times variables interval extremal p n w with
      | inl e => inl e
      | inr w' => mutate_all variables interval extremal n rest w'
      end
  end.

(** [applyGeneticOperators(parents, method, options)]; [parents] is the
    array of the parents' addresses, [variables] and [interval] are those
    of [this.algorithm]. *)
Definition applyGeneticOperators (variables : list key) (interval : Q * Q)
    (parents : list nat) (method : string) (options : option Options)
    (w : World) : exn + World :=
  if negb (0 <? length parents)%nat
  then inl (Error "Argument parents can not by empty.")
  else
    let extremal := String.eqb method "extremal_mutation" in
    let n := option_or options number_of_mutated_values 1 in
    mutate_all variables interval extremal n parents w.

End Engine.
End Version1.

(** ** Stochastic universal sampling, as it is described *)

(** The sum of the clamped fitness values (the roulette size). *)
Definition total_fitness (xs : list EAIndividual) : Q :=
  foldl (fun a x => (a + Math_max0 (fitness x))%Q) 0%Q xs.

(** The individual whose cumulative-weight interval [(cum, cum + weight]]
    contains the position; [Undefined] when no interval does. *)
Fixpoint owner (xs : list EAIndividual) (cum pos : Q) : slot :=
  match xs with
  | [] => Undefined
  | x :: xs' =>
      let cum' := (cum + Math_max0 (fitness x))%Q in
      if Qlt_bool cum pos && Qle_bool pos cum' then Obj x
      else owner xs' cum' pos
  end.

(** The [n] equally spaced pointers [start + k * pointerStep], with
    [pointerStep = rouletteSize / n] and [start = r * pointerStep] for the
    single draw [r], each mapped to its owner. *)
Definition universal_sampling (xs : list EAIndividual) (n : nat) (r : Q) : jsarray :=
  let pointerStep := (total_fitness xs / Qnat n)%Q in
  let start := (r * pointerStep)%Q in
  (fun k => owner xs 0 (start + Qnat k * pointerStep)) <$> seq 0 n.

(** ** Notions used in the statements *)

(** The draws lie in [[0, 1)], as those of [Math.random] do. *)
Definition unit_range (random : nat -> Q) : Prop :=
  forall k, (0 <= random k)%Q /\ (random k < 1)%Q.

(** An element of an array that is an individual of [xs]. *)
Definition member_of (xs : list EAIndividual) (s : slot) : Prop :=
  exists x, s = Obj x /\ x ∈ xs.

(** [fitter a b]: [a] may stand before [b] in descending order of fitness. *)
Definition fitter (a b : EAIndividual) : Prop := (fitness b <= fitness a)%Q.

(** The weights of the roulette for a population of individuals. *)
Definition weights_of (xs : list EAIndividual) : list number :=
  (fun x => Num (Math_max0 (fitness x))) <$> xs.

(** The cumulative weight after the individuals [xs], from [c] on. *)
Definition cumulative (xs : list EAIndividual) (c : Q) : Q :=
  foldl (fun a x => (a + Math_max0 (fitness x))%Q) c xs.

(** The copies that the remainder methods place first:
    [Math.floor(Math.max(0, fitness))] of every individual, in order. *)
Definition deterministic_copies (xs : list EAIndividual) : list EAIndividual :=
  xs ≫= (fun x => replicate (whole_part x) x).

(** A value as [initializePopulation] generates it under a configuration:
    a number of the interval, or with coding ['INT'] an integer between the
    rounded bounds. *)
Definition generated_value (this : EA) (v : value) : Prop :=
  exists q, v = VNum q /\
    if String.eqb (number_coding this) "INT"
    then exists z, q = inject_Z z
                   /\ (Math_round (interval this).1 <= z
                       <= Math_round (interval this).2)%Z
    else ((interval this).1 <= q /\ q <= (interval this).2)%Q.

Definition generated_individual (this : EA) (x : EAIndividual) : Prop :=
  Forall (fun kv => generated_value this kv.2) (variables x).

(** A number of the interval of the configuration. *)
Definition within_interval (this : EA) (v : value) : Prop :=
  exists q, v = VNum q
            /\ ((interval this).1 <= q)%Q /\ (q <= (interval this).2)%Q.

(** Both bounds of the interval are integers. *)
Definition integer_bounds (this : EA) : Prop :=
  exists a b, ((interval this).1 == inject_Z a)%Q
              /\ ((interval this).2 == inject_Z b)%Q.

(** A computation that leaves every array of the heap as it is (it may
    draw random numbers and create objects). *)
Definition keeps_heap {A} (m : M A) : Prop :=
  forall w, match m w with
            | Return _ w' => heap w' = heap w
            | Throw _ => True
            end.

(** A computation that returns (it raises nothing) and leaves every array
    of the heap as it is. *)
Definition succeeds {A} (m : M A) : Prop :=
  forall w, exists a w', m w = Return a w' /\ heap w' = heap w.

(** A computation whose result is the address of a new array, and that
    leaves every array that existed before as it is. *)
Definition allocates (m : M addr) : Prop :=
  forall w, match m w with
            | Return a w' => a = length (heap w) /\ exists l, heap w' = heap w ++ [l]
            | Throw _ => True
            end.

(** ** Sample inputs *)

(** A fitness function: the sum of the variables that are numbers. *)
Definition sum_of_variables (o : object) : Q :=
  foldr (fun kv a => match kv.2 with VNum q => (q + a)%Q | _ => a end)
        0%Q o.

(** A source of random numbers that replays a list, then stays at 0. *)
Definition replay (l : list Q) : nat -> Q := fun k => default 0%Q (l !! k).

Definition real_xy : EA :=
  mkEA [Name "x"; Name "y"] (0, 10)%Q "REAL" sum_of_variables false.

Definition real_x : EA :=
  mkEA [Name "x"] (0, 10)%Q "REAL" sum_of_variables false.

Definition int_x_fractional : EA :=
  mkEA [Name "x"] (1 # 5, 2 # 5)%Q "INT" sum_of_variables false.

Definition parent_xy : EAIndividual :=
  mkIndividual 0 [(Name "x", VNum 3); (Name "y", VNum 4)] 7.

Definition parent_x : EAIndividual :=
  mkIndividual 0 [(Name "x", VNum 3)] 3.

Definition weak : EAIndividual := mkIndividual 1 [(Name "x", VNum 1)] 1.
Definition strong : EAIndividual := mkIndividual 2 [(Name "x", VNum 3)] 3.
Definition middle : EAIndividual := mkIndividual 3 [(Name "x", VNum 2)] 2.

(** A copy of [weak]: the same variables and fitness in another object. *)
Definition weak_copy : EAIndividual := mkIndividual 7 [(Name "x", VNum 1)] 1.

Definition roulette_options (method : string) : option Options :=
  Some (mkOptions (Some method) false None None None None None None None None).

(** ** Printing of an individual *)

Section Printing.

(** The text of a number, [String(x)]. *)
Variable Number_toString : Q -> string.

(** A key as a property name. *)
Definition key_name (k : key) : string :=
  match k with
  | Name s => s
  | Idx i => NilZero.string_of_uint (Nat.to_uint i)
  end.

(** [String(v)] for the value of a variable. *)
Definition value_text (v : value) : string :=
  match v with
  | VUndefined => "undefined"
  | VNum q => Number_toString q
  | VInherited name => "function " ++ name ++ "() { [native code] }"
  end.

(** [this.hasOwnProperty(p)] for an individual [this]: its own properties
    are [variables] and [fitness]. *)
Definition hasOwnProperty (p : key) : bool :=
  match p with
  | Name s => String.eqb s "variables" || String.eqb s "fitness"
  | Idx _ => false
  end.

(** [EAIndividual.prototype.toString]: the loop over the keys of
    [this.variables] tests [this.hasOwnProperty(p)]. *)
Definition toString (this : EAIndividual) : string :=
  let ret :=
    (fun kv => key_name kv.1 ++ ": " ++ value_text kv.2)%string
      <$> filter (fun kv => hasOwnProperty kv.1 = true) (variables this) in
  let ret := ret ++ ["fitness: " ++ Number_toString (fitness this)]%string in
  String.concat ", " ret.

End Printing.

(** ** Notions used in the further properties *)

(** A position filled by a draw of the selection: an individual of [xs],
    or [undefined] where the roulette pointed at no one. *)
Definition drawn (xs : list EAIndividual) (s : slot) : Prop :=
  s = Undefined \/ member_of xs s.

(** [new EAIndividual(getVariables(i), generateFunction, fitnessFunction)]:
    the body of the loop of [applyGeneticOperators] for the parent at
    position [i]. *)
Definition make_child (random : nat -> Q) (this : EA) (ps : jsarray)
    (method : string) (options : option Options) (i : nat) : M EAIndividual :=
  '(vars, data) ← getVariables random this ps method options i;
  new_EAIndividual vars (generateFunction random this method options data)
                   (fitnessFunction this).

(** A computation that leaves the arrays and the identities given out as
    they are (it may draw random numbers). *)
Definition quiet {A} (m : M A) : Prop :=
  forall w, match m w with
            | Return _ w' => heap w' = heap w /\ oids w' = oids w
            | Throw _ => True
            end.

(** The object with the properties [0 .. k-1] holding the elements of an
    array of [k] values. *)
Definition indexed (data : list value) : object :=
  imap (fun i v => (Idx i, v)) data.

(** [key_after a b]: a property [b] created when [a] exists comes after
    [a] in property order. *)
Definition key_after (a b : key) : Prop :=
  key_eqb b a = false /\ key_before b a = false.

(** The properties of an object are distinct and in property order:
    indices ascending, then names. *)
Definition is_object (o : object) : Prop :=
  StronglySorted key_after (Object_keys o).

(** An individual that was created in the world: its identity was given
    out. *)
Definition allocated (w : World) (x : EAIndividual) : Prop :=
  (oid x < oids w)%nat.

(** A value inserted by the growth and replace mutations: an integer
    between the rounded bounds of the interval. *)
Definition rounded_value (this : EA) (v : value) : Prop :=
  exists z, v = VNum (inject_Z z)
            /\ (Math_round (interval this).1 <= z <= Math_round (interval this).2)%Z.

(** The key is a name that means nothing to an array: not an index (nor
    the text of one), not [length], and not a property that arrays
    inherit. *)
Definition plain_name (k : key) : bool :=
  match k with
  | Name s =>
      match index_of_name s with
      | Some _ => false
      | None => negb (String.eqb s "length") && negb (Array_inherits s)
      end
  | Idx _ => false
  end.

(** The two [splice] calls of the swap mutation on an array [l], for
    blocks of [size] values at [pos1] and [pos2]: the block at [pos2]
    goes to [pos1], then the old block of [pos1] goes to [pos2]. *)
Definition swap_blocks (l : list value) (pos1 pos2 size : nat) : list value :=
  let data2 := take size (drop pos2 l) in
  let data1 := take size (drop pos1 l) in
  let l1 := take pos1 l ++ data2 ++ drop (pos1 + size) l in
  take pos2 l1 ++ data1 ++ drop (pos2 + size) l1.

(** An individual as [initializePopulation] makes it under a
    configuration: the fitness is that of its variables; its keys are the
    configured names, or [0 .. k-1] for a length [k] of at most 100 when
    individuals have a variable length. *)
Definition created_by (this : EA) (x : EAIndividual) : Prop :=
  fitness x = fitnessFunction this (variables x)
  /\ if variable_individual_length this
     then variables x = indexed (toArray x) /\ (length (variables x) <= 100)%nat
     else Object_keys (variables x) = EA_variables this.

(** What the first version's [applyGeneticOperators] leaves as it is, from
    [w] to [w']: the number of objects, every object that is not a
    parent, and in every object the properties that are not variables of
    the configuration (its [fitness] among them). *)
Definition Version1_preserves (variables : list key) (parents : list nat)
    (w w' : Version1.World) : Prop :=
  length (Version1.objects w') = length (Version1.objects w)
  /\ (forall a, a ∉ parents -> Version1.objects w' !! a = Version1.objects w !! a)
  /\ (forall a o o' k,
        Version1.objects w !! a = Some o -> Version1.objects w' !! a = Some o' ->
        k ∉ variables -> obj_get o' k = obj_get o k).

(** A value that the second version's mutation generates: a bound of the
    interval for the extremal mutation, a point of the interval
    otherwise. *)
Definition Version2_value (this : EA) (method : string) (v : value) : Prop :=
  if String.eqb method "extremal_mutation"
  then v = VNum (interval this).1 \/ v = VNum (interval this).2
  else exists r, v = VNum (in_interval this r).

(** * Properties *)

(** ** Order on the rationals, in boolean form *)

Lemma Qlt_bool_iff (a b : Q) : Qlt_bool a b = true ↔ (a < b)%Q.
Proof.
  unfold Qlt_bool. rewrite negb_true_iff. split.
  - intros H. apply Qnot_le_lt. intros Hle.
    apply Qle_bool_iff in Hle. congruence.
  - intros H. destruct (Qle_bool b a) eqn:E; [|done].
    apply Qle_bool_iff in E. exfalso. by eapply Qlt_not_le.
Qed.

Lemma Qlt_bool_false (a b : Q) : Qlt_bool a b = false ↔ (b <= a)%Q.
Proof.
  unfold Qlt_bool. rewrite negb_false_iff. apply Qle_bool_iff.
Qed.

Lemma Math_max0_nonneg (x : Q) : (0 <= Math_max0 x)%Q.
Proof.
  unfold Math_max0. destruct (Qle_bool 0 x) eqn:E.
  - by apply Qle_bool_iff.
  - apply Qle_refl.
Qed.

Lemma Math_max0_idem (x : Q) : Math_max0 (Math_max0 x) = Math_max0 x.
Proof.
  unfold Math_max0 at 1.
  by rewrite (proj2 (Qle_bool_iff 0 _) (Math_max0_nonneg x)).
Qed.

(** ** Construction of a configuration *)

(** The number coding is read without regard to case, and an empty string
    stands for ['INT']. *)
Lemma new_EA_number_coding variables lo hi coding f options :
  exists this,
    new_EA variables (IntervalArray [lo; hi]) (Some coding) (Some f) options
      = inr this
    /\ number_coding this
       = (if String.eqb (toUpperCase coding) "" then "INT" else toUpperCase coding)%string.
Proof. eexists. split; reflexivity. Qed.

Example toUpperCase_int : toUpperCase "int" = "INT"%string /\ toUpperCase "Real" = "REAL"%string.
Proof. split; reflexivity. Qed.

(** C9 (failing input).  With the [number_coding] argument left out and a
    well-formed interval, the constructor does not build a configuration
    with coding ['INT']: [number_coding.toUpperCase()] is evaluated on
    [undefined] before the default [|| 'INT'] applies, and the call ends
    with a [TypeError]. *)
Theorem new_EA_number_coding_omitted variables lo hi fitnessFunction options :
  new_EA variables (IntervalArray [lo; hi]) None fitnessFunction options
  = inl TypeError.
Proof. reflexivity. Qed.

(** ** Membership in the population *)

Lemma indexOf_from_range (a : jsarray) (x : slot) (i : Z) :
  indexOf_from a x i = (-1)%Z \/ (i <= indexOf_from a x i)%Z.
Proof.
  revert i. induction a as [|y a IH]; intros i; simpl; [by left|].
  destruct y; try (destruct (strict_eq _ x); [right; lia|]);
    destruct (IH (i + 1)%Z) as [->|H]; auto; right; lia.
Qed.

Lemma indexOf_from_found (a : jsarray) (x : EAIndividual) (i : Z) :
  (0 <= i)%Z ->
  indexOf_from a (Obj x) i <> (-1)%Z <-> exists y, Obj y ∈ a /\ oid y = oid x.
Proof.
  revert i. induction a as [|s a IH]; intros i Hi; simpl.
  - split; [done|]. intros (y & Hy & _). by apply elem_of_nil in Hy.
  - setoid_rewrite elem_of_cons.
    destruct s as [| |y]; simpl.
    + rewrite IH by lia.
      split; intros (z & Hz & E); exists z; [auto|]. by destruct Hz.
    + rewrite IH by lia.
      split; intros (z & Hz & E); exists z; [auto|]. by destruct Hz.
    + destruct (Nat.eqb_spec (oid y) (oid x)) as [E|NE].
      * split; [|lia]. intros _. exists y. auto.
      * rewrite IH by lia.
        split; intros (z & Hz & E); exists z; [auto|].
        destruct Hz as [Hz|Hz]; [congruence|done].
Qed.

(** C10.  [hasIndividual(x)] is true exactly when some element of the
    population's array is the very object [x] (the same identity); an
    individual with the variables and the fitness of [x] but another
    identity than every element is not reported. *)
Theorem hasIndividual_is_identity (this : EAPopulation) (x : EAIndividual) (w : World) :
  (exists b,
      hasIndividual this (Obj x) w = Return b w
      /\ (b = true <->
          exists y, Obj y ∈ default [] (heap w !! individuals this)
                    /\ oid y = oid x))
  /\ (forall x',
         variables x' = variables x -> fitness x' = fitness x ->
         (forall y, Obj y ∈ default [] (heap w !! individuals this) ->
                    oid y <> oid x') ->
         hasIndividual this (Obj x') w = Return false w).
Proof.
  assert (H : forall z, hasIndividual this (Obj z) w
    = Return (negb (Array_indexOf (default [] (heap w !! individuals this)) (Obj z)
                    =? -1)%Z) w) by reflexivity.
  split.
  - eexists. split; [apply H|].
    rewrite negb_true_iff, Z.eqb_neq.
    apply indexOf_from_found. lia.
  - intros x' _ _ Hfresh. rewrite H. f_equal.
    rewrite negb_false_iff, Z.eqb_eq.
    destruct (Z.eq_dec (Array_indexOf (default [] (heap w !! individuals this)) (Obj x')) (-1)%Z)
      as [E|NE]; [done|].
    apply indexOf_from_found in NE as (y & Hy & E); [|lia].
    by apply Hfresh in Hy.
Qed.

(** A copy of a member is not a member. *)
Example hasIndividual_copy :
  hasIndividual (mkPopulation real_x 0) (Obj weak) (mkWorld [[Obj weak; Obj strong]] 8 0)
  = Return true (mkWorld [[Obj weak; Obj strong]] 8 0)
  /\ hasIndividual (mkPopulation real_x 0) (Obj weak_copy) (mkWorld [[Obj weak; Obj strong]] 8 0)
     = Return false (mkWorld [[Obj weak; Obj strong]] 8 0).
Proof. split; reflexivity. Qed.

(** ** Variation: empty parents, and the value functions *)

(** C1 (counterexample).  On an empty [parents] array the latest version
    raises nothing: the call returns. *)
Lemma empty_parents_raise_nothing :
  ~ exists e,
      applyGeneticOperators (replay []) (mkPopulation real_x 0) (Some 1)
        "uniform_mutation" None (mkWorld [[Obj parent_x]; []] 1 0)
      = Throw e.
Proof. intros [e H]. vm_compute in H. discriminate. Qed.

(** C1 (amended).  On an empty [parents] array (or with [parents] left
    out) [applyGeneticOperators] of the latest version returns a new empty
    array, whatever the method and the options, and changes nothing else;
    the two earlier versions raise the error ['Argument parents can not by
    empty.']. *)
Theorem applyGeneticOperators_empty_parents
    (random : nat -> Q) (this : EAPopulation) (parents : addr)
    (method : string) (options : option Options) (w : World) :
  heap w !! parents = Some [] ->
  applyGeneticOperators random this (Some parents) method options w
    = Return (length (heap w)) (mkWorld (heap w ++ [[]]) (oids w) (draws w))
  /\ applyGeneticOperators random this None method options w
    = Return (length (heap w)) (mkWorld (heap w ++ [[]]) (oids w) (draws w))
  /\ Version2.applyGeneticOperators random this parents method options w
    = Throw (Error "Argument parents can not by empty.")
  /\ forall variables interval w1,
       Version1.applyGeneticOperators random variables interval [] method options w1
       = inl (Error "Argument parents can not by empty.").
Proof.
  intros H. repeat split.
  - unfold applyGeneticOperators, read, mbind, M_bind. by rewrite H.
  - unfold Version2.applyGeneticOperators, read, mbind, M_bind. by rewrite H.
Qed.

Lemma applyGeneticOperators_empty_parents_witness :
  heap (mkWorld [[Obj parent_x]; []] 1 0) !! 1%nat = Some []
  /\ applyGeneticOperators (replay []) (mkPopulation real_x 0) (Some 1)
       "extremal_mutation" None (mkWorld [[Obj parent_x]; []] 1 0)
     = Return 2 (mkWorld [[Obj parent_x]; []; []] 1 0).
Proof.
  split; [reflexivity|].
  apply (applyGeneticOperators_empty_parents (replay []) (mkPopulation real_x 0)
           1 "extremal_mutation" None (mkWorld [[Obj parent_x]; []] 1 0)).
  reflexivity.
Defined.

(** In the latest version the function chosen for ['extremal_mutation'] is
    replaced before it is used: the method is the uniform mutation. *)
Lemma extremal_mutation_is_uniform_mutation random this parents options :
  applyGeneticOperators random this parents "extremal_mutation" options
  = applyGeneticOperators random this parents "uniform_mutation" options.
Proof. reflexivity. Qed.

(** C2 (failing input).  One parent [{x: 3}], interval [[0, 10]], coding
    ['REAL'], draws [0, 0.5]: ['extremal_mutation'] gives the child the
    value [5] at the mutated position, which is neither bound of the
    interval. *)
Theorem extremal_mutation_interior_value :
  exists a w' child,
    applyGeneticOperators (replay [0; 1 # 2]%Q) (mkPopulation real_x 0) (Some 0)
      "extremal_mutation" None (mkWorld [[Obj parent_x]] 1 0)
    = Return a w'
    /\ heap w' !! a = Some [Obj child]
    /\ variables child = [(Name "x", VNum (10 # 2))]
    /\ ~ (10 # 2 == (interval real_x).1)%Q
    /\ ~ (10 # 2 == (interval real_x).2)%Q.
Proof.
  do 3 eexists. split; [vm_compute; reflexivity|].
  split; [reflexivity|]. split; [reflexivity|].
  split; intros H; vm_compute in H; discriminate.
Qed.

(** The second version, on the same input, takes a bound. *)
Example extremal_mutation_version2 :
  exists a w' child,
    Version2.applyGeneticOperators (replay [0; 1 # 2]%Q) (mkPopulation real_x 0) 0
      "extremal_mutation" None (mkWorld [[Obj parent_x]] 1 0)
    = Return a w'
    /\ heap w' !! a = Some [Obj child]
    /\ variables child = [(Name "x", VNum (interval real_x).1)].
Proof.
  do 3 eexists. split; [vm_compute; reflexivity|].
  split; reflexivity.
Qed.

(** C5 (failing input).  One parent [{x: 3, y: 4}], interval [[0, 10]],
    coding ['REAL'], [number_of_mutated_values] left at its default 1,
    draws [0, 0.25, 0.5, 0.75]: the positions are drawn again for every
    variable, so both values are replaced (by 2.5 and 7.5) and four draws
    are used, where one position chosen once for the parent would replace a
    single value. *)
Theorem uniform_mutation_positions_per_variable :
  exists a w' child,
    applyGeneticOperators (replay [0; 1 # 4; 1 # 2; 3 # 4]%Q)
      (mkPopulation real_xy 0) (Some 0) "uniform_mutation" None
      (mkWorld [[Obj parent_xy]] 1 0)
    = Return a w'
    /\ heap w' !! a = Some [Obj child]
    /\ variables child = [(Name "x", VNum (10 # 4)); (Name "y", VNum (30 # 4))]
    /\ variables parent_xy = [(Name "x", VNum 3); (Name "y", VNum 4)]
    /\ draws w' = 4%nat.
Proof.
  do 3 eexists. split; [vm_compute; reflexivity|].
  repeat split; reflexivity.
Qed.

(** The second version, on the same input, draws one position for the
    parent and replaces one value. *)
Example uniform_mutation_version2 :
  exists a w' child,
    Version2.applyGeneticOperators (replay [0; 1 # 4; 1 # 2; 3 # 4]%Q)
      (mkPopulation real_xy 0) 0 "uniform_mutation" None
      (mkWorld [[Obj parent_xy]] 1 0)
    = Return a w'
    /\ heap w' !! a = Some [Obj child]
    /\ variables child = [(Name "x", VNum (10 # 4)); (Name "y", VNum 4)]
    /\ draws w' = 2%nat.
Proof.
  do 3 eexists. split; [vm_compute; reflexivity|].
  repeat split; reflexivity.
Qed.

(** ** Running a computation step by step *)

Lemma run_bind {A B} (m : M A) (f : A -> M B) (w : World) :
  (m ≫= f) w = match m w with Return a w' => f a w' | Throw e => Throw e end.
Proof. reflexivity. Qed.

Lemma run_read (a : addr) (w : World) (l : jsarray) :
  heap w !! a = Some l -> read a w = Return l w.
Proof. intros H. unfold read. by rewrite H. Qed.

(** Comparison of method names given as literals. *)
Ltac eval_method :=
  cbn [String.eqb Ascii.eqb Bool.eqb is_remainder is_without is_structural
       orb andb negb].

(** ** Arrays: slices and the sort by fitness *)

Lemma Array_slice_take {A} (l : list A) (n : nat) :
  Array_slice l 0 (Z.of_nat n) = take n l.
Proof.
  unfold Array_slice, rel_index.
  change (0 <? 0)%Z with false. cbv iota.
  rewrite (Z.min_l 0) by lia.
  destruct (Z.ltb_spec (Z.of_nat n) 0) as [?|_]; [lia|].
  rewrite Z.sub_0_r. change (Z.to_nat 0) with 0%nat. rewrite drop_0.
  destruct (Nat.le_gt_cases n (length l)) as [Hle|Hgt].
  - by rewrite Z.min_l, Nat2Z.id by lia.
  - rewrite Z.min_r, Nat2Z.id by lia.
    by rewrite !take_ge by lia.
Qed.

Lemma Array_slice_full {A} (l : list A) :
  Array_slice l 0 (Z.of_nat (length l)) = l.
Proof. rewrite Array_slice_take. by apply take_ge. Qed.

Lemma individuals_of_Obj (l : list EAIndividual) : individuals_of (Obj <$> l) = l.
Proof.
  unfold individuals_of. induction l as [|x l IH]; simpl; [done|].
  f_equal. exact IH.
Qed.

Lemma filter_undefined_Obj (l : list EAIndividual) :
  filter (fun s => is_undefined s = true) (Obj <$> l) = [].
Proof.
  induction l as [|x l IH]; [done|].
  rewrite fmap_cons, filter_cons_False; [done|]. simpl. discriminate.
Qed.

Lemma filter_hole_Obj (l : list EAIndividual) :
  filter (fun s => is_hole s = true) (Obj <$> l) = [].
Proof.
  induction l as [|x l IH]; [done|].
  rewrite fmap_cons, filter_cons_False; [done|]. simpl. discriminate.
Qed.

(** On an array that holds individuals only, the sort is the sort of the
    individuals. *)
Lemma Array_sort_Obj (l : list EAIndividual) :
  Array_sort (Obj <$> l) = Obj <$> sort_by_fitness l.
Proof.
  unfold Array_sort.
  by rewrite individuals_of_Obj, filter_undefined_Obj, filter_hole_Obj, !app_nil_r.
Qed.

Lemma insert_by_fitness_Permutation x l : insert_by_fitness x l ≡ₚ x :: l.
Proof.
  induction l as [|y l IH]; simpl; [done|].
  destruct (Qlt_bool (fitness x) (fitness y)); [|done].
  rewrite IH. apply Permutation_swap.
Qed.

Lemma sort_by_fitness_Permutation l : sort_by_fitness l ≡ₚ l.
Proof.
  induction l as [|x l IH]; simpl; [done|].
  by rewrite insert_by_fitness_Permutation, IH.
Qed.

Lemma insert_by_fitness_sorted x l :
  StronglySorted fitter l -> StronglySorted fitter (insert_by_fitness x l).
Proof.
  induction 1 as [|y l Hl IH Hy]; simpl.
  - repeat constructor.
  - destruct (Qlt_bool (fitness x) (fitness y)) eqn:E.
    + apply Qlt_bool_iff in E. constructor; [done|].
      rewrite insert_by_fitness_Permutation. constructor; [|done].
      by apply Qlt_le_weak.
    + apply Qlt_bool_false in E.
      constructor; [by constructor|].
      constructor; [done|].
      eapply Forall_impl; [exact Hy|].
      intros z Hz. unfold fitter in *. by eapply Qle_trans.
Qed.

Lemma sort_by_fitness_sorted l : StronglySorted fitter (sort_by_fitness l).
Proof.
  induction l as [|x l IH]; simpl; [constructor|].
  by apply insert_by_fitness_sorted.
Qed.

Lemma StronglySorted_take {A} (R : relation A) (n : nat) (l : list A) :
  StronglySorted R l -> StronglySorted R (take n l).
Proof.
  intros H. rewrite <- (take_drop n l) in H.
  by apply StronglySorted_app_1_l in H.
Qed.

(** ** Replacement by the plus strategy *)

(** C8 (counterexample).  A population of three, one parent and one child:
    the plus strategy leaves two individuals, not the three of the default
    [newGenerationSize]. *)
Lemma plus_strategy_smaller_generation :
  exists this' w' l,
    replacement (mkPopulation real_x 0) 1 2 "plus_strategy" None
      (mkWorld [[Obj weak; Obj strong; Obj middle]; [Obj strong]; [Obj weak]] 4 0)
    = Return this' w'
    /\ heap w' !! individuals this' = Some l
    /\ option_or None newGenerationSize 3 = 3%nat
    /\ length l <> 3%nat.
Proof.
  do 3 eexists. split; [vm_compute; reflexivity|].
  split; [reflexivity|]. split; [reflexivity|]. simpl. lia.
Qed.

(** C8 (amended).  With arrays of individuals as [parents] and [children],
    the plus strategy stores a new array that holds the first
    [newGenerationSize] individuals of the concatenation sorted by
    descending fitness, where [newGenerationSize] is the option, or the
    size of the population before the call when the option is left out or
    0: its size is the smaller of [newGenerationSize] and the number of
    parents and children together, its elements are among the parents and
    the children, and it is in non-increasing order of fitness. *)
Theorem replacement_plus_strategy
    (this : EAPopulation) (parents children : addr) (options : option Options)
    (w : World) (inds : jsarray) (ps cs : list EAIndividual) :
  heap w !! individuals this = Some inds ->
  heap w !! parents = Some (Obj <$> ps) ->
  heap w !! children = Some (Obj <$> cs) ->
  exists ys,
    replacement this parents children "plus_strategy" options w
    = Return (mkPopulation (algorithm this) (length (heap w)))
             (mkWorld (heap w ++ [Obj <$> ys]) (oids w) (draws w))
    /\ ys = take (option_or options newGenerationSize (length inds))
                 (sort_by_fitness (ps ++ cs))
    /\ length ys = (option_or options newGenerationSize (length inds)
                    `min` (length ps + length cs))%nat
    /\ ys ⊆ ps ++ cs
    /\ StronglySorted fitter ys.
Proof.
  intros Hi Hp Hc. eexists. split; [|split; [reflexivity|]].
  - unfold replacement.
    rewrite run_bind, (run_read _ _ _ Hi). eval_method.
    rewrite run_bind, (run_read _ _ _ Hp), run_bind, (run_read _ _ _ Hc).
    by rewrite <- fmap_app, Array_sort_Obj, Array_slice_take, fmap_take.
  - split; [|split].
    + by rewrite length_take, (Permutation_length (sort_by_fitness_Permutation _)),
        length_app.
    + intros y Hy. apply elem_of_take in Hy as (i & Hy & _).
      apply list_elem_of_lookup_2 in Hy.
      by rewrite sort_by_fitness_Permutation in Hy.
    + apply StronglySorted_take, sort_by_fitness_sorted.
Qed.

Lemma replacement_plus_strategy_witness :
  heap (mkWorld [[Obj weak; Obj strong]; [Obj weak; Obj strong]; [Obj middle]] 4 0)
    !! individuals (mkPopulation real_x 0) = Some [Obj weak; Obj strong]
  /\ exists ys,
      replacement (mkPopulation real_x 0) 1 2 "plus_strategy" None
        (mkWorld [[Obj weak; Obj strong]; [Obj weak; Obj strong]; [Obj middle]] 4 0)
      = Return (mkPopulation real_x 3)
          (mkWorld [[Obj weak; Obj strong]; [Obj weak; Obj strong]; [Obj middle];
                    Obj <$> ys] 4 0)
      /\ ys = [strong; middle].
Proof.
  split; [reflexivity|].
  destruct (replacement_plus_strategy (mkPopulation real_x 0) 1 2 None
              (mkWorld [[Obj weak; Obj strong]; [Obj weak; Obj strong]; [Obj middle]] 4 0)
              [Obj weak; Obj strong] [weak; strong] [middle]
              eq_refl eq_refl eq_refl) as (ys & Hrun & Hys & _).
  exists ys. split; [exact Hrun|]. rewrite Hys. reflexivity.
Defined.

(** ** Which computations touch the heap *)

Lemma keeps_heap_ret {A} (a : A) : keeps_heap (mret a).
Proof. by intros w. Qed.

Lemma keeps_heap_throw {A} (e : exn) : keeps_heap (@throw A e).
Proof. by intros w. Qed.

Lemma keeps_heap_bind {A B} (m : M A) (f : A -> M B) :
  keeps_heap m -> (forall a, keeps_heap (f a)) -> keeps_heap (m ≫= f).
Proof.
  intros Hm Hf w. rewrite run_bind. specialize (Hm w).
  destruct (m w) as [a w'|e]; [|done].
  specialize (Hf a w'). destruct (f a w'); [congruence|done].
Qed.

Lemma keeps_heap_read (a : addr) : keeps_heap (read a).
Proof. by intros w. Qed.

Lemma keeps_heap_fresh_oid : keeps_heap fresh_oid.
Proof. by intros w. Qed.

Lemma keeps_heap_Math_random random : keeps_heap (Math_random random).
Proof. by intros w. Qed.

Lemma keeps_heap_for_range {St} (body : nat -> St -> M St) (i k : nat) (s : St) :
  (forall j t, keeps_heap (body j t)) -> keeps_heap (for_range i k body s).
Proof.
  intros Hbody. revert i s. induction k as [|k IH]; intros i s; simpl.
  - apply keeps_heap_ret.
  - apply keeps_heap_bind; [apply Hbody|]. intros t. apply IH.
Qed.

Create HintDb frame.
#[export] Hint Resolve keeps_heap_ret keeps_heap_throw keeps_heap_read
  keeps_heap_fresh_oid keeps_heap_Math_random : frame.

(** Decomposition of a computation along its binds, loops and case
    distinctions. *)
Ltac keeps :=
  repeat match goal with
         | |- keeps_heap (_ ≫= _) => apply keeps_heap_bind; [|intros ?]
         | |- keeps_heap (for_range _ _ _ _) =>
             apply keeps_heap_for_range; intros ? ?
         | |- keeps_heap (match ?x with _ => _ end) => destruct x
         | |- keeps_heap _ => solve [auto with frame]
         end.

Lemma keeps_heap_map_fitness inds : keeps_heap (map_fitness inds).
Proof. induction inds as [|[| |x] inds IH]; simpl; keeps. Qed.

Lemma keeps_heap_mutated_positions random len n :
  keeps_heap (mutated_positions random len n).
Proof. induction n as [|n IH]; simpl; keeps. Qed.

Lemma keeps_heap_fresh_values random this k :
  keeps_heap (fresh_values random this k).
Proof. induction k as [|k IH]; simpl; keeps. Qed.

Lemma keeps_heap_EAIndividual_fill g vars v o :
  (forall variable k, keeps_heap (g variable k)) ->
  keeps_heap (EAIndividual_fill g vars v o).
Proof.
  intros Hg. revert v o. induction vars as [|x vars IH]; intros v o; simpl; keeps.
Qed.

Lemma keeps_heap_new_EAIndividual vars g f :
  (forall variable k, keeps_heap (g variable k)) ->
  keeps_heap (new_EAIndividual vars g f).
Proof.
  intros Hg. unfold new_EAIndividual. keeps.
  by apply keeps_heap_EAIndividual_fill.
Qed.

#[export] Hint Resolve keeps_heap_map_fitness keeps_heap_mutated_positions
  keeps_heap_fresh_values : frame.

Lemma keeps_heap_uniform_value random this : keeps_heap (uniform_value random this).
Proof. unfold uniform_value. keeps. Qed.

Lemma keeps_heap_generateFunction random this method options data variable k :
  keeps_heap (generateFunction random this method options data variable k).
Proof.
  unfold generateFunction, generate_copy, generate_mutated, mutation_value.
  destruct (is_structural method); keeps.
Qed.

Lemma keeps_heap_getVariables random this ps method options i :
  keeps_heap (getVariables random this ps method options i).
Proof.
  unfold getVariables, parent_of, round_random. keeps.
Qed.

Lemma allocates_alloc {A} (m : M A) (f : A -> jsarray) :
  keeps_heap m -> allocates (m ≫= fun a => alloc (f a)).
Proof.
  intros Hm w. rewrite run_bind. specialize (Hm w).
  destruct (m w) as [a w'|e]; [|done].
  unfold alloc. rewrite Hm. eauto.
Qed.

Lemma allocates_bind {A} (m : M A) (f : A -> M addr) :
  keeps_heap m -> (forall a, allocates (f a)) -> allocates (m ≫= f).
Proof.
  intros Hm Hf w. rewrite run_bind. specialize (Hm w).
  destruct (m w) as [a w'|e]; [|done].
  specialize (Hf a w'). destruct (f a w'); [|done]. by rewrite <- Hm.
Qed.

Lemma allocates_array (l : jsarray) : allocates (alloc l).
Proof. intros w. simpl. eauto. Qed.

Lemma allocates_throw (e : exn) : allocates (throw e).
Proof. by intros w. Qed.

Lemma allocates_getRandomParents random individuals n :
  allocates (getRandomParents random individuals n).
Proof.
  unfold getRandomParents.
  apply allocates_bind; [keeps|]. intros inds.
  apply (allocates_alloc _ id). keeps.
Qed.

Lemma allocates_getBestParents individuals n :
  allocates (getBestParents individuals n).
Proof.
  unfold getBestParents.
  apply allocates_bind; [keeps|]. intros inds. apply allocates_array.
Qed.

Lemma keeps_heap_roulette_step random inds without i st :
  keeps_heap (roulette_step random inds without i st).
Proof. unfold roulette_step. keeps. Qed.

Lemma keeps_heap_univerzal_step inds keys weights pointerStep i st :
  keeps_heap (univerzal_step inds keys weights pointerStep i st).
Proof. unfold univerzal_step. keeps. Qed.

Lemma keeps_heap_shuffle_keys random keys : keeps_heap (shuffle_keys random keys).
Proof. unfold shuffle_keys. keeps. Qed.

#[export] Hint Resolve keeps_heap_roulette_step keeps_heap_univerzal_step
  keeps_heap_shuffle_keys keeps_heap_getVariables keeps_heap_generateFunction
  : frame.

Lemma allocates_getParentsFromRoulette random individuals method n shuffleOrder :
  allocates (getParentsFromRoulette random individuals method n shuffleOrder).
Proof.
  unfold getParentsFromRoulette.
  apply allocates_bind; [keeps|]. intros inds.
  apply allocates_bind; [keeps|]. intros fitnessValues.
  destruct (String.eqb method "univerzal").
  - apply allocates_bind; [keeps|]. intros keys.
    destruct (Qeq_bool _ 0); [apply allocates_array|].
    apply allocates_bind; [keeps|]. intros r.
    apply allocates_bind; [keeps|].
    intros [[[parents ?] ?] ?]. apply allocates_array.
  - destruct (is_remainder method).
    + destruct (whole_copies _ _ _) as [parents i].
      destruct (Qeq_bool _ 0); [apply allocates_array|].
      apply allocates_bind; [keeps|].
      intros [[parents' ?] ?]. apply allocates_array.
    + destruct (Qeq_bool _ 0); [apply allocates_array|].
      apply allocates_bind; [keeps|].
      intros [[parents' ?] ?]. apply allocates_array.
Qed.

Lemma allocates_getParents random this method n options :
  allocates (getParents random this method n options).
Proof.
  unfold getParents.
  destruct (String.eqb method "best"); [apply allocates_getBestParents|].
  destruct (String.eqb method "roulette").
  - destruct options; [|apply allocates_throw].
    apply allocates_getParentsFromRoulette.
  - destruct (String.eqb method "random");
      [apply allocates_getRandomParents|apply allocates_array].
Qed.

Lemma allocates_applyGeneticOperators random this parents method options :
  allocates (applyGeneticOperators random this parents method options).
Proof.
  unfold applyGeneticOperators.
  destruct parents as [parents|]; [|apply allocates_array].
  apply allocates_bind; [keeps|]. intros ps.
  destruct (length ps =? 0)%nat; [apply allocates_array|].
  apply (allocates_alloc _ id). keeps.
  apply keeps_heap_new_EAIndividual. auto with frame.
Qed.

(** ** Operators and the arrays they share *)

(** C6 (counterexample).  The comma strategy sorts the array of children
    that the caller passed: after the call it holds [strong, weak], no
    longer [weak, strong]. *)
Lemma comma_strategy_sorts_the_children :
  exists this' w',
    replacement (mkPopulation real_x 0) 1 2 "comma_strategy" None
      (mkWorld [[Obj weak; Obj strong]; [Obj strong]; [Obj weak; Obj strong]] 4 0)
    = Return this' w'
    /\ heap w' !! 2%nat = Some [Obj strong; Obj weak]
    /\ heap w' !! 2%nat
       <> heap (mkWorld [[Obj weak; Obj strong]; [Obj strong]; [Obj weak; Obj strong]] 4 0)
            !! 2%nat.
Proof.
  do 2 eexists. split; [vm_compute; reflexivity|].
  split; [reflexivity|]. simpl. discriminate.
Qed.

(** C6 (amended).  [getParents] and [applyGeneticOperators] return a new
    array and leave every existing array as it is (the array stored in the
    population and the arrays of the caller).  [replacement] assigns
    [this.individuals] once: the plus strategy stores a new array and
    changes no existing one; the generational method (the default) stores
    the very array of children, not a copy, and changes no array; the comma
    strategy stores a new array and sorts the children array in place;
    the separate competition stores a new array and sorts the parents
    array and the children array in place. *)
Theorem operators_and_shared_arrays
    (random : nat -> Q) (this : EAPopulation) (parents children : addr)
    (method : string) (n : nat) (options : option Options) (w : World) :
  allocates (getParents random this method n options)
  /\ allocates (applyGeneticOperators random this (Some parents) method options)
  /\ exists this' w',
       replacement this parents children method options w = Return this' w'
       /\ algorithm this' = algorithm this
       /\ if String.eqb method "comma_strategy" then
            individuals this' = length (heap w)
            /\ exists l,
                 heap w' = <[children := Array_sort (default [] (heap w !! children))]>
                             (heap w) ++ [l]
          else if String.eqb method "separate_competition" then
            let h := <[parents := Array_sort (default [] (heap w !! parents))]> (heap w) in
            individuals this' = length (heap w)
            /\ exists l,
                 heap w' = <[children := Array_sort (default [] (h !! children))]> h ++ [l]
          else if String.eqb method "plus_strategy" then
            individuals this' = length (heap w)
            /\ exists l, heap w' = heap w ++ [l]
          else individuals this' = children /\ w' = w.
Proof.
  split; [apply allocates_getParents|].
  split; [apply allocates_applyGeneticOperators|].
  unfold replacement, sort_in_place, read, write, alloc.
  rewrite !run_bind. cbn beta iota.
  destruct (String.eqb method "comma_strategy").
  { do 2 eexists. split; [reflexivity|]. simpl.
    rewrite length_insert. eauto. }
  destruct (String.eqb method "separate_competition").
  { do 2 eexists. split; [reflexivity|]. simpl.
    rewrite !length_insert. eauto. }
  destruct (String.eqb method "plus_strategy").
  { do 2 eexists. split; [reflexivity|]. simpl. eauto. }
  do 2 eexists. split; [reflexivity|]. simpl. by destruct w.
Qed.

(** ** Initial population *)

Lemma in_interval_bounds (this : EA) (r : Q) :
  (0 <= r)%Q -> (r < 1)%Q -> ((interval this).1 <= (interval this).2)%Q ->
  ((interval this).1 <= in_interval this r)%Q
  /\ (in_interval this r <= (interval this).2)%Q.
Proof.
  unfold in_interval. generalize (interval this).1 (interval this).2.
  intros lo hi H0 H1 Hle. split; nra.
Qed.

Lemma Math_round_Z (a : Z) : Math_round (inject_Z a) = a.
Proof.
  unfold Math_round. apply Z.le_antisymm.
  - apply Z.lt_succ_r. rewrite Zlt_Qlt.
    eapply Qle_lt_trans; [apply Qfloor_le|].
    unfold Z.succ. rewrite inject_Z_plus. change (inject_Z 1) with 1%Q. lra.
  - rewrite <- (Qfloor_Z a) at 1. apply Qfloor_resp_le. lra.
Qed.

Lemma Math_round_mono (x y : Q) : (x <= y)%Q -> (Math_round x <= Math_round y)%Z.
Proof. intros H. apply Qfloor_resp_le. lra. Qed.

Lemma Math_round_comp (x y : Q) : (x == y)%Q -> Math_round x = Math_round y.
Proof. intros H. apply Qfloor_comp. by rewrite H. Qed.

Section Initial.

Variable random : nat -> Q.
Variable this : EA.
Hypothesis random_range : unit_range random.
Hypothesis interval_ordered : ((interval this).1 <= (interval this).2)%Q.

Lemma uniform_value_run (w : World) :
  exists v,
    uniform_value random this w
    = Return v (mkWorld (heap w) (oids w) (S (draws w)))
    /\ generated_value this v.
Proof.
  eexists. split; [reflexivity|]. eexists. split; [reflexivity|].
  destruct (random_range (draws w)) as [H0 H1].
  destruct (in_interval_bounds this _ H0 H1 interval_ordered) as [Hlo Hhi].
  destruct (String.eqb (number_coding this) "INT").
  - eexists. split; [reflexivity|]. split; by apply Math_round_mono.
  - done.
Qed.

Lemma obj_set_Forall (P : key * value -> Prop) k v o :
  P (k, v) -> Forall P o -> Forall P (obj_set k v o).
Proof.
  intros Hv. induction 1 as [|[k' v'] o Hk Ho IH]; simpl.
  - by repeat constructor.
  - destruct (key_eqb k k'); [by constructor|].
    destruct (key_before k k'); repeat constructor; done.
Qed.

Lemma EAIndividual_fill_run (vars : list key) (v : nat) (o : object) (w : World) :
  Forall (fun kv => generated_value this kv.2) o ->
  exists o' w',
    EAIndividual_fill (fun _ _ => uniform_value random this) vars v o w
    = Return o' w'
    /\ heap w' = heap w /\ oids w' = oids w
    /\ Forall (fun kv => generated_value this kv.2) o'.
Proof.
  revert v o w. induction vars as [|variable vars IH]; intros v o w Ho; simpl.
  - by exists o, w.
  - destruct (uniform_value_run w) as (x & Hx & Hgen).
    rewrite run_bind, Hx.
    destruct (IH (S v) (obj_set variable x o)
                 (mkWorld (heap w) (oids w) (S (draws w))))
      as (o' & w' & Hrun & Hh & Ho' & Hall).
    { by apply obj_set_Forall. }
    by exists o', w'.
Qed.

Lemma new_EAIndividual_run (vars : list key) (w : World) :
  exists x w',
    new_EAIndividual vars (fun _ _ => uniform_value random this)
      (fitnessFunction this) w
    = Return x w'
    /\ heap w' = heap w /\ generated_individual this x.
Proof.
  unfold new_EAIndividual, fresh_oid. rewrite run_bind.
  destruct (EAIndividual_fill_run vars 0 []
              (mkWorld (heap w) (S (oids w)) (draws w)))
    as (o & w' & Hrun & Hh & _ & Hall); [constructor|].
  rewrite run_bind, Hrun. by do 2 eexists.
Qed.

(** The loop of [initializePopulation] ends by its test, with the
    population filled up to [n] individuals. *)
Lemma populate_run (population : EAPopulation) (n fuel : nat) (w : World)
    (xs : list EAIndividual) :
  heap w !! individuals population = Some (Obj <$> xs) ->
  (n <= length xs + fuel)%nat ->
  Forall (generated_individual this) xs ->
  exists w' ys,
    populate random fuel this population n w = Return tt w'
    /\ heap w' = <[individuals population := Obj <$> (xs ++ ys)]> (heap w)
    /\ length (xs ++ ys) = (n `max` length xs)%nat
    /\ Forall (generated_individual this) (xs ++ ys).
Proof.
  revert w xs. induction fuel as [|fuel IH]; intros w xs Ha Hfuel Hxs.
  - exists w, []. rewrite app_nil_r.
    assert (Hc : count population w = Return (length xs) w).
    { unfold count. rewrite run_bind, (run_read _ _ _ Ha). by rewrite length_fmap. }
    simpl. rewrite run_bind, Hc.
    destruct (Nat.ltb_spec (length xs) n) as [?|?]; [lia|].
    split; [done|]. split; [by rewrite list_insert_id|]. split; [lia|done].
  - assert (Hc : count population w = Return (length xs) w).
    { unfold count. rewrite run_bind, (run_read _ _ _ Ha). by rewrite length_fmap. }
    simpl. rewrite run_bind, Hc.
    destruct (Nat.ltb_spec (length xs) n) as [Hlt|Hge].
    2:{ exists w, []. rewrite app_nil_r.
        split; [done|]. split; [by rewrite list_insert_id|]. split; [lia|done]. }
    assert (Hvars : exists vars w1,
      (if variable_individual_length this
       then r ← Math_random random;
            mret (Idx <$> range (Z.to_nat (Math_round (r * 100))))
       else mret (EA_variables this)) w = Return vars w1 /\ heap w1 = heap w).
    { destruct (variable_individual_length this); by do 2 eexists. }
    destruct Hvars as (vars & w1 & Hvars & Hh1).
    rewrite run_bind, Hvars.
    destruct (new_EAIndividual_run vars w1) as (x & w2 & Hnew & Hh2 & Hx).
    rewrite run_bind, Hnew, run_bind.
    unfold push. rewrite run_bind.
    assert (Ha2 : heap w2 !! individuals population = Some (Obj <$> xs))
      by (by rewrite Hh2, Hh1).
    rewrite (run_read _ _ _ Ha2). unfold write.
    destruct (IH (mkWorld (<[individuals population := (Obj <$> xs) ++ [Obj x]]> (heap w2))
                          (oids w2) (draws w2))
                 (xs ++ [x])) as (w' & ys & Hrun & Hh & Hlen & Hall).
    { simpl. rewrite fmap_app. apply list_lookup_insert_eq.
      by eapply lookup_lt_Some. }
    { rewrite length_app. simpl. lia. }
    { apply Forall_app. split; [done|]. by constructor. }
    exists w', ([x] ++ ys). rewrite app_assoc.
    split; [exact Hrun|]. split; [|split; [|done]].
    + rewrite Hh. simpl. by rewrite list_insert_insert_eq, Hh2, Hh1.
    + rewrite Hlen, length_app. simpl. lia.
Qed.

End Initial.

Lemma replay_unit_range (l : list Q) :
  Forall (fun q => (0 <= q)%Q /\ (q < 1)%Q) l -> unit_range (replay l).
Proof.
  intros Hl k. unfold replay.
  destruct (l !! k) as [q|] eqn:E; simpl.
  - by apply (Forall_lookup_1 _ _ _ _ Hl E).
  - split; [apply Qle_refl|reflexivity].
Qed.

Lemma generated_value_within (this : EA) (v : value) :
  generated_value this v ->
  String.eqb (number_coding this) "INT" = false \/ integer_bounds this ->
  within_interval this v.
Proof.
  intros (q & -> & Hq) Hcase. exists q. split; [done|].
  destruct (String.eqb (number_coding this) "INT") eqn:E; [|done].
  destruct Hcase as [?|(a & b & Ha & Hb)]; [done|].
  destruct Hq as (z & -> & Hlo & Hhi).
  rewrite (Math_round_comp _ _ Ha), Math_round_Z in Hlo.
  rewrite (Math_round_comp _ _ Hb), Math_round_Z in Hhi.
  rewrite Ha, Hb. by rewrite <- !Zle_Qle.
Qed.

(** C7 (counterexample).  Coding ['INT'] and interval [[1/5, 2/5]]: the
    value generated from the draw 0 is [Math.round(1/5) = 0], which lies
    below the interval. *)
Lemma initializePopulation_rounds_out_of_interval :
  exists population w' x,
    initializePopulation (replay []) int_x_fractional "random" 1 (mkWorld [] 0 0)
    = Return population w'
    /\ heap w' !! individuals population = Some [Obj x]
    /\ variables x = [(Name "x", VNum 0)]
    /\ ((interval int_x_fractional).1 <= (interval int_x_fractional).2)%Q
    /\ ~ ((interval int_x_fractional).1 <= 0)%Q.
Proof.
  do 3 eexists. split; [vm_compute; reflexivity|].
  split; [reflexivity|]. split; [reflexivity|].
  split; [discriminate|]. intros H. by apply H.
Qed.

(** C7 (amended).  For a configuration with [min <= max], draws in
    [[0, 1)] and every [n], [initializePopulation(method, n)] returns a new
    population of exactly [n] individuals.  Every generated value is a
    number: with a coding other than ['INT'] it lies within [[min, max]];
    with ['INT'] it is an integer between [Math.round(min)] and
    [Math.round(max)], hence within [[min, max]] when both bounds are
    integers. *)
Theorem initializePopulation_count_and_values
    (random : nat -> Q) (this : EA) (method : string) (n : nat) (w : World) :
  unit_range random ->
  ((interval this).1 <= (interval this).2)%Q ->
  exists xs w',
    initializePopulation random this method n w
    = Return (mkPopulation this (length (heap w))) w'
    /\ heap w' = heap w ++ [Obj <$> xs]
    /\ count (mkPopulation this (length (heap w))) w' = Return n w'
    /\ length xs = n
    /\ Forall (generated_individual this) xs
    /\ (String.eqb (number_coding this) "INT" = false \/ integer_bounds this ->
        Forall (fun x => Forall (fun kv => within_interval this kv.2) (variables x)) xs).
Proof.
  intros Hr Hi.
  assert (Hgoal : exists xs w',
    initializePopulation random this method n w
    = Return (mkPopulation this (length (heap w))) w'
    /\ heap w' = heap w ++ [Obj <$> xs] /\ length xs = n
    /\ Forall (generated_individual this) xs).
  { unfold initializePopulation, new_EAPopulation, alloc.
    rewrite !run_bind. unfold mret, M_ret.
    destruct (Nat.ltb_spec 0 n) as [Hn|Hn].
    - destruct (populate_run random this Hr Hi
                  (mkPopulation this (length (heap w))) n n
                  (mkWorld (heap w ++ [[]]) (oids w) (draws w)) [])
        as (w' & ys & Hrun & Hh & Hlen & Hall).
      { simpl. by rewrite list_lookup_middle. }
      { simpl. lia. }
      { constructor. }
      rewrite run_bind, Hrun. exists ys, w'. split; [done|]. simpl in *.
      split; [|split; [lia|done]].
      rewrite Hh. replace (length (heap w)) with (length (heap w) + 0)%nat by lia.
      by rewrite insert_app_r.
    - exists [], (mkWorld (heap w ++ [[]]) (oids w) (draws w)).
      repeat split; [simpl; lia|constructor]. }
  destruct Hgoal as (xs & w' & Hrun & Hh & Hlen & Hall).
  exists xs, w'. split; [done|]. split; [done|].
  split; [|split; [done|split; [done|]]].
  - unfold count, read. rewrite run_bind. simpl.
    rewrite Hh, list_lookup_middle by done. simpl.
    by rewrite length_fmap, Hlen.
  - intros Hcase. eapply Forall_impl; [exact Hall|]. intros x Hx.
    eapply Forall_impl; [exact Hx|]. intros kv Hkv.
    by apply generated_value_within.
Qed.

Lemma initializePopulation_count_and_values_witness :
  unit_range (replay [1 # 2; 1 # 4]%Q)
  /\ ((interval real_x).1 <= (interval real_x).2)%Q
  /\ exists xs w',
       initializePopulation (replay [1 # 2; 1 # 4]%Q) real_x "random" 2
         (mkWorld [] 0 0)
       = Return (mkPopulation real_x 0) w'
       /\ heap w' = [Obj <$> xs] /\ length xs = 2%nat.
Proof.
  assert (Hr : unit_range (replay [1 # 2; 1 # 4]%Q)).
  { apply replay_unit_range. repeat constructor; discriminate. }
  assert (Hi : ((interval real_x).1 <= (interval real_x).2)%Q) by discriminate.
  split; [exact Hr|]. split; [exact Hi|].
  destruct (initializePopulation_count_and_values (replay [1 # 2; 1 # 4]%Q)
              real_x "random" 2 (mkWorld [] 0 0) Hr Hi)
    as (xs & w' & Hrun & Hh & _ & Hlen & _).
  exists xs, w'. split; [exact Hrun|]. split; [exact Hh|exact Hlen].
Defined.

(** ** Filling an array, reading an array of individuals *)

Lemma arr_set_next (vs : jsarray) (m : nat) (v : slot) :
  arr_set (vs ++ replicate m Hole) (length vs) v
  = (vs ++ [v]) ++ replicate (m - 1) Hole.
Proof.
  unfold arr_set. rewrite length_app, length_replicate.
  destruct m as [|m]; simpl.
  - rewrite Nat.add_0_r, Nat.ltb_irrefl, Nat.sub_diag, !app_nil_r. done.
  - destruct (Nat.ltb_spec (length vs) (length vs + S m)) as [_|?]; [|lia].
    rewrite Nat.sub_0_r, <- app_assoc. simpl.
    replace (length vs) with (length vs + 0)%nat at 1 by lia.
    by rewrite insert_app_r.
Qed.

Lemma arr_get_Obj (xs : list EAIndividual) (i : nat) (x : EAIndividual) :
  xs !! i = Some x -> arr_get (Obj <$> xs) (Z.of_nat i) = Obj x.
Proof.
  intros H. unfold arr_get.
  destruct (Z.ltb_spec (Z.of_nat i) 0) as [?|_]; [lia|].
  by rewrite Nat2Z.id, list_lookup_fmap, H.
Qed.

Lemma arr_get_outside (xs : list EAIndividual) (i : Z) :
  (i < 0 \/ Z.of_nat (length xs) <= i)%Z -> arr_get (Obj <$> xs) i = Undefined.
Proof.
  intros H. unfold arr_get.
  destruct (Z.ltb_spec i 0) as [?|?]; [done|].
  rewrite list_lookup_fmap, (lookup_ge_None_2 xs); [done|lia].
Qed.

(** ** The roulette *)

Lemma map_fitness_Obj (xs : list EAIndividual) (w : World) :
  map_fitness (Obj <$> xs) w = Return (weights_of xs) w.
Proof.
  induction xs as [|x xs IH]; [done|].
  change (map_fitness (Obj <$> x :: xs))
    with (fs ← map_fitness (Obj <$> xs); mret (Num (Math_max0 (fitness x)) :: fs)).
  by rewrite run_bind, IH.
Qed.

Lemma roulette_size_cumulative (xs : list EAIndividual) :
  roulette_size Math_max0 (Obj <$> xs) = total_fitness xs.
Proof.
  unfold roulette_size, total_fitness. generalize 0%Q.
  induction xs as [|x xs IH]; intros c; simpl; [done|]. apply IH.
Qed.

Lemma total_fitness_cumulative (xs : list EAIndividual) :
  total_fitness xs = cumulative xs 0.
Proof. reflexivity. Qed.

Lemma cumulative_ge (xs : list EAIndividual) (c : Q) : (c <= cumulative xs c)%Q.
Proof.
  revert c. induction xs as [|x xs IH]; intros c; simpl; [apply Qle_refl|].
  eapply Qle_trans; [|apply IH].
  pose proof (Math_max0_nonneg (fitness x)). lra.
Qed.

Lemma walk_index_ge (ws : list number) (pos : Q) (f : number) (j : nat) :
  (j <= (walk ws pos f j).2)%nat.
Proof.
  revert f j. induction ws as [|x ws IH]; intros f j; simpl.
  - destruct (num_lt f pos); simpl; lia.
  - destruct (num_lt f pos); simpl; [|lia].
    specialize (IH (num_add f x) (S j)). lia.
Qed.

Lemma num_lt_mono (f : number) (p p' : Q) :
  (p <= p')%Q -> num_lt f p = true -> num_lt f p' = true.
Proof.
  destruct f as [|c]; simpl; [done|].
  rewrite !Qlt_bool_iff. intros. lra.
Qed.

(** The walk for a later position can go on from where the walk for an
    earlier position stopped. *)
Lemma walk_resume (ws : list number) (p p' : Q) (f : number) (j : nat) :
  (p <= p')%Q ->
  walk (drop ((walk ws p f j).2 - j) ws) p' (walk ws p f j).1 (walk ws p f j).2
  = walk ws p' f j.
Proof.
  intros Hp. revert f j. induction ws as [|x ws IH]; intros f j.
  - rewrite drop_nil. simpl. destruct (num_lt f p) eqn:E; simpl.
    + by rewrite (num_lt_mono _ _ _ Hp E).
    + done.
  - change (walk (x :: ws) p f j)
      with (if num_lt f p then walk ws p (num_add f x) (S j) else (f, j)).
    change (walk (x :: ws) p' f j)
      with (if num_lt f p' then walk ws p' (num_add f x) (S j) else (f, j)).
    destruct (num_lt f p) eqn:E.
    + rewrite (num_lt_mono _ _ _ Hp E), <- IH.
      pose proof (walk_index_ge ws p (num_add f x) (S j)) as Hge.
      replace ((walk ws p (num_add f x) (S j)).2 - j)%nat
        with (S ((walk ws p (num_add f x) (S j)).2 - S j)) by lia.
      done.
    + cbn [fst snd]. rewrite Nat.sub_diag, drop_0.
      change (walk (x :: ws) p' f j)
        with (if num_lt f p' then walk ws p' (num_add f x) (S j) else (f, j)).
      done.
Qed.

Lemma owner_comp (xs : list EAIndividual) (c p p' : Q) :
  (p == p')%Q -> owner xs c p = owner xs c p'.
Proof.
  intros Hp. revert c. induction xs as [|x xs IH]; intros c; simpl; [done|].
  unfold Qlt_bool. by rewrite Hp, IH.
Qed.

Lemma owner_none (xs : list EAIndividual) (c p : Q) :
  (p <= c)%Q -> owner xs c p = Undefined.
Proof.
  revert c. induction xs as [|x xs IH]; intros c Hp; simpl; [done|].
  rewrite (proj2 (Qlt_bool_false c p) Hp). simpl. apply IH.
  pose proof (Math_max0_nonneg (fitness x)). lra.
Qed.

Lemma owner_member (xs : list EAIndividual) (c p : Q) :
  (c < p)%Q -> (p <= cumulative xs c)%Q -> member_of xs (owner xs c p).
Proof.
  revert c. induction xs as [|x xs IH]; intros c Hlo Hhi; simpl in *.
  - lra.
  - rewrite (proj2 (Qlt_bool_iff c p) Hlo). simpl.
    destruct (Qle_bool p (c + Math_max0 (fitness x))) eqn:E.
    + exists x. split; [done|]. apply list_elem_of_here.
    + destruct (IH (c + Math_max0 (fitness x))%Q) as (y & Hy & Hin); [|done|].
      * apply Qnot_le_lt. intros H. apply Qle_bool_iff in H. congruence.
      * exists y. split; [done|]. by apply list_elem_of_further.
Qed.

Lemma walk_stop (ws : list number) (p : Q) (f : number) (j : nat) :
  num_lt f p = false -> walk ws p f j = (f, j).
Proof. intros H. destruct ws; simpl; by rewrite H. Qed.

(** The element that the walk selects is the owner of the position. *)
Lemma walk_select_from (pre xs : list EAIndividual) (c p : Q) :
  (c < p)%Q ->
  arr_get (Obj <$> (pre ++ xs))
    (Z.of_nat (walk (weights_of xs) p (Num c) (length pre)).2 - 1)
  = owner xs c p.
Proof.
  revert pre c. induction xs as [|x xs IH]; intros pre c Hc; simpl.
  - rewrite (proj2 (Qlt_bool_iff c p) Hc). simpl.
    rewrite app_nil_r. apply arr_get_outside. lia.
  - rewrite (proj2 (Qlt_bool_iff c p) Hc). simpl.
    destruct (Qle_bool p (c + Math_max0 (fitness x))) eqn:E.
    + apply Qle_bool_iff in E.
      rewrite walk_stop by (by apply Qlt_bool_false). cbn [snd].
      replace (Z.of_nat (S (length pre)) - 1)%Z
        with (Z.of_nat (length pre)) by lia.
      by apply arr_get_Obj, list_lookup_middle.
    + assert (Hlt : (c + Math_max0 (fitness x) < p)%Q).
      { apply Qnot_le_lt. intros H. apply Qle_bool_iff in H. congruence. }
      specialize (IH (pre ++ [x]) _ Hlt).
      rewrite length_app, Nat.add_1_r, <- app_assoc in IH. exact IH.
Qed.

Lemma walk_select (xs : list EAIndividual) (p : Q) :
  arr_get (Obj <$> xs) (Z.of_nat (walk (weights_of xs) p (Num 0) 0).2 - 1)
  = owner xs 0 p.
Proof.
  destruct (Qlt_le_dec 0 p) as [Hp|Hp].
  - apply (walk_select_from [] xs 0 p Hp).
  - rewrite (owner_none _ _ _ Hp).
    rewrite walk_stop by (by apply Qlt_bool_false).
    apply arr_get_outside. simpl. lia.
Qed.

(** ** The loops of the selection methods *)

Lemma world_draws_0 (w : World) : mkWorld (heap w) (oids w) (draws w + 0) = w.
Proof. destruct w. simpl. by rewrite Nat.add_0_r. Qed.

Lemma Qnat_S (i : nat) : (Qnat (S i) == Qnat i + 1)%Q.
Proof.
  unfold Qnat. rewrite Nat2Z.inj_succ. unfold Z.succ.
  by rewrite inject_Z_plus.
Qed.

Lemma Qnat_nonneg (i : nat) : (0 <= Qnat i)%Q.
Proof. unfold Qnat. change 0%Q with (inject_Z 0). rewrite <- Zle_Qle. lia. Qed.

(** The loop of the roulette with replacement: one draw for each parent,
    which is the owner of the position drawn. *)
Lemma roulette_loop_with_replacement random (xs : list EAIndividual)
    (rouletteSize : Q) (k : nat) (vs : jsarray) (w : World) :
  for_range (length vs) k (roulette_step random (Obj <$> xs) false)
    (vs ++ replicate k Hole, weights_of xs, rouletteSize) w
  = Return (vs ++ ((fun i => owner xs 0 (random (draws w + i)%nat * rouletteSize))
                     <$> seq 0 k),
            weights_of xs, rouletteSize)
           (mkWorld (heap w) (oids w) (draws w + k)).
Proof.
  revert vs w. induction k as [|k IH]; intros vs w.
  - simpl. by rewrite !app_nil_r, world_draws_0.
  - cbn [for_range]. rewrite run_bind.
    unfold roulette_step at 1. rewrite run_bind. unfold Math_random at 1.
    destruct (walk (weights_of xs) (random (draws w) * rouletteSize) (Num 0) 0)
      as [f j] eqn:E.
    unfold mret, M_ret.
    rewrite arr_set_next. replace (S k - 1)%nat with k by lia.
    replace (S (length vs)) with (length (vs ++ [arr_get (Obj <$> xs) (Z.of_nat j - 1)]))
      by (rewrite length_app; simpl; lia).
    rewrite IH. cbn [heap oids draws].
    replace j with (walk (weights_of xs) (random (draws w) * rouletteSize) (Num 0) 0).2
      by (by rewrite E).
    rewrite walk_select, <- app_assoc. cbn [seq fmap list_fmap app].
    rewrite Nat.add_0_r, <- fmap_S_seq, <- list_fmap_compose.
    replace (S (draws w) + k)%nat with (draws w + S k)%nat by lia.
    assert (Hl : ((fun i => owner xs 0 (random (S (draws w) + i)%nat * rouletteSize))
                    <$> seq 0 k)
                 = ((fun i => owner xs 0 (random (draws w + i)%nat * rouletteSize)) ∘ S
                    <$> seq 0 k)).
    { apply list_fmap_ext. intros i x _. simpl. do 3 f_equal. lia. }
    by rewrite Hl.
Qed.

Lemma parent_at_key_seq (xs : list EAIndividual) (j : nat) :
  parent_at_key (Obj <$> xs) (seq 0 (length xs)) j
  = arr_get (Obj <$> xs) (Z.of_nat j - 1).
Proof.
  destruct j as [|j]; [done|]. cbn [parent_at_key].
  replace (Z.of_nat (S j) - 1)%Z with (Z.of_nat j) by lia.
  destruct (Nat.lt_ge_cases j (length xs)) as [Hlt|Hge].
  - by rewrite lookup_seq_lt.
  - rewrite lookup_seq_ge by done. symmetry. apply arr_get_outside. lia.
Qed.

Lemma array_keys_Obj (xs : list EAIndividual) :
  array_keys (Obj <$> xs) = seq 0 (length xs).
Proof.
  unfold array_keys.
  assert (H : forall (h : nat -> nat),
    omap (fun '(k, s) => match s with Hole => None | _ => Some k end)
         (imap (fun k s => (h k, s)) (Obj <$> xs))
    = h <$> seq 0 (length xs)).
  { induction xs as [|x xs IH]; intros h; [done|].
    cbn [fmap list_fmap imap omap list_omap length seq].
    f_equal. rewrite <- fmap_S_seq, <- list_fmap_compose.
    apply (IH (h ∘ S)). }
  rewrite <- (list_fmap_id (seq 0 (length xs))). exact (H id).
Qed.

Lemma univerzal_weights (xs : list EAIndividual) :
  (fun k => num_max0 (num_get (weights_of xs) k)) <$> seq 0 (length xs)
  = weights_of xs.
Proof.
  apply list_eq. intros i. rewrite list_lookup_fmap.
  destruct (Nat.lt_ge_cases i (length xs)) as [Hlt|Hge].
  - rewrite lookup_seq_lt by done. simpl.
    unfold num_get, weights_of. rewrite list_lookup_fmap.
    destruct (lookup_lt_is_Some_2 xs i Hlt) as [x Hx]. rewrite Hx. simpl.
    by rewrite Math_max0_idem.
  - rewrite lookup_seq_ge by done. symmetry. apply lookup_ge_None_2.
    unfold weights_of. by rewrite length_fmap.
Qed.

(** The loop of the ['univerzal'] method: the walk goes on from one pointer
    to the next, and every pointer gets its owner. *)
Lemma univerzal_loop (xs : list EAIndividual) (pointerStep : Q) (k : nat)
    (vs : jsarray) (f : number) (j : nat) (pos : Q) (w : World) :
  (0 <= pointerStep)%Q ->
  (forall p', (pos <= p')%Q ->
     walk (drop j (weights_of xs)) p' f j = walk (weights_of xs) p' (Num 0) 0) ->
  exists f' j' pos',
    for_range (length vs) k
      (univerzal_step (Obj <$> xs) (seq 0 (length xs)) (weights_of xs) pointerStep)
      (vs ++ replicate k Hole, f, j, pos) w
    = Return (vs ++ ((fun i => owner xs 0 (pos + Qnat i * pointerStep)) <$> seq 0 k),
              f', j', pos') w.
Proof.
  intros Hstep. revert vs f j pos.
  induction k as [|k IH]; intros vs f j pos Hinv.
  - exists f, j, pos. simpl. by rewrite !app_nil_r.
  - cbn [for_range]. rewrite run_bind.
    unfold univerzal_step at 1.
    rewrite (Hinv pos) by apply Qle_refl.
    destruct (walk (weights_of xs) pos (Num 0) 0) as [f1 j1] eqn:E.
    unfold mret, M_ret.
    rewrite arr_set_next. replace (S k - 1)%nat with k by lia.
    replace (S (length vs))
      with (length (vs ++ [parent_at_key (Obj <$> xs) (seq 0 (length xs)) j1]))
      by (rewrite length_app; simpl; lia).
    destruct (IH (vs ++ [parent_at_key (Obj <$> xs) (seq 0 (length xs)) j1])
                 f1 j1 (pos + pointerStep)%Q) as (f' & j' & pos' & Hrun).
    { intros p' Hp'.
      pose proof (walk_resume (weights_of xs) pos p' (Num 0) 0) as Hres.
      rewrite E in Hres. cbn [fst snd] in Hres.
      rewrite Nat.sub_0_r in Hres. apply Hres. lra. }
    exists f', j', pos'. rewrite Hrun.
    rewrite parent_at_key_seq.
    replace j1 with (walk (weights_of xs) pos (Num 0) 0).2 by (by rewrite E).
    rewrite walk_select, <- app_assoc. cbn [seq fmap list_fmap app].
    rewrite (owner_comp xs 0 pos (pos + Qnat 0 * pointerStep))
      by (change (Qnat 0) with 0%Q; lra).
    rewrite <- fmap_S_seq, <- list_fmap_compose.
    assert (Hl : ((fun i => owner xs 0 (pos + pointerStep + Qnat i * pointerStep))
                    <$> seq 0 k)
                 = ((fun i => owner xs 0 (pos + Qnat i * pointerStep)) ∘ S
                    <$> seq 0 k)).
    { apply list_fmap_ext. intros i x _. simpl.
      apply owner_comp. rewrite Qnat_S. lra. }
    by rewrite Hl.
Qed.

Lemma floor_index (r : Q) (n : nat) :
  (0 <= r)%Q -> (r < 1)%Q -> (0 < n)%nat ->
  (0 <= Math_floor (r * Qnat n) < Z.of_nat n)%Z.
Proof.
  intros H0 H1 Hn. unfold Math_floor.
  assert (Hpos : (0 < Qnat n)%Q).
  { unfold Qnat. change 0%Q with (inject_Z 0). rewrite <- Zlt_Qlt. lia. }
  split.
  - rewrite <- (Qfloor_Z 0). apply Qfloor_resp_le. change (inject_Z 0) with 0%Q. nra.
  - rewrite Zlt_Qlt. eapply Qle_lt_trans; [apply Qfloor_le|].
    fold (Qnat n). nra.
Qed.

(** The loop of the random selection: every parent is an individual of a
    non-empty population. *)
Lemma random_loop random (xs : list EAIndividual) (k : nat) (vs : jsarray)
    (w : World) :
  unit_range random -> xs <> [] ->
  exists ys,
    for_range (length vs) k
      (fun i parents =>
         r ← Math_random random;
         mret (arr_set parents i
                 (arr_get (Obj <$> xs) (Math_floor (r * Qnat (length (Obj <$> xs)))))))
      (vs ++ replicate k Hole) w
    = Return (vs ++ (Obj <$> ys)) (mkWorld (heap w) (oids w) (draws w + k))
    /\ length ys = k /\ ys ⊆ xs.
Proof.
  intros Hr Hne. revert vs w. induction k as [|k IH]; intros vs w.
  - exists []. simpl. rewrite !app_nil_r, world_draws_0.
    split; [done|]. split; [done|]. intros y Hy. by apply elem_of_nil in Hy.
  - cbn [for_range]. rewrite run_bind, run_bind. unfold Math_random at 1.
    unfold mret at 1, M_ret at 1.
    rewrite arr_set_next. replace (S k - 1)%nat with k by lia.
    rewrite length_fmap.
    destruct (Hr (draws w)) as [H0 H1].
    assert (Hlen : (0 < length xs)%nat) by (destruct xs; [done|simpl; lia]).
    pose proof (floor_index _ _ H0 H1 Hlen) as Hidx.
    destruct (lookup_lt_is_Some_2 xs
                (Z.to_nat (Math_floor (random (draws w) * Qnat (length xs)))))
      as [x Hx]; [lia|].
    rewrite <- (Z2Nat.id (Math_floor _)) by lia.
    rewrite (arr_get_Obj _ _ _ Hx).
    replace (S (length vs)) with (length (vs ++ [Obj x]))
      by (rewrite length_app; simpl; lia).
    destruct (IH (vs ++ [Obj x]) (mkWorld (heap w) (oids w) (S (draws w))))
      as (ys & Hrun & Hlenys & Hsub).
    rewrite length_fmap in Hrun. rewrite Hrun.
    exists (x :: ys). cbn [heap oids draws]. split; [|split].
    + rewrite <- app_assoc. do 2 f_equal. lia.
    + simpl. lia.
    + intros y Hy. apply elem_of_cons in Hy as [->|Hy]; [|by apply Hsub].
      by eapply list_elem_of_lookup_2.
Qed.

(** ** The roulette methods as a whole *)

Lemma Qeq_bool_false (x y : Q) : ~ (x == y)%Q -> Qeq_bool x y = false.
Proof.
  intros H. destruct (Qeq_bool x y) eqn:E; [|done].
  by apply Qeq_bool_iff in E.
Qed.

Lemma Qeq_bool_true (x y : Q) : (x == y)%Q -> Qeq_bool x y = true.
Proof. apply Qeq_bool_iff. Qed.

Lemma total_fitness_nonneg (xs : list EAIndividual) : (0 <= total_fitness xs)%Q.
Proof. apply cumulative_ge. Qed.

Lemma pointerStep_nonneg (xs : list EAIndividual) (n : nat) :
  (0 <= total_fitness xs / Qnat n)%Q.
Proof.
  unfold Qdiv. apply Qmult_le_0_compat; [apply total_fitness_nonneg|].
  apply Qinv_le_0_compat, Qnat_nonneg.
Qed.

Lemma for_range_from_0 {St} (k : nat) (body : nat -> St -> M St) (s : St) :
  for_range 0 k body s = for_range (length (@nil slot)) k body s.
Proof. reflexivity. Qed.

(** The methods that select with replacement (the default, and every name
    that is not one of the others): [n] draws, each parent the owner of
    the position drawn. *)
Lemma getParentsFromRoulette_with_replacement random (a : addr) (method : string)
    (n : nat) (shuffleOrder : bool) (w : World) (xs : list EAIndividual) :
  heap w !! a = Some (Obj <$> xs) ->
  String.eqb method "univerzal" = false ->
  is_remainder method = false ->
  is_without method = false ->
  (0 < total_fitness xs)%Q ->
  getParentsFromRoulette random a method n shuffleOrder w
  = Return (length (heap w))
      (mkWorld
         (heap w ++ [(fun i => owner xs 0 (random (draws w + i)%nat * total_fitness xs))
                       <$> seq 0 n])
         (oids w) (draws w + n)).
Proof.
  intros Ha Hu Hr Hw Hpos. unfold getParentsFromRoulette.
  rewrite run_bind, (run_read _ _ _ Ha), run_bind, map_fitness_Obj.
  rewrite Hu, Hr, Hw, roulette_size_cumulative.
  rewrite Qeq_bool_false by (intros H; rewrite H in Hpos; by apply Qlt_irrefl in Hpos).
  rewrite run_bind, for_range_from_0.
  change (new_Array n) with ([] ++ replicate n Hole).
  by rewrite roulette_loop_with_replacement.
Qed.

(** Without any positive fitness, every method but the remainder ones
    returns an empty array. *)
Lemma getParentsFromRoulette_nothing random (a : addr) (method : string)
    (n : nat) (w : World) (xs : list EAIndividual) :
  heap w !! a = Some (Obj <$> xs) ->
  is_remainder method = false ->
  (total_fitness xs == 0)%Q ->
  getParentsFromRoulette random a method n false w
  = Return (length (heap w)) (mkWorld (heap w ++ [[]]) (oids w) (draws w)).
Proof.
  intros Ha Hr Hzero. unfold getParentsFromRoulette.
  rewrite run_bind, (run_read _ _ _ Ha), run_bind, map_fitness_Obj.
  rewrite Hr, roulette_size_cumulative, (Qeq_bool_true _ _ Hzero).
  by destruct (String.eqb method "univerzal").
Qed.

Lemma copies_fill (x : EAIndividual) (k s i m : nat) (vs : jsarray) :
  (i + s = length vs)%nat ->
  foldl (fun p j => arr_set p (i + j) (Obj x)) (vs ++ replicate m Hole) (seq s k)
  = (vs ++ replicate k (Obj x)) ++ replicate (m - k) Hole.
Proof.
  revert s m vs. induction k as [|k IH]; intros s m vs Hi; simpl.
  - by rewrite app_nil_r, Nat.sub_0_r.
  - rewrite Hi, arr_set_next, (IH (S s) (m - 1)%nat (vs ++ [Obj x])).
    + replace (m - 1 - k)%nat with (m - S k)%nat by lia.
      by rewrite <- !app_assoc.
    + rewrite length_app. simpl. lia.
Qed.

Lemma whole_copies_Obj (xs : list EAIndividual) (m : nat) (vs : jsarray) :
  whole_copies (Obj <$> xs) (vs ++ replicate m Hole) (length vs)
  = ((vs ++ (Obj <$> deterministic_copies xs))
       ++ replicate (m - length (deterministic_copies xs)) Hole,
     (length vs + length (deterministic_copies xs))%nat).
Proof.
  unfold whole_copies. revert m vs.
  induction xs as [|x xs IH]; intros m vs.
  - simpl. by rewrite app_nil_r, Nat.sub_0_r, Nat.add_0_r.
  - cbn [fmap list_fmap foldl].
    rewrite (copies_fill x (whole_part x) 0 (length vs) m vs) by lia.
    replace (length vs + whole_part x)%nat
      with (length (vs ++ replicate (whole_part x) (Obj x)))
      by (by rewrite length_app, length_replicate).
    rewrite (IH (m - whole_part x)%nat (vs ++ replicate (whole_part x) (Obj x))).
    unfold deterministic_copies. rewrite bind_cons, fmap_app, fmap_replicate.
    rewrite !length_app, !length_replicate, <- !app_assoc.
    replace (m - whole_part x - length (xs ≫= λ x0, replicate (whole_part x0) x0))%nat
      with (m - (whole_part x + length (xs ≫= λ x0, replicate (whole_part x0) x0)))%nat
      by lia.
    by rewrite Nat.add_assoc.
Qed.

Lemma remainder_size_zero (xs : list EAIndividual) :
  Forall (fun x => (mod1 (Math_max0 (fitness x)) == 0)%Q) xs ->
  (roulette_size (fun f => mod1 (Math_max0 f)) (Obj <$> xs) == 0)%Q.
Proof.
  intros H. unfold roulette_size. generalize 0%Q.
  induction H as [|x xs Hx _ IH]; intros c; simpl; [reflexivity|].
  rewrite IH, Hx. lra.
Qed.

(** The remainder methods when no fitness has a fractional part: the
    copies given by the whole parts, and holes up to the length [n]. *)
Lemma getParentsFromRoulette_remainder random (a : addr) (method : string)
    (n : nat) (shuffleOrder : bool) (w : World) (xs : list EAIndividual) :
  heap w !! a = Some (Obj <$> xs) ->
  is_remainder method = true ->
  Forall (fun x => (mod1 (Math_max0 (fitness x)) == 0)%Q) xs ->
  getParentsFromRoulette random a method n shuffleOrder w
  = Return (length (heap w))
      (mkWorld
         (heap w ++ [(Obj <$> deterministic_copies xs)
                       ++ replicate (n - length (deterministic_copies xs)) Hole])
         (oids w) (draws w)).
Proof.
  intros Ha Hr Hzero. unfold getParentsFromRoulette.
  rewrite run_bind, (run_read _ _ _ Ha), run_bind, map_fitness_Obj.
  assert (Hu : String.eqb method "univerzal" = false).
  { unfold is_remainder in Hr. apply orb_true_iff in Hr as [H|H];
      apply String.eqb_eq in H; by subst. }
  rewrite Hu, Hr.
  change (new_Array n) with ([] ++ replicate n Hole).
  change 0%nat with (length (@nil slot)) at 1.
  rewrite whole_copies_Obj.
  by rewrite (Qeq_bool_true _ _ (remainder_size_zero xs Hzero)).
Qed.

Lemma getRandomParents_members random (a : addr) (n : nat) (w : World)
    (xs : list EAIndividual) :
  unit_range random ->
  heap w !! a = Some (Obj <$> xs) ->
  xs <> [] ->
  exists ys,
    getRandomParents random a n w
    = Return (length (heap w))
        (mkWorld (heap w ++ [Obj <$> ys]) (oids w) (draws w + n))
    /\ length ys = n /\ ys ⊆ xs.
Proof.
  intros Hr Ha Hne. unfold getRandomParents.
  rewrite run_bind, (run_read _ _ _ Ha), run_bind.
  destruct (random_loop random xs n [] w Hr Hne) as (ys & Hrun & Hlen & Hsub).
  change (new_Array n) with ([] ++ replicate n Hole).
  rewrite for_range_from_0, Hrun. by exists ys.
Qed.

(** ** Stochastic universal sampling *)

Lemma getParentsFromRoulette_univerzal random (a : addr) (n : nat) (w : World)
    (xs : list EAIndividual) :
  heap w !! a = Some (Obj <$> xs) ->
  (0 < total_fitness xs)%Q ->
  getParentsFromRoulette random a "univerzal" n false w
  = Return (length (heap w))
      (mkWorld (heap w ++ [universal_sampling xs n (random (draws w))])
               (oids w) (S (draws w))).
Proof.
  intros Ha Hpos. unfold getParentsFromRoulette.
  rewrite run_bind, (run_read _ _ _ Ha), run_bind, map_fitness_Obj.
  eval_method. rewrite run_bind. unfold mret at 1, M_ret at 1.
  rewrite array_keys_Obj, roulette_size_cumulative.
  rewrite Qeq_bool_false by (intros H; rewrite H in Hpos; by apply Qlt_irrefl in Hpos).
  rewrite run_bind. unfold Math_random at 1.
  rewrite univerzal_weights, run_bind, for_range_from_0.
  change (new_Array n) with ([] ++ replicate n Hole).
  destruct (univerzal_loop xs (total_fitness xs / Qnat n) n [] (Num 0) 0
              (random (draws w) * (total_fitness xs / Qnat n))
              (mkWorld (heap w) (oids w) (S (draws w))))
    as (f' & j' & pos' & Hrun).
  { apply pointerStep_nonneg. }
  { intros p' _. by rewrite drop_0. }
  by rewrite Hrun.
Qed.

Lemma Qnat_lt (i n : nat) : (i < n)%nat -> (Qnat i + 1 <= Qnat n)%Q.
Proof.
  intros H. unfold Qnat. change 1%Q with (inject_Z 1).
  rewrite <- inject_Z_plus, <- Zle_Qle. lia.
Qed.

Lemma pointerStep_times (t : Q) (n : nat) :
  (0 < n)%nat -> (t / Qnat n * Qnat n == t)%Q.
Proof.
  intros Hn. field. intros H.
  pose proof (Qnat_lt 0 n Hn) as Hlt. change (Qnat 0) with 0%Q in Hlt.
  rewrite H in Hlt. lra.
Qed.

(** With a start offset that is not 0, every pointer has an owner in the
    population. *)
Lemma universal_sampling_members (xs : list EAIndividual) (n : nat) (r : Q) :
  (0 < r)%Q -> (r < 1)%Q -> (0 < total_fitness xs)%Q ->
  Forall (member_of xs) (universal_sampling xs n r).
Proof.
  intros H0 H1 Hpos. unfold universal_sampling.
  apply Forall_fmap, Forall_forall. intros i Hi.
  apply elem_of_seq in Hi as [_ Hi]. simpl in Hi.
  assert (Hn : (0 < n)%nat) by lia.
  pose proof (pointerStep_times (total_fitness xs) n Hn) as Hs.
  pose proof (Qnat_lt i n Hi) as Hin.
  pose proof (Qnat_nonneg i) as Hi0.
  set (s := (total_fitness xs / Qnat n)%Q) in *.
  assert (Hspos : (0 < s)%Q).
  { apply Qlt_shift_div_l; [|lra].
    pose proof (Qnat_lt 0 n Hn) as Hlt. change (Qnat 0) with 0%Q in Hlt. lra. }
  simpl. apply owner_member.
  - nra.
  - rewrite <- total_fitness_cumulative. nra.
Qed.

Lemma start_offset_range (r t : Q) (n : nat) :
  (0 <= r)%Q -> (r < 1)%Q -> (0 < t)%Q -> (0 < n)%nat ->
  (0 <= r * (t / Qnat n))%Q /\ (r * (t / Qnat n) < t / Qnat n)%Q.
Proof.
  intros H0 H1 Ht Hn.
  assert (Hspos : (0 < t / Qnat n)%Q).
  { apply Qlt_shift_div_l; [|lra].
    pose proof (Qnat_lt 0 n Hn) as Hlt. change (Qnat 0) with 0%Q in Hlt. lra. }
  split; nra.
Qed.


(** With [shuffleOrder] set, the shuffle of the keys takes one more draw for
    every individual, and the pointers run over the shuffled order. *)
Example univerzal_shuffle_draws :
  exists a w',
    getParents (replay [1 # 2; 1 # 4; 3 # 4]%Q) (mkPopulation real_x 0)
      "roulette" 2
      (Some (mkOptions (Some "univerzal"%string) true None None None None None
                       None None None))
      (mkWorld [[Obj weak; Obj strong]] 4 0)
    = Return a w'
    /\ heap w' !! a = Some [Obj strong; Obj weak]
    /\ draws w' = 3%nat.
Proof.
  do 2 eexists. split; [vm_compute; reflexivity|]. split; reflexivity.
Qed.

(** ** How many parents, and from where *)

Lemma roulette_with_replacement_members random (xs : list EAIndividual)
    (n d : nat) :
  unit_range random -> (forall k, (0 < random k)%Q) ->
  (0 < total_fitness xs)%Q ->
  Forall (member_of xs)
    ((fun i => owner xs 0 (random (d + i)%nat * total_fitness xs)) <$> seq 0 n).
Proof.
  intros Hr Hr0 Hpos. apply Forall_fmap, Forall_forall. intros i _. simpl.
  destruct (Hr (d + i)%nat) as [_ H1]. specialize (Hr0 (d + i)%nat).
  apply owner_member.
  - nra.
  - rewrite <- total_fitness_cumulative. nra.
Qed.

(** C4 (counterexample).  One individual of fitness 1 and [n = 3] with a
    remainder method: the total fitness is positive, and the result is
    neither three individuals nor empty, but one individual and two holes. *)
Lemma remainder_roulette_leaves_holes :
  exists a w',
    getParents (replay []) (mkPopulation real_x 0) "roulette" 3
      (roulette_options "remainder_with_replacement") (mkWorld [[Obj weak]] 4 0)
    = Return a w'
    /\ heap w' !! a = Some [Obj weak; Hole; Hole]
    /\ (0 < total_fitness [weak])%Q.
Proof.
  do 2 eexists. split; [vm_compute; reflexivity|].
  split; reflexivity.
Qed.

(** A remainder method can also return more than [n] elements: the three
    copies of an individual of fitness 3 for [n = 1]. *)
Example remainder_roulette_more_than_n :
  exists a w',
    getParents (replay []) (mkPopulation real_x 0) "roulette" 1
      (roulette_options "remainder_without_replacement") (mkWorld [[Obj strong]] 4 0)
    = Return a w'
    /\ heap w' !! a = Some [Obj strong; Obj strong; Obj strong].
Proof.
  do 2 eexists. split; [vm_compute; reflexivity|]. reflexivity.
Qed.

(** ['random'] on an empty population reads [individuals[0]], which is
    [undefined]. *)
Example random_parents_of_empty_population :
  exists a w',
    getParents (replay [1 # 2; 1 # 4]%Q) (mkPopulation real_x 0) "random" 2 None
      (mkWorld [[]] 4 0)
    = Return a w'
    /\ heap w' !! a = Some [Undefined; Undefined].
Proof.
  do 2 eexists. split; [vm_compute; reflexivity|]. reflexivity.
Qed.

(** A draw of exactly 0 puts the roulette position at 0, where the walk
    does not start: the parent is [individuals[-1]], which is [undefined]. *)
Example roulette_draw_zero :
  exists a w',
    getParents (replay [0; 1 # 4]%Q) (mkPopulation real_x 0) "roulette" 2
      (roulette_options "with_replacement") (mkWorld [[Obj weak; Obj strong]] 4 0)
    = Return a w'
    /\ heap w' !! a = Some [Undefined; Obj weak].
Proof.
  do 2 eexists. split; [vm_compute; reflexivity|]. reflexivity.
Qed.

(** The roulette without replacement can leave an [undefined] element even
    with ordinary draws: one individual of fitness 1 and [n = 2]; after the
    first draw the roulette size is 0 and the second position is 0. *)
Example without_replacement_undefined :
  exists a w',
    getParents (replay [1 # 2; 1 # 2]%Q) (mkPopulation real_x 0) "roulette" 2
      (roulette_options "without_replacement") (mkWorld [[Obj weak]] 4 0)
    = Return a w'
    /\ heap w' !! a = Some [Obj weak; Undefined].
Proof.
  do 2 eexists. split; [vm_compute; reflexivity|]. reflexivity.
Qed.

Lemma universal_sampling_length (xs : list EAIndividual) (n : nat) (r : Q) :
  length (universal_sampling xs n r) = n.
Proof. unfold universal_sampling. by rewrite length_fmap, length_seq. Qed.

(** ** One child for every parent *)

Lemma succeeds_ret {A} (a : A) : succeeds (mret a).
Proof. intros w. by exists a, w. Qed.

Lemma succeeds_bind {A B} (m : M A) (f : A -> M B) :
  succeeds m -> (forall a, succeeds (f a)) -> succeeds (m ≫= f).
Proof.
  intros Hm Hf w. destruct (Hm w) as (a & w1 & Hrun & Hh).
  destruct (Hf a w1) as (b & w2 & Hrun2 & Hh2).
  exists b, w2. rewrite run_bind, Hrun, Hrun2. split; [done|congruence].
Qed.

Lemma succeeds_Math_random random : succeeds (Math_random random).
Proof. intros w. by do 2 eexists. Qed.

Lemma succeeds_fresh_oid : succeeds fresh_oid.
Proof. intros w. by do 2 eexists. Qed.

#[export] Hint Resolve succeeds_ret succeeds_Math_random succeeds_fresh_oid : frame.

(** Decomposition of a computation that cannot fail. *)
Ltac returns :=
  repeat match goal with
         | |- succeeds (_ ≫= _) => apply succeeds_bind; [|intros ?]
         | |- succeeds (match ?x with _ => _ end) => destruct x
         | |- succeeds _ => solve [auto with frame]
         end.

Lemma succeeds_mutated_positions random len n :
  succeeds (mutated_positions random len n).
Proof. induction n as [|n IH]; simpl; returns. Qed.

Lemma succeeds_fresh_values random this k : succeeds (fresh_values random this k).
Proof. induction k as [|k IH]; simpl; returns. Qed.

Lemma succeeds_uniform_value random this : succeeds (uniform_value random this).
Proof. unfold uniform_value. returns. Qed.

#[export] Hint Resolve succeeds_mutated_positions succeeds_fresh_values
  succeeds_uniform_value : frame.

Lemma succeeds_generateFunction random this method options data variable k :
  succeeds (generateFunction random this method options data variable k).
Proof.
  unfold generateFunction, generate_copy, generate_mutated, mutation_value.
  destruct (is_structural method); returns.
Qed.

Lemma succeeds_EAIndividual_fill g vars v o :
  (forall variable k, succeeds (g variable k)) ->
  succeeds (EAIndividual_fill g vars v o).
Proof.
  intros Hg. revert v o. induction vars as [|x vars IH]; intros v o; simpl; returns.
Qed.

Lemma succeeds_new_EAIndividual vars g f :
  (forall variable k, succeeds (g variable k)) ->
  succeeds (new_EAIndividual vars g f).
Proof.
  intros Hg. unfold new_EAIndividual. returns.
  by apply succeeds_EAIndividual_fill.
Qed.

Lemma succeeds_getVariables random this (ps : list EAIndividual) method options i :
  (i < length ps)%nat ->
  succeeds (getVariables random this (Obj <$> ps) method options i).
Proof.
  intros Hi. destruct (lookup_lt_is_Some_2 ps i Hi) as [x Hx].
  unfold getVariables, parent_of, round_random.
  rewrite (arr_get_Obj _ _ _ Hx). returns.
Qed.

Lemma variation_loop random this (ps : list EAIndividual) method options
    (k : nat) (vs : jsarray) (w : World) :
  (length vs + k <= length ps)%nat ->
  exists children w',
    for_range (length vs) k
      (fun i children =>
         '(vars, data) ← getVariables random this (Obj <$> ps) method options i;
         child ← new_EAIndividual vars
                   (generateFunction random this method options data)
                   (fitnessFunction this);
         mret (arr_set children i (Obj child)))
      (vs ++ replicate k Hole) w
    = Return (vs ++ (Obj <$> children)) w'
    /\ heap w' = heap w /\ length children = k.
Proof.
  revert vs w. induction k as [|k IH]; intros vs w Hk.
  - exists [], w. simpl. by rewrite !app_nil_r.
  - cbn [for_range]. rewrite !run_bind.
    destruct (succeeds_getVariables random this ps method options (length vs)
                ltac:(lia) w) as ([vars data] & w1 & Hrun1 & Hh1).
    rewrite Hrun1. rewrite run_bind.
    destruct (succeeds_new_EAIndividual vars
                (generateFunction random this method options data)
                (fitnessFunction this)
                (succeeds_generateFunction random this method options data) w1)
      as (child & w2 & Hrun2 & Hh2).
    rewrite Hrun2. unfold mret at 1, M_ret at 1.
    rewrite arr_set_next. replace (S k - 1)%nat with k by lia.
    replace (S (length vs)) with (length (vs ++ [Obj child]))
      by (rewrite length_app; simpl; lia).
    destruct (IH (vs ++ [Obj child]) w2) as (children & w' & Hrun & Hh & Hlen).
    { rewrite length_app. simpl. lia. }
    exists (child :: children), w'. rewrite Hrun, <- app_assoc.
    split; [done|]. split; [congruence|simpl; lia].
Qed.

(** On a non-empty array of individuals, every method of
    [applyGeneticOperators] returns a new array with one child for every
    parent. *)
Lemma applyGeneticOperators_children_count random (this : EAPopulation)
    (parents : addr) (method : string) (options : option Options) (w : World)
    (ps : list EAIndividual) :
  heap w !! parents = Some (Obj <$> ps) ->
  ps <> [] ->
  exists children w',
    applyGeneticOperators random this (Some parents) method options w
    = Return (length (heap w)) w'
    /\ heap w' = heap w ++ [Obj <$> children]
    /\ length children = length ps.
Proof.
  intros Hp Hne. unfold applyGeneticOperators.
  rewrite run_bind, (run_read _ _ _ Hp), length_fmap.
  destruct ps as [|p ps']; [done|]. set (ps := p :: ps') in *.
  change (length ps =? 0)%nat with false. cbv iota.
  rewrite run_bind.
  destruct (variation_loop random (algorithm this) ps method options
              (length ps) [] w ltac:(simpl; lia))
    as (children & w' & Hrun & Hh & Hlen).
  change (new_Array (length ps)) with ([] ++ replicate (length ps) Hole).
  rewrite for_range_from_0, Hrun.
  exists children, (mkWorld (heap w' ++ [Obj <$> children]) (oids w') (draws w')).
  split; [unfold alloc; by rewrite Hh|]. split; [simpl; by rewrite Hh|done].
Qed.

(** * Further properties of the code *)

(** ** Selection of the best *)

Lemma run_alloc (l : jsarray) (w : World) :
  alloc l w = Return (length (heap w)) (mkWorld (heap w ++ [l]) (oids w) (draws w)).
Proof. reflexivity. Qed.

Lemma take_sorted_best (n : nat) (xs : list EAIndividual) :
  forall y z, y ∈ take n (sort_by_fitness xs) -> z ∈ drop n (sort_by_fitness xs) ->
              fitter y z.
Proof.
  intros y z Hy Hz.
  pose proof (sort_by_fitness_sorted xs) as Hs.
  rewrite <- (take_drop n (sort_by_fitness xs)) in Hs.
  by eapply StronglySorted_app_1_elem_of.
Qed.

(** X1.  ['best'] on a population of individuals returns, in a new array
    and without any random draw, the first [n] individuals of the
    population sorted by non-increasing fitness: [min(n, count)] of them,
    every one at least as fit as every individual left out; the stored
    array stays as it was. *)
Theorem getParents_best
    (random : nat -> Q) (this : EAPopulation) (n : nat)
    (options : option Options) (w : World) (xs : list EAIndividual) :
  heap w !! individuals this = Some (Obj <$> xs) ->
  exists best rest,
    getParents random this "best" n options w
    = Return (length (heap w))
        (mkWorld (heap w ++ [Obj <$> best]) (oids w) (draws w))
    /\ xs ≡ₚ best ++ rest
    /\ length best = (n `min` length xs)%nat
    /\ StronglySorted fitter best
    /\ (forall y z, y ∈ best -> z ∈ rest -> (fitness z <= fitness y)%Q).
Proof.
  intros Ha.
  exists (take n (sort_by_fitness xs)), (drop n (sort_by_fitness xs)).
  split; [|split; [|split; [|split]]].
  - unfold getParents. eval_method. unfold getBestParents.
    rewrite run_bind, (run_read _ _ _ Ha), Array_slice_full, Array_sort_Obj,
      Array_slice_take, fmap_take.
    apply run_alloc.
  - by rewrite take_drop, sort_by_fitness_Permutation.
  - by rewrite length_take, (Permutation_length (sort_by_fitness_Permutation _)).
  - apply StronglySorted_take, sort_by_fitness_sorted.
  - apply take_sorted_best.
Qed.

Lemma getParents_best_witness :
  heap (mkWorld [[Obj weak; Obj strong; Obj middle]] 4 0)
    !! individuals (mkPopulation real_x 0)
  = Some (Obj <$> [weak; strong; middle])
  /\ exists best rest,
       getParents (replay []) (mkPopulation real_x 0) "best" 2 None
         (mkWorld [[Obj weak; Obj strong; Obj middle]] 4 0)
       = Return 1 (mkWorld [[Obj weak; Obj strong; Obj middle]; Obj <$> best] 4 0)
       /\ [weak; strong; middle] ≡ₚ best ++ rest
       /\ length best = 2%nat.
Proof.
  split; [reflexivity|].
  destruct (getParents_best (replay []) (mkPopulation real_x 0) 2 None
              (mkWorld [[Obj weak; Obj strong; Obj middle]] 4 0)
              [weak; strong; middle] eq_refl)
    as (best & rest & Hrun & Hperm & Hlen & _).
  exists best, rest. split; [exact Hrun|]. split; [exact Hperm|exact Hlen].
Defined.

(** ** Replacement: the comma strategy and the separate competition *)

Lemma run_sort_in_place (a : addr) (w : World) (l : jsarray) :
  heap w !! a = Some l ->
  sort_in_place a w
  = Return tt (mkWorld (<[a := Array_sort l]> (heap w)) (oids w) (draws w)).
Proof.
  intros Ha. unfold sort_in_place. by rewrite run_bind, (run_read _ _ _ Ha).
Qed.

(** X2.  The comma strategy ignores the parents: it sorts the array of
    children in place and stores, in a new array, the first
    [newGenerationSize] children in non-increasing order of fitness (the
    option, or the old population size when it is left out or 0), each at
    least as fit as every child left out. *)
Theorem replacement_comma_strategy
    (this : EAPopulation) (parents children : addr) (options : option Options)
    (w : World) (inds : jsarray) (cs : list EAIndividual) :
  heap w !! individuals this = Some inds ->
  heap w !! children = Some (Obj <$> cs) ->
  exists kept dropped,
    replacement this parents children "comma_strategy" options w
    = Return (mkPopulation (algorithm this) (length (heap w)))
        (mkWorld (<[children := Obj <$> sort_by_fitness cs]> (heap w)
                    ++ [Obj <$> kept])
                 (oids w) (draws w))
    /\ cs ≡ₚ kept ++ dropped
    /\ length kept = (option_or options newGenerationSize (length inds)
                      `min` length cs)%nat
    /\ StronglySorted fitter kept
    /\ (forall y z, y ∈ kept -> z ∈ dropped -> (fitness z <= fitness y)%Q).
Proof.
  intros Hi Hc.
  set (size := option_or options newGenerationSize (length inds)).
  exists (take size (sort_by_fitness cs)), (drop size (sort_by_fitness cs)).
  split; [|split; [|split; [|split]]].
  - unfold replacement.
    rewrite run_bind, (run_read _ _ _ Hi). eval_method.
    rewrite run_bind, (run_sort_in_place _ _ _ Hc), Array_sort_Obj.
    rewrite run_bind.
    rewrite (run_read children _ (Obj <$> sort_by_fitness cs)).
    2:{ simpl. apply list_lookup_insert_eq. by eapply lookup_lt_Some. }
    rewrite run_bind, run_alloc. cbn [heap oids draws].
    by rewrite Array_slice_take, fmap_take, length_insert.
  - by rewrite take_drop, sort_by_fitness_Permutation.
  - by rewrite length_take, (Permutation_length (sort_by_fitness_Permutation _)).
  - apply StronglySorted_take, sort_by_fitness_sorted.
  - apply take_sorted_best.
Qed.

Lemma replacement_comma_strategy_witness :
  heap (mkWorld [[Obj weak; Obj strong]; []; [Obj weak; Obj middle; Obj strong]] 4 0)
    !! 2%nat = Some (Obj <$> [weak; middle; strong])
  /\ exists kept dropped,
       replacement (mkPopulation real_x 0) 1 2 "comma_strategy" None
         (mkWorld [[Obj weak; Obj strong]; []; [Obj weak; Obj middle; Obj strong]] 4 0)
       = Return (mkPopulation real_x 3)
           (mkWorld [[Obj weak; Obj strong]; [];
                     [Obj strong; Obj middle; Obj weak]; Obj <$> kept] 4 0)
       /\ [weak; middle; strong] ≡ₚ kept ++ dropped
       /\ length kept = 2%nat.
Proof.
  split; [reflexivity|].
  destruct (replacement_comma_strategy (mkPopulation real_x 0) 1 2 None
              (mkWorld [[Obj weak; Obj strong]; []; [Obj weak; Obj middle; Obj strong]] 4 0)
              [Obj weak; Obj strong] [weak; middle; strong] eq_refl eq_refl)
    as (kept & dropped & Hrun & Hperm & Hlen & _).
  exists kept, dropped. split; [exact Hrun|]. split; [exact Hperm|exact Hlen].
Defined.

Lemma Array_slice_drop_last {A} (l : list A) (k : nat) :
  (0 < k)%nat ->
  Array_slice l 0 (- Z.of_nat k) = take (length l - k) l.
Proof.
  intros Hk. unfold Array_slice, rel_index.
  change (0 <? 0)%Z with false. cbv iota.
  rewrite (Z.min_l 0) by lia.
  destruct (Z.ltb_spec (- Z.of_nat k) 0) as [_|?]; [|lia].
  rewrite Z.sub_0_r. change (Z.to_nat 0) with 0%nat. rewrite drop_0.
  f_equal. lia.
Qed.

(** X3.  The separate competition sorts both arrays in place and stores
    the best parents followed by the best [generationGap] children.  With
    a gap of at most the old population size [len], [len - generationGap]
    parents are kept (all of the old size, and no child, for the default
    gap 0); with a larger gap the difference is negative and
    [slice(0, len - generationGap)] counts from the end, so all parents
    but the [generationGap - len] least fit ones are kept. *)
Theorem replacement_separate_competition
    (this : EAPopulation) (parents children : addr) (options : option Options)
    (w : World) (inds : jsarray) (ps cs : list EAIndividual) :
  heap w !! individuals this = Some inds ->
  heap w !! parents = Some (Obj <$> ps) ->
  heap w !! children = Some (Obj <$> cs) ->
  parents <> children ->
  let gap := option_or options generationGap 0 in
  let kept_parents :=
    if (gap <=? length inds)%nat then (length inds - gap)%nat
    else (length ps - (gap - length inds))%nat in
  replacement this parents children "separate_competition" options w
  = Return (mkPopulation (algorithm this) (length (heap w)))
      (mkWorld
         (<[children := Obj <$> sort_by_fitness cs]>
            (<[parents := Obj <$> sort_by_fitness ps]> (heap w))
          ++ [Obj <$> (take kept_parents (sort_by_fitness ps)
                       ++ take gap (sort_by_fitness cs))])
         (oids w) (draws w)).
Proof.
  intros Hi Hp Hc Hne gap kept_parents. unfold replacement.
  rewrite run_bind, (run_read _ _ _ Hi). eval_method.
  rewrite run_bind, (run_sort_in_place _ _ _ Hp), Array_sort_Obj.
  rewrite run_bind.
  rewrite (run_read parents _ (Obj <$> sort_by_fitness ps)).
  2:{ simpl. apply list_lookup_insert_eq. by eapply lookup_lt_Some. }
  rewrite run_bind.
  rewrite (run_sort_in_place children _ (Obj <$> cs)).
  2:{ simpl. by rewrite list_lookup_insert_ne. }
  rewrite Array_sort_Obj, run_bind. cbn [heap oids draws].
  rewrite (run_read children _ (Obj <$> sort_by_fitness cs)).
  2:{ simpl. apply list_lookup_insert_eq. rewrite length_insert.
      by eapply lookup_lt_Some. }
  rewrite run_bind, run_alloc. cbn [heap oids draws].
  rewrite !length_insert, Array_slice_take.
  fold gap. rewrite fmap_app, !fmap_take.
  assert (Hkept : Array_slice (Obj <$> sort_by_fitness ps) 0
                    (Z.of_nat (length inds) - Z.of_nat gap)
                  = take kept_parents (Obj <$> sort_by_fitness ps)).
  { unfold kept_parents. destruct (Nat.leb_spec gap (length inds)) as [Hle|Hgt].
    - rewrite <- Nat2Z.inj_sub by done. apply Array_slice_take.
    - replace (Z.of_nat (length inds) - Z.of_nat gap)%Z
        with (- Z.of_nat (gap - length inds))%Z by lia.
      rewrite Array_slice_drop_last by lia.
      by rewrite length_fmap,
        (Permutation_length (sort_by_fitness_Permutation ps)). }
  by rewrite Hkept.
Qed.

Lemma replacement_separate_competition_witness :
  (1 <> 2)%nat
  /\ replacement (mkPopulation real_x 0) 1 2 "separate_competition" None
       (mkWorld [[Obj weak]; [Obj weak; Obj strong]; [Obj middle]] 4 0)
     = Return (mkPopulation real_x 3)
         (mkWorld [[Obj weak]; [Obj strong; Obj weak]; [Obj middle]; [Obj strong]] 4 0).
Proof.
  split; [lia|].
  apply (replacement_separate_competition (mkPopulation real_x 0) 1 2 None
           (mkWorld [[Obj weak]; [Obj weak; Obj strong]; [Obj middle]] 4 0)
           [Obj weak] [weak; strong] [middle] eq_refl eq_refl eq_refl).
  lia.
Defined.

(** A gap larger than the population: of three parents, the least fit one
    is dropped, and the children follow. *)
Example separate_competition_large_gap :
  exists this' w',
    replacement (mkPopulation real_x 0) 1 2 "separate_competition"
      (Some (mkOptions None false None None None None None None None (Some 2)))
      (mkWorld [[Obj weak]; [Obj weak; Obj strong; Obj middle]; [Obj middle]] 4 0)
    = Return this' w'
    /\ heap w' !! individuals this' = Some [Obj strong; Obj middle; Obj middle].
Proof. do 2 eexists. split; [vm_compute; reflexivity|]. reflexivity. Qed.

(** ** The population as a growing array *)

Lemma indexOf_from_last (l : jsarray) (x : EAIndividual) (i : Z) :
  indexOf_from (l ++ [Obj x]) (Obj x) i <> (-1)%Z \/ (i < 0)%Z.
Proof.
  destruct (Z.ltb_spec i 0) as [?|Hi]; [by right|left].
  apply indexOf_from_found; [done|].
  exists x. split; [|done]. apply elem_of_app. right. apply list_elem_of_here.
Qed.

(** X4.  After [push] of an individual the population counts one more and
    [hasIndividual] finds that individual; the individual is the last one
    of the stored array, and nothing else in the world changes. *)
Theorem push_count_hasIndividual
    (this : EAPopulation) (x : EAIndividual) (w : World) (l : jsarray) :
  heap w !! individuals this = Some l ->
  let w' := mkWorld (<[individuals this := l ++ [Obj x]]> (heap w))
                    (oids w) (draws w) in
  push this (Obj x) w = Return tt w'
  /\ count this w' = Return (S (length l)) w'
  /\ hasIndividual this (Obj x) w' = Return true w'
  /\ count this w = Return (length l) w.
Proof.
  intros Ha w'.
  assert (Ha' : heap w' !! individuals this = Some (l ++ [Obj x])).
  { simpl. apply list_lookup_insert_eq. by eapply lookup_lt_Some. }
  split; [|split; [|split]].
  - unfold push. by rewrite run_bind, (run_read _ _ _ Ha).
  - unfold count. rewrite run_bind, (run_read _ _ _ Ha').
    unfold mret, M_ret. f_equal. rewrite length_app. simpl. lia.
  - unfold hasIndividual. rewrite run_bind, (run_read _ _ _ Ha').
    unfold mret, M_ret. f_equal. unfold Array_indexOf.
    destruct (indexOf_from_last l x 0) as [H|H]; [|lia].
    by apply negb_true_iff, Z.eqb_neq.
  - unfold count. by rewrite run_bind, (run_read _ _ _ Ha).
Qed.

Lemma push_count_hasIndividual_witness :
  push (mkPopulation real_x 0) (Obj strong) (mkWorld [[Obj weak]] 4 0)
  = Return tt (mkWorld [[Obj weak; Obj strong]] 4 0)
  /\ hasIndividual (mkPopulation real_x 0) (Obj strong)
       (mkWorld [[Obj weak; Obj strong]] 4 0)
     = Return true (mkWorld [[Obj weak; Obj strong]] 4 0).
Proof.
  destruct (push_count_hasIndividual (mkPopulation real_x 0) strong
              (mkWorld [[Obj weak]] 4 0) [Obj weak] eq_refl)
    as (Hpush & _ & Hhas & _).
  split; [exact Hpush|exact Hhas].
Defined.

(** X5.  Every method name but the three strategies (also
    ['generational']) makes the array of children itself the population's
    array: no array is created, and a later [push] on the new population
    shows in the array of children that the caller holds. *)
Theorem replacement_generational_shares_children
    (this : EAPopulation) (parents children : addr) (method : string)
    (options : option Options) (x : EAIndividual) (w : World) (cs : jsarray) :
  String.eqb method "comma_strategy" = false ->
  String.eqb method "separate_competition" = false ->
  String.eqb method "plus_strategy" = false ->
  heap w !! children = Some cs ->
  (this' ← replacement this parents children method options;
   push this' (Obj x);;
   read children) w
  = Return (cs ++ [Obj x])
      (mkWorld (<[children := cs ++ [Obj x]]> (heap w)) (oids w) (draws w)).
Proof.
  intros H1 H2 H3 Hc.
  rewrite run_bind. unfold replacement at 1. rewrite run_bind.
  unfold read at 1. rewrite H1, H2, H3. unfold mret at 1, M_ret at 1.
  rewrite run_bind. unfold push. cbn [individuals].
  rewrite run_bind, (run_read _ _ _ Hc). unfold write at 1.
  apply run_read. simpl. apply list_lookup_insert_eq. by eapply lookup_lt_Some.
Qed.

Lemma replacement_generational_shares_children_witness :
  (this' ← replacement (mkPopulation real_x 0) 1 2 "generational" None;
   push this' (Obj strong);;
   read 2%nat) (mkWorld [[Obj weak]; [Obj weak]; [Obj middle]] 4 0)
  = Return [Obj middle; Obj strong]
      (mkWorld [[Obj weak]; [Obj weak]; [Obj middle; Obj strong]] 4 0).
Proof.
  apply (replacement_generational_shares_children (mkPopulation real_x 0) 1 2
           "generational" None strong
           (mkWorld [[Obj weak]; [Obj weak]; [Obj middle]] 4 0) [Obj middle]);
    reflexivity.
Defined.

(** ** The roulette on any population and any draws *)

Lemma map_fitness_Undefined (inds : jsarray) (w : World) :
  Undefined ∈ inds -> map_fitness inds w = Throw TypeError.
Proof.
  induction inds as [|s inds IH]; intros Hin; [by apply elem_of_nil in Hin|].
  destruct s as [| |x]; [|done|].
  - apply elem_of_cons in Hin as [?|Hin]; [done|].
    cbn [map_fitness]. by rewrite run_bind, IH.
  - apply elem_of_cons in Hin as [?|Hin]; [done|].
    cbn [map_fitness]. by rewrite run_bind, IH.
Qed.

(** X6.  The roulette reads the fitness of every element of the
    population first: a population that holds [undefined] (a roulette
    draw that pointed at no one and was kept by a replacement) makes every
    roulette method raise a [TypeError], as does a call without options. *)
Theorem getParents_roulette_TypeError
    (random : nat -> Q) (this : EAPopulation) (n : nat) (w : World) :
  getParents random this "roulette" n None w = Throw TypeError
  /\ forall o inds,
       heap w !! individuals this = Some inds ->
       Undefined ∈ inds ->
       getParents random this "roulette" n (Some o) w = Throw TypeError.
Proof.
  split; [reflexivity|]. intros o inds Ha Hin.
  unfold getParents. eval_method. unfold getParentsFromRoulette.
  by rewrite run_bind, (run_read _ _ _ Ha), run_bind, map_fitness_Undefined.
Qed.

Lemma getParents_roulette_TypeError_witness :
  Undefined ∈ [Obj weak; Undefined]
  /\ getParents (replay []) (mkPopulation real_x 0) "roulette" 2
       (roulette_options "with_replacement")
       (mkWorld [[Obj weak; Undefined]] 4 0)
     = Throw TypeError.
Proof.
  assert (Hin : Undefined ∈ [Obj weak; Undefined]).
  { apply list_elem_of_further, list_elem_of_here. }
  split; [exact Hin|].
  exact (proj2 (getParents_roulette_TypeError (replay []) (mkPopulation real_x 0) 2
                  (mkWorld [[Obj weak; Undefined]] 4 0))
               (mkOptions (Some "with_replacement"%string) false None None None
                          None None None None None)
               [Obj weak; Undefined] eq_refl Hin).
Defined.

Lemma arr_get_drawn (xs : list EAIndividual) (i : Z) :
  drawn xs (arr_get (Obj <$> xs) i).
Proof.
  unfold arr_get. destruct (i <? 0)%Z; [by left|].
  rewrite list_lookup_fmap. destruct (xs !! Z.to_nat i) as [x|] eqn:E; [|by left].
  right. exists x. split; [done|]. by eapply list_elem_of_lookup_2.
Qed.

Lemma parent_at_key_drawn (xs : list EAIndividual) (keys : list nat) (j : nat) :
  drawn xs (parent_at_key (Obj <$> xs) keys j).
Proof.
  destruct j as [|j]; [by left|]. simpl.
  destruct (keys !! j); [apply arr_get_drawn|by left].
Qed.

Lemma roulette_loop_drawn random (xs : list EAIndividual) (without : bool)
    (k : nat) (vs : jsarray) (fitnessValues : list number) (rouletteSize : Q)
    (w : World) :
  exists ys fitnessValues' rouletteSize',
    for_range (length vs) k (roulette_step random (Obj <$> xs) without)
      (vs ++ replicate k Hole, fitnessValues, rouletteSize) w
    = Return (vs ++ ys, fitnessValues', rouletteSize')
        (mkWorld (heap w) (oids w) (draws w + k))
    /\ length ys = k /\ Forall (drawn xs) ys.
Proof.
  revert vs fitnessValues rouletteSize w.
  induction k as [|k IH]; intros vs fv rs w.
  - exists [], fv, rs. simpl. by rewrite world_draws_0.
  - cbn [for_range]. rewrite run_bind.
    unfold roulette_step at 1. rewrite run_bind. unfold Math_random at 1.
    destruct (walk fv (random (draws w) * rs) (Num 0) 0) as [f j].
    rewrite arr_set_next. replace (S k - 1)%nat with k by lia.
    set (s := arr_get (Obj <$> xs) (Z.of_nat j - 1)).
    replace (S (length vs)) with (length (vs ++ [s]))
      by (rewrite length_app; simpl; lia).
    destruct without; unfold mret, M_ret.
    + destruct (IH (vs ++ [s]) (num_set fv j (num_max0 (num_sub1 (num_get fv j))))
                  (rs - 1)%Q (mkWorld (heap w) (oids w) (S (draws w))))
        as (ys & fv' & rs' & Hrun & Hlen & Hall).
      exists (s :: ys), fv', rs'. rewrite Hrun. cbn [heap oids draws].
      rewrite <- app_assoc. replace (S (draws w) + k)%nat with (draws w + S k)%nat by lia.
      split; [done|]. split; [simpl; lia|].
      constructor; [apply arr_get_drawn|done].
    + destruct (IH (vs ++ [s]) fv rs (mkWorld (heap w) (oids w) (S (draws w))))
        as (ys & fv' & rs' & Hrun & Hlen & Hall).
      exists (s :: ys), fv', rs'. rewrite Hrun. cbn [heap oids draws].
      rewrite <- app_assoc. replace (S (draws w) + k)%nat with (draws w + S k)%nat by lia.
      split; [done|]. split; [simpl; lia|].
      constructor; [apply arr_get_drawn|done].
Qed.

Lemma univerzal_loop_drawn (xs : list EAIndividual) (keys : list nat)
    (weights : list number) (pointerStep : Q) (k : nat) (vs : jsarray)
    (f : number) (j : nat) (pos : Q) (w : World) :
  exists ys f' j' pos',
    for_range (length vs) k
      (univerzal_step (Obj <$> xs) keys weights pointerStep)
      (vs ++ replicate k Hole, f, j, pos) w
    = Return (vs ++ ys, f', j', pos') w
    /\ length ys = k /\ Forall (drawn xs) ys.
Proof.
  revert vs f j pos.
  induction k as [|k IH]; intros vs f j pos.
  - exists [], f, j, pos. by simpl.
  - cbn [for_range]. rewrite run_bind.
    unfold univerzal_step at 1.
    destruct (walk (drop j weights) pos f j) as [f1 j1].
    unfold mret, M_ret.
    rewrite arr_set_next. replace (S k - 1)%nat with k by lia.
    set (s := parent_at_key (Obj <$> xs) keys j1).
    replace (S (length vs)) with (length (vs ++ [s]))
      by (rewrite length_app; simpl; lia).
    destruct (IH (vs ++ [s]) f1 j1 (pos + pointerStep)%Q)
      as (ys & f' & j' & pos' & Hrun & Hlen & Hall).
    exists (s :: ys), f', j', pos'. rewrite Hrun, <- app_assoc.
    split; [done|]. split; [simpl; lia|].
    constructor; [apply parent_at_key_drawn|done].
Qed.

Lemma shuffle_loop random (len k a : nat) (keys : list nat) (w : World) :
  exists keys',
    for_range a k
      (fun a keys =>
         r ← Math_random random;
         let b := (Z.of_nat a + Math_round (r * (Qnat len - Qnat a - 1)))%Z in
         mret (swap_keys keys a b))
      keys w
    = Return keys' (mkWorld (heap w) (oids w) (draws w + k))
    /\ keys' ≡ₚ keys.
Proof.
  revert a keys w. induction k as [|k IH]; intros a keys w.
  - exists keys. simpl. by rewrite world_draws_0.
  - cbn [for_range]. rewrite run_bind, run_bind. unfold Math_random at 1.
    unfold mret at 1, M_ret at 1.
    set (keys1 := swap_keys keys a _).
    destruct (IH (S a) keys1 (mkWorld (heap w) (oids w) (S (draws w))))
      as (keys' & Hrun & Hperm).
    exists keys'. split.
    { etransitivity; [exact Hrun|]. cbn [heap oids draws].
      by replace (S (draws w) + k)%nat with (draws w + S k)%nat by lia. }
    rewrite Hperm. unfold keys1, swap_keys.
    set (b := (Z.of_nat a + _)%Z).
    destruct (keys !! a) as [ka|] eqn:Ea; [|done].
    destruct (b <? 0)%Z; [done|].
    destruct (keys !! Z.to_nat b) as [kb|] eqn:Eb; [|done].
    clear -Ea Eb. revert Ea Eb. generalize (Z.to_nat b). intros c Ea Eb.
    destruct (decide (a = c)) as [->|Hne].
    + rewrite list_insert_insert_eq. rewrite list_insert_id; [done|congruence].
    + symmetry. apply Permutation_inj. split.
      { by rewrite !length_insert. }
      exists (fun i => if decide (i = a) then c else if decide (i = c) then a else i).
      split.
      * intros i1 i2. repeat case_decide; intros; subst; congruence.
      * intros i. destruct (decide (i = a)) as [->|Hia].
        { rewrite Ea. symmetry. apply list_lookup_insert_eq.
          rewrite length_insert. by eapply lookup_lt_Some. }
        destruct (decide (i = c)) as [->|Hic].
        { rewrite Eb, list_lookup_insert_ne by done. symmetry.
          apply list_lookup_insert_eq. by eapply lookup_lt_Some. }
        by rewrite !list_lookup_insert_ne.
Qed.

Lemma shuffle_index_range (r : Q) (len a : nat) :
  (0 <= r)%Q -> (r < 1)%Q -> (a < len)%nat ->
  (Z.of_nat a <= Z.of_nat a + Math_round (r * (Qnat len - Qnat a - 1))
   < Z.of_nat len)%Z.
Proof.
  intros H0 H1 Ha.
  assert (Hb : (0 <= Qnat len - Qnat a - 1)%Q).
  { pose proof (Qnat_lt a len Ha). lra. }
  assert (Heq : (Qnat len - Qnat a - 1 == inject_Z (Z.of_nat (len - a - 1)))%Q).
  { unfold Qnat. rewrite !Nat2Z.inj_sub by lia.
    unfold Qeq, Qminus, Qplus, Qopp, inject_Z. simpl. lia. }
  pose proof (Math_round_mono 0 (r * (Qnat len - Qnat a - 1))) as Hlo.
  pose proof (Math_round_mono (r * (Qnat len - Qnat a - 1))
                (inject_Z (Z.of_nat (len - a - 1)))) as Hhi.
  rewrite Math_round_Z in Hhi.
  pose proof (Math_round_Z 0) as Hz. change (inject_Z 0) with 0%Q in Hz.
  rewrite Hz in Hlo.
  assert (0 <= r * (Qnat len - Qnat a - 1))%Q by nra.
  assert (r * (Qnat len - Qnat a - 1) <= inject_Z (Z.of_nat (len - a - 1)))%Q
    by (rewrite <- Heq; nra).
  specialize (Hlo ltac:(done)). specialize (Hhi ltac:(done)). lia.
Qed.

(** X7.  The shuffle of the keys draws one random number per key and
    returns a rearrangement of the keys: every exchange [keys[a]],
    [keys[b]] has [a <= b < keys.length], so that no key is lost and none
    is written outside the array. *)
Theorem shuffle_keys_permutation (random : nat -> Q) (keys : list nat) (w : World) :
  unit_range random ->
  (exists keys',
     shuffle_keys random keys w
     = Return keys' (mkWorld (heap w) (oids w) (draws w + length keys))
     /\ keys' ≡ₚ keys)
  /\ forall a k, (a < length keys)%nat ->
       (Z.of_nat a
        <= Z.of_nat a + Math_round (random k * (Qnat (length keys) - Qnat a - 1))
        < Z.of_nat (length keys))%Z.
Proof.
  intros Hr. split.
  - unfold shuffle_keys. apply shuffle_loop.
  - intros a k Ha. apply shuffle_index_range; [apply Hr..|done].
Qed.

Lemma shuffle_keys_permutation_witness :
  unit_range (replay [3 # 4; 1 # 4]%Q)
  /\ exists keys',
       shuffle_keys (replay [3 # 4; 1 # 4]%Q) [0; 1; 2]%nat (mkWorld [] 0 0)
       = Return keys' (mkWorld [] 0 3)
       /\ keys' ≡ₚ [0; 1; 2]%nat.
Proof.
  assert (Hr : unit_range (replay [3 # 4; 1 # 4]%Q)).
  { apply replay_unit_range. repeat constructor; lra. }
  split; [exact Hr|].
  exact (proj1 (shuffle_keys_permutation (replay [3 # 4; 1 # 4]%Q) [0; 1; 2]%nat
                  (mkWorld [] 0 0) Hr)).
Defined.

(** X8.  The roulette never makes up a parent.  On a population of
    individuals, for every method but the remainder ones (with or without
    replacement, ['univerzal'] with or without shuffle, and any unknown
    name) and for all draws of [Math.random], also 0: the result is a new array that is
    empty when no fitness is positive and has exactly [n] positions
    otherwise, each holding an individual of the population or
    [undefined], never a hole; the population array is not touched. *)
Theorem getParents_roulette_draws_from_population
    (random : nat -> Q) (this : EAPopulation) (n : nat) (o : Options)
    (w : World) (xs : list EAIndividual) :
  unit_range random ->
  heap w !! individuals this = Some (Obj <$> xs) ->
  is_remainder (rouletteMethod_or_default o) = false ->
  let univerzal := String.eqb (rouletteMethod_or_default o) "univerzal" in
  exists parents,
    getParents random this "roulette" n (Some o) w
    = Return (length (heap w))
        (mkWorld (heap w ++ [parents]) (oids w)
           (draws w
            + (if univerzal && shuffleOrder o then length xs else 0)
            + (if Qeq_bool (total_fitness xs) 0 then 0
               else if univerzal then 1 else n)))
    /\ Forall (drawn xs) parents
    /\ (if Qeq_bool (total_fitness xs) 0 then parents = []
        else length parents = n).
Proof.
  intros _ Ha Hr univerzal. unfold getParents. eval_method.
  unfold getParentsFromRoulette.
  rewrite run_bind, (run_read _ _ _ Ha), run_bind, map_fitness_Obj.
  subst univerzal.
  destruct (String.eqb (rouletteMethod_or_default o) "univerzal") eqn:Hu.
  - rewrite roulette_size_cumulative, run_bind.
    assert (Hkeys : exists keys,
      (if shuffleOrder o then shuffle_keys random (array_keys (Obj <$> xs))
       else mret (array_keys (Obj <$> xs))) w
      = Return keys
          (mkWorld (heap w) (oids w)
             (draws w + (if true && shuffleOrder o then length xs else 0)))).
    { destruct (shuffleOrder o); cbn [andb].
      - destruct (shuffle_loop random (length (array_keys (Obj <$> xs)))
                    (length (array_keys (Obj <$> xs))) 0
                    (array_keys (Obj <$> xs)) w) as (keys & Hrun & _).
        exists keys. etransitivity; [exact Hrun|].
        by rewrite array_keys_Obj, length_seq.
      - eexists. unfold mret, M_ret. by rewrite world_draws_0. }
    destruct Hkeys as (keys & ->).
    destruct (Qeq_bool (total_fitness xs) 0).
    + exists []. rewrite run_alloc. cbn [heap oids draws].
      by rewrite Nat.add_0_r.
    + rewrite run_bind. unfold Math_random at 1. rewrite run_bind.
      rewrite for_range_from_0. change (new_Array n) with ([] ++ replicate n Hole).
      edestruct (univerzal_loop_drawn xs keys) as (ys & f' & j' & pos' & Hrun & Hlen & Hall).
      rewrite Hrun. exists ys. rewrite run_alloc. cbn [heap oids draws app].
      by rewrite Nat.add_1_r.
  - rewrite Hr, roulette_size_cumulative. cbn [andb].
    destruct (Qeq_bool (total_fitness xs) 0).
    + exists []. rewrite run_alloc. by rewrite !Nat.add_0_r.
    + rewrite run_bind, for_range_from_0.
      change (new_Array n) with ([] ++ replicate n Hole).
      edestruct (roulette_loop_drawn random xs) as (ys & fv' & rs' & Hrun & Hlen & Hall).
      rewrite Hrun. exists ys. rewrite run_alloc. cbn [heap oids draws app].
      by rewrite Nat.add_0_r.
Qed.

Lemma getParents_roulette_draws_from_population_witness :
  unit_range (replay [0; 3 # 4]%Q)
  /\ exists parents,
       getParents (replay [0; 3 # 4]%Q) (mkPopulation real_x 0) "roulette" 2
         (roulette_options "without_replacement")
         (mkWorld [[Obj weak; Obj strong]] 4 0)
       = Return 1 (mkWorld [[Obj weak; Obj strong]; parents] 4 2)
       /\ Forall (drawn [weak; strong]) parents
       /\ length parents = 2%nat.
Proof.
  assert (Hr : unit_range (replay [0; 3 # 4]%Q)).
  { apply replay_unit_range. repeat constructor; lra. }
  split; [exact Hr|].
  destruct (getParents_roulette_draws_from_population (replay [0; 3 # 4]%Q)
              (mkPopulation real_x 0) 2
              (mkOptions (Some "without_replacement"%string) false None None None
                         None None None None None)
              (mkWorld [[Obj weak; Obj strong]] 4 0) [weak; strong]
              Hr eq_refl eq_refl)
    as (parents & Hrun & Hall & Hlen).
  exists parents. split; [exact Hrun|]. split; [exact Hall|exact Hlen].
Defined.

(** X9.  The remainder methods always begin the result with
    [Math.floor(Math.max(0, fitness))] copies of every individual, in the
    order of the population, whatever the draws: the roulette of the
    fractional parts fills only the positions after them, up to [n] (with
    individuals of the population or [undefined]); when every fitness is
    a whole number those positions stay holes and nothing is drawn. *)
Theorem getParents_remainder_copies_first
    (random : nat -> Q) (this : EAPopulation) (n : nat) (o : Options)
    (w : World) (xs : list EAIndividual) :
  heap w !! individuals this = Some (Obj <$> xs) ->
  is_remainder (rouletteMethod_or_default o) = true ->
  let m := (n - length (deterministic_copies xs))%nat in
  let whole := Qeq_bool (roulette_size (fun f => mod1 (Math_max0 f)) (Obj <$> xs)) 0 in
  exists rest,
    getParents random this "roulette" n (Some o) w
    = Return (length (heap w))
        (mkWorld (heap w ++ [(Obj <$> deterministic_copies xs) ++ rest]) (oids w)
           (draws w + (if whole then 0 else m)))
    /\ length rest = m
    /\ (if whole then rest = replicate m Hole else Forall (drawn xs) rest).
Proof.
  intros Ha Hr m whole. unfold getParents. eval_method.
  unfold getParentsFromRoulette.
  rewrite run_bind, (run_read _ _ _ Ha), run_bind, map_fitness_Obj.
  assert (Hu : String.eqb (rouletteMethod_or_default o) "univerzal" = false).
  { unfold is_remainder in Hr. apply orb_true_iff in Hr as [H|H];
      apply String.eqb_eq in H; by rewrite H. }
  rewrite Hu, Hr.
  change (new_Array n) with ([] ++ replicate n Hole).
  change 0%nat with (length (@nil slot)) at 1.
  rewrite whole_copies_Obj. cbn [app length Nat.add]. fold m. fold whole.
  destruct whole.
  - exists (replicate m Hole). rewrite run_alloc, Nat.add_0_r.
    by rewrite length_replicate.
  - rewrite run_bind.
    pose proof (roulette_loop_drawn random xs
                  (is_without (rouletteMethod_or_default o)) m
                  (Obj <$> deterministic_copies xs)
                  ((fun f => num_mod1 (num_max0 f)) <$> weights_of xs)
                  (roulette_size (fun f => mod1 (Math_max0 f)) (Obj <$> xs)) w)
      as (ys & fv' & rs' & Hrun & Hlen & Hall).
    rewrite length_fmap in Hrun. rewrite Hrun.
    exists ys. by rewrite run_alloc.
Qed.

Lemma getParents_remainder_copies_first_witness :
  exists rest,
    getParents (replay [1 # 2]%Q) (mkPopulation real_x 0) "roulette" 4
      (roulette_options "remainder_with_replacement")
      (mkWorld [[Obj (mkIndividual 5 [] (3 # 2)); Obj middle]] 4 0)
    = Return 1
        (mkWorld [[Obj (mkIndividual 5 [] (3 # 2)); Obj middle];
                  [Obj (mkIndividual 5 [] (3 # 2)); Obj middle; Obj middle] ++ rest]
                 4 1)
    /\ length rest = 1%nat.
Proof.
  destruct (getParents_remainder_copies_first (replay [1 # 2]%Q)
              (mkPopulation real_x 0) 4
              (mkOptions (Some "remainder_with_replacement"%string) false None
                         None None None None None None None)
              (mkWorld [[Obj (mkIndividual 5 [] (3 # 2)); Obj middle]] 4 0)
              [mkIndividual 5 [] (3 # 2); middle] eq_refl eq_refl)
    as (rest & Hrun & Hlen & _).
  exists rest. split; [exact Hrun|exact Hlen].
Defined.

(** ** Variation: what every child is *)

Lemma quiet_ret {A} (a : A) : quiet (mret a).
Proof. by intros w. Qed.

Lemma quiet_throw {A} (e : exn) : quiet (@throw A e).
Proof. by intros w. Qed.

Lemma quiet_bind {A B} (m : M A) (f : A -> M B) :
  quiet m -> (forall a, quiet (f a)) -> quiet (m ≫= f).
Proof.
  intros Hm Hf w. rewrite run_bind. specialize (Hm w).
  destruct (m w) as [a w1|e]; [|done]. specialize (Hf a w1).
  destruct (f a w1) as [b w2|e]; [|done].
  destruct Hm, Hf. split; congruence.
Qed.

Lemma quiet_Math_random random : quiet (Math_random random).
Proof. by intros w. Qed.

#[export] Hint Resolve quiet_ret quiet_throw quiet_Math_random : frame.

(** Decomposition of a computation that creates nothing. *)
Ltac quiets :=
  repeat match goal with
         | |- quiet (_ ≫= _) => apply quiet_bind; [|intros ?]
         | |- quiet (match ?x with _ => _ end) => destruct x
         | |- quiet _ => solve [auto with frame]
         end.

Lemma quiet_mutated_positions random len n : quiet (mutated_positions random len n).
Proof. induction n; simpl; quiets. Qed.

Lemma quiet_fresh_values random this k : quiet (fresh_values random this k).
Proof. induction k; simpl; quiets. Qed.

Lemma quiet_uniform_value random this : quiet (uniform_value random this).
Proof. unfold uniform_value. quiets. Qed.

#[export] Hint Resolve quiet_mutated_positions quiet_fresh_values
  quiet_uniform_value : frame.

Lemma quiet_generateFunction random this method options data variable k :
  quiet (generateFunction random this method options data variable k).
Proof.
  unfold generateFunction, generate_mutated, generate_copy, mutation_value.
  destruct (is_structural method); quiets.
Qed.

Lemma quiet_EAIndividual_fill g vars v o :
  (forall variable k, quiet (g variable k)) ->
  quiet (EAIndividual_fill g vars v o).
Proof.
  intros Hg. revert v o. induction vars as [|x vars IH]; intros v o; simpl; quiets.
Qed.

Lemma quiet_getVariables random this ps method options i :
  quiet (getVariables random this ps method options i).
Proof. unfold getVariables, parent_of, round_random. quiets. Qed.

Lemma new_EAIndividual_fresh vars g f (w : World) :
  (forall variable k, quiet (g variable k)) ->
  (forall variable k, succeeds (g variable k)) ->
  exists o w',
    new_EAIndividual vars g f w = Return (mkIndividual (oids w) o (f o)) w'
    /\ EAIndividual_fill g vars 0 [] (mkWorld (heap w) (S (oids w)) (draws w))
       = Return o w'
    /\ heap w' = heap w /\ oids w' = S (oids w).
Proof.
  intros Hq Hs. unfold new_EAIndividual.
  rewrite run_bind. unfold fresh_oid at 1. rewrite run_bind.
  destruct (succeeds_EAIndividual_fill g vars 0 [] Hs
              (mkWorld (heap w) (S (oids w)) (draws w))) as (o & w' & Hrun & Hh).
  pose proof (quiet_EAIndividual_fill g vars 0 [] Hq
                (mkWorld (heap w) (S (oids w)) (draws w))) as Hquiet.
  rewrite Hrun in Hquiet. destruct Hquiet as [_ Ho].
  exists o, w'. by rewrite Hrun.
Qed.

Lemma run_variation_step random this ps method options (i : nat)
    (children : jsarray) (w : World) :
  ('(vars, data) ← getVariables random this ps method options i;
   child ← new_EAIndividual vars (generateFunction random this method options data)
             (fitnessFunction this);
   mret (arr_set children i (Obj child))) w
  = match make_child random this ps method options i w with
    | Return child w' => Return (arr_set children i (Obj child)) w'
    | Throw e => Throw e
    end.
Proof.
  unfold make_child. rewrite !run_bind.
  destruct (getVariables random this ps method options i w) as [[vars data] w1|e];
    [|done].
  rewrite run_bind.
  by destruct (new_EAIndividual vars _ _ w1).
Qed.

(** The loop of [applyGeneticOperators], for a relation [R] that every
    child bears to its parent. *)
Lemma variation_loop_rel random this (ps : list EAIndividual) method options
    (R : EAIndividual -> EAIndividual -> Prop) :
  (forall i p w, ps !! i = Some p ->
     exists c w',
       make_child random this (Obj <$> ps) method options i w = Return c w'
       /\ heap w' = heap w /\ oids w' = S (oids w) /\ oid c = oids w /\ R p c) ->
  forall (k : nat) (vs : jsarray) (w : World),
    (length vs + k <= length ps)%nat ->
    exists children w',
      for_range (length vs) k
        (fun i children =>
           '(vars, data) ← getVariables random this (Obj <$> ps) method options i;
           child ← new_EAIndividual vars
                     (generateFunction random this method options data)
                     (fitnessFunction this);
           mret (arr_set children i (Obj child)))
        (vs ++ replicate k Hole) w
      = Return (vs ++ (Obj <$> children)) w'
      /\ heap w' = heap w /\ oids w' = (oids w + k)%nat
      /\ oid <$> children = seq (oids w) k
      /\ Forall2 R (take k (drop (length vs) ps)) children.
Proof.
  intros Hstep. induction k as [|k IH]; intros vs w Hk.
  - exists [], w. simpl. rewrite !app_nil_r, Nat.add_0_r.
    repeat split; constructor.
  - cbn [for_range]. rewrite run_bind, run_variation_step.
    destruct (lookup_lt_is_Some_2 ps (length vs) ltac:(lia)) as [p Hp].
    destruct (Hstep _ _ w Hp) as (c & w1 & Hrun1 & Hh1 & Ho1 & Hc & HR).
    rewrite Hrun1, arr_set_next. replace (S k - 1)%nat with k by lia.
    replace (S (length vs)) with (length (vs ++ [Obj c]))
      by (rewrite length_app; simpl; lia).
    destruct (IH (vs ++ [Obj c]) w1) as (children & w' & Hrun & Hh & Ho & Hids & Hall).
    { rewrite length_app. simpl. lia. }
    exists (c :: children), w'. rewrite Hrun, <- app_assoc.
    split; [done|]. split; [congruence|]. split; [lia|]. split.
    + cbn [fmap list_fmap seq]. f_equal; [done|]. change (list_fmap _ _ oid children) with (oid <$> children). by rewrite Hids, Ho1.
    + rewrite (drop_S _ _ _ Hp). cbn [take]. constructor; [done|].
      rewrite length_app in Hall. simpl in Hall.
      by rewrite Nat.add_1_r in Hall.
Qed.

Lemma applyGeneticOperators_rel random (this : EAPopulation) (parents : addr)
    (method : string) (options : option Options) (w : World)
    (ps : list EAIndividual) (R : EAIndividual -> EAIndividual -> Prop) :
  (forall i p w, ps !! i = Some p ->
     exists c w',
       make_child random (algorithm this) (Obj <$> ps) method options i w
       = Return c w'
       /\ heap w' = heap w /\ oids w' = S (oids w) /\ oid c = oids w /\ R p c) ->
  heap w !! parents = Some (Obj <$> ps) ->
  ps <> [] ->
  exists children w',
    applyGeneticOperators random this (Some parents) method options w
    = Return (length (heap w)) w'
    /\ heap w' = heap w ++ [Obj <$> children]
    /\ oids w' = (oids w + length ps)%nat
    /\ oid <$> children = seq (oids w) (length ps)
    /\ Forall2 R ps children.
Proof.
  intros Hstep Hp Hne. unfold applyGeneticOperators.
  rewrite run_bind, (run_read _ _ _ Hp), length_fmap.
  destruct ps as [|p ps']; [done|]. set (ps := p :: ps') in *.
  change (length ps =? 0)%nat with false. cbv iota.
  rewrite run_bind, for_range_from_0.
  change (new_Array (length ps)) with ([] ++ replicate (length ps) Hole).
  destruct (variation_loop_rel random (algorithm this) ps method options R Hstep
              (length ps) [] w ltac:(simpl; lia))
    as (children & w' & Hrun & Hh & Ho & Hids & Hall).
  rewrite Hrun. cbn [app]. rewrite run_alloc.
  exists children, (mkWorld (heap w' ++ [Obj <$> children]) (oids w') (draws w')).
  rewrite <- Hh. split; [done|]. split; [done|]. split; [done|]. split; [done|].
  by rewrite drop_0, firstn_all in Hall.
Qed.

Lemma make_child_fresh random this (ps : list EAIndividual) method options
    (i : nat) (p : EAIndividual) (w : World) :
  ps !! i = Some p ->
  exists c w',
    make_child random this (Obj <$> ps) method options i w = Return c w'
    /\ heap w' = heap w /\ oids w' = S (oids w) /\ oid c = oids w
    /\ fitness c = fitnessFunction this (variables c).
Proof.
  intros Hp. unfold make_child. rewrite run_bind.
  destruct (succeeds_getVariables random this ps method options i
              (lookup_lt_Some _ _ _ Hp) w) as ([vars data] & w1 & Hrun1 & Hh1).
  pose proof (quiet_getVariables random this (Obj <$> ps) method options i w) as Hq.
  rewrite Hrun1 in Hq. destruct Hq as [_ Ho1]. rewrite Hrun1.
  destruct (new_EAIndividual_fresh vars
              (generateFunction random this method options data)
              (fitnessFunction this) w1
              (quiet_generateFunction random this method options data)
              (succeeds_generateFunction random this method options data))
    as (o & w' & Hrun & _ & Hh & Ho).
  eexists _, w'. split; [exact Hrun|]. cbn [oid fitness variables].
  repeat split; congruence.
Qed.

Lemma indexOf_from_absent (a : jsarray) (x : EAIndividual) (i : Z) :
  (forall y, Obj y ∈ a -> oid y <> oid x) -> indexOf_from a (Obj x) i = (-1)%Z.
Proof.
  revert i. induction a as [|s a IH]; intros i Hall; [done|].
  assert (Hrest : forall y, Obj y ∈ a -> oid y <> oid x).
  { intros y Hy. apply Hall. by apply list_elem_of_further. }
  destruct s as [| |y]; cbn [indexOf_from strict_eq]; [by apply IH..|].
  destruct (Nat.eqb_spec (oid y) (oid x)) as [Heq|_]; [|by apply IH].
  exfalso. by apply (Hall y); [apply list_elem_of_here|].
Qed.

(** X10.  Every method of [applyGeneticOperators], on a non-empty array
    of individuals, creates one new object per parent: the children have
    the next identities of the world in order, their cached fitness is
    the fitness function of their own variables, and the parents array is
    left as it is. *)
Theorem applyGeneticOperators_children_are_new
    (random : nat -> Q) (this : EAPopulation) (parents : addr)
    (method : string) (options : option Options) (w : World)
    (ps : list EAIndividual) :
  heap w !! parents = Some (Obj <$> ps) ->
  ps <> [] ->
  exists children w',
    applyGeneticOperators random this (Some parents) method options w
    = Return (length (heap w)) w'
    /\ heap w' = heap w ++ [Obj <$> children]
    /\ length children = length ps
    /\ oids w' = (oids w + length ps)%nat
    /\ oid <$> children = seq (oids w) (length ps)
    /\ Forall (fun c => fitness c = fitnessFunction (algorithm this) (variables c))
              children.
Proof.
  intros Hp Hne.
  destruct (applyGeneticOperators_rel random this parents method options w ps
              (fun _ c => fitness c = fitnessFunction (algorithm this) (variables c)))
    as (children & w' & Hrun & Hh & Ho & Hids & Hall); [|done..|].
  { intros i p w0 Hi. apply (make_child_fresh _ _ _ _ _ _ _ _ Hi). }
  exists children, w'. repeat split; try done.
  - by rewrite <- (Forall2_length _ _ _ Hall).
  - clear -Hall. induction Hall; constructor; auto.
Qed.

Lemma applyGeneticOperators_children_are_new_witness :
  exists children w',
    applyGeneticOperators (replay [1 # 2; 1 # 4]%Q) (mkPopulation real_x 0)
      (Some 1%nat) "shrink_mutation" None
      (mkWorld [[Obj weak; Obj strong]; [Obj strong]] 4 0)
    = Return 2%nat w'
    /\ heap w' = [[Obj weak; Obj strong]; [Obj strong]; Obj <$> children]
    /\ length children = 1%nat
    /\ oid <$> children = [4%nat].
Proof.
  destruct (applyGeneticOperators_children_are_new (replay [1 # 2; 1 # 4]%Q)
              (mkPopulation real_x 0) 1 "shrink_mutation" None
              (mkWorld [[Obj weak; Obj strong]; [Obj strong]] 4 0) [strong]
              eq_refl ltac:(discriminate))
    as (children & w' & Hrun & Hh & Hlen & _ & Hids & _).
  exists children, w'. split; [exact Hrun|]. split; [exact Hh|].
  split; [exact Hlen|exact Hids].
Defined.

(** X11.  No child is an individual of the population it was bred from:
    when every individual of the population was created in the world,
    [hasIndividual] answers [false] for every child, whatever the method
    and even when the child has the variables of its parent. *)
Theorem children_are_not_in_the_population
    (random : nat -> Q) (this : EAPopulation) (parents : addr)
    (method : string) (options : option Options) (w : World)
    (xs ps : list EAIndividual) :
  heap w !! individuals this = Some (Obj <$> xs) ->
  Forall (allocated w) xs ->
  heap w !! parents = Some (Obj <$> ps) ->
  ps <> [] ->
  exists children w',
    applyGeneticOperators random this (Some parents) method options w
    = Return (length (heap w)) w'
    /\ heap w' = heap w ++ [Obj <$> children]
    /\ forall c, c ∈ children -> hasIndividual this (Obj c) w' = Return false w'.
Proof.
  intros Hx Hold Hp Hne.
  destruct (applyGeneticOperators_rel random this parents method options w ps
              (fun _ _ => True))
    as (children & w' & Hrun & Hh & Ho & Hids & _); [|done..|].
  { intros i p w0 Hi.
    destruct (make_child_fresh random (algorithm this) ps method options i p w0 Hi)
      as (c & w1 & ? & ? & ? & ? & _).
    by exists c, w1. }
  exists children, w'. split; [done|]. split; [done|].
  intros c Hc. unfold hasIndividual.
  rewrite run_bind, (run_read _ _ (Obj <$> xs)).
  2:{ rewrite Hh. by apply lookup_app_l_Some. }
  unfold mret, M_ret. f_equal. unfold Array_indexOf.
  rewrite indexOf_from_absent; [done|].
  intros y Hy Heq. apply list_elem_of_fmap in Hy as (y' & [= ->] & Hy').
  rewrite Forall_forall in Hold. specialize (Hold _ Hy'). unfold allocated in Hold.
  assert (Hin : oid c ∈ oid <$> children) by (by apply list_elem_of_fmap_2).
  rewrite Hids in Hin. apply elem_of_seq in Hin. lia.
Qed.

Lemma children_are_not_in_the_population_witness :
  Forall (allocated (mkWorld [[Obj weak; Obj strong]] 4 0)) [weak; strong]
  /\ exists children w',
       applyGeneticOperators (replay [1 # 2; 1 # 4]%Q) (mkPopulation real_x 0)
         (Some 0%nat) "swap_mutation" None (mkWorld [[Obj weak; Obj strong]] 4 0)
       = Return 1%nat w'
       /\ heap w' = [[Obj weak; Obj strong]; Obj <$> children]
       /\ forall c, c ∈ children ->
            hasIndividual (mkPopulation real_x 0) (Obj c) w' = Return false w'.
Proof.
  assert (Hold : Forall (allocated (mkWorld [[Obj weak; Obj strong]] 4 0))
                        [weak; strong]).
  { repeat constructor; unfold allocated; simpl; lia. }
  split; [exact Hold|].
  exact (children_are_not_in_the_population (replay [1 # 2; 1 # 4]%Q)
           (mkPopulation real_x 0) 0 "swap_mutation" None
           (mkWorld [[Obj weak; Obj strong]] 4 0) [weak; strong] [weak; strong]
           eq_refl Hold eq_refl ltac:(discriminate)).
Defined.

(** ** Variation: the mutations that change the length *)

Lemma round_random_run random (n : nat) (w : World) :
  unit_range random ->
  exists z : nat,
    round_random random (Qnat n) w
    = Return (Z.of_nat z) (mkWorld (heap w) (oids w) (S (draws w)))
    /\ (z <= n)%nat.
Proof.
  intros Hr. unfold round_random. rewrite run_bind. unfold Math_random at 1.
  unfold mret, M_ret. destruct (Hr (draws w)) as [H0 H1].
  pose proof (Qnat_nonneg n) as Hn.
  pose proof (Math_round_mono 0 (random (draws w) * Qnat n) ltac:(nra)) as Hlo.
  pose proof (Math_round_mono (random (draws w) * Qnat n) (Qnat n) ltac:(nra)) as Hhi.
  pose proof (Math_round_Z 0) as Hz. change (inject_Z 0) with 0%Q in Hz.
  rewrite Hz in Hlo. unfold Qnat in Hhi at 2. rewrite Math_round_Z in Hhi.
  exists (Z.to_nat (Math_round (random (draws w) * Qnat n))).
  rewrite Z2Nat.id by done. split; [done|lia].
Qed.

Lemma Array_splice_nat {A} (l : list A) (s dc : nat) (items : list A) :
  (s <= length l)%nat ->
  (Array_splice l (Z.of_nat s) (Z.of_nat dc) items).2
  = take s l ++ items ++ drop (s + dc) l.
Proof.
  intros Hs. unfold Array_splice, rel_index. cbv zeta. cbn [snd].
  destruct (Z.ltb_spec (Z.of_nat s) 0) as [?|_]; [lia|].
  rewrite (Z.min_l (Z.of_nat s)) by lia. rewrite Nat2Z.id.
  do 2 f_equal.
  destruct (le_lt_dec dc (length l - s)) as [Hle|Hgt].
  - f_equal. lia.
  - rewrite !drop_ge; [done|lia..].
Qed.

Lemma obj_set_last (k : key) (v : value) (o : object) :
  Forall (fun kv => key_after kv.1 k) o -> obj_set k v o = o ++ [(k, v)].
Proof.
  induction 1 as [|[k' v'] o [Heq Hbefore] _ IH]; [done|].
  cbn [obj_set app]. cbn [fst] in Heq, Hbefore. by rewrite Heq, Hbefore, IH.
Qed.

Lemma indexed_app (pre : list value) (v : value) :
  indexed (pre ++ [v]) = indexed pre ++ [(Idx (length pre), v)].
Proof. unfold indexed. rewrite imap_app. simpl. by rewrite Nat.add_0_r. Qed.

Lemma indexed_keys_before (pre : list value) :
  Forall (fun kv => key_after kv.1 (Idx (length pre))) (indexed pre).
Proof.
  apply Forall_forall. intros [k v] Hin. unfold indexed in Hin.
  apply elem_of_lookup_imap in Hin as (i & x & [= -> ->] & Hi).
  apply lookup_lt_Some in Hi. split; simpl.
  - apply Nat.eqb_neq. lia.
  - apply Nat.ltb_ge. lia.
Qed.

Lemma fill_copy (data : individual_data) (vars : list key) (v : nat) (o : object)
    (w : World) :
  EAIndividual_fill (generate_copy data) vars v o w
  = Return (foldl (fun o k => obj_set k (data_read data k) o) o vars) w.
Proof.
  revert v o. induction vars as [|k vars IH]; intros v o; [done|].
  cbn [EAIndividual_fill foldl]. rewrite run_bind. unfold generate_copy at 1.
  unfold mret at 1, M_ret at 1. apply IH.
Qed.

Lemma fill_indexed (pre rest : list value) :
  foldl (fun o k => obj_set k (data_get (pre ++ rest) k) o) (indexed pre)
        (Idx <$> seq (length pre) (length rest))
  = indexed (pre ++ rest).
Proof.
  revert pre. induction rest as [|x rest IH]; intros pre.
  - by rewrite app_nil_r.
  - cbn [length seq fmap list_fmap foldl data_get].
    rewrite list_lookup_middle by done. cbn [default].
    rewrite obj_set_last by apply indexed_keys_before.
    rewrite <- indexed_app.
    replace (pre ++ x :: rest) with ((pre ++ [x]) ++ rest) by (by rewrite <- app_assoc).
    replace (S (length pre)) with (length (pre ++ [x]))
      by (rewrite length_app; simpl; lia).
    apply IH.
Qed.

Lemma structural_child (data : list value) (f : object -> Q) (w : World) :
  new_EAIndividual (Idx <$> range (length data)) (generate_copy (DataArray data)) f w
  = Return (mkIndividual (oids w) (indexed data) (f (indexed data)))
      (mkWorld (heap w) (S (oids w)) (draws w)).
Proof.
  unfold new_EAIndividual. rewrite run_bind. unfold fresh_oid at 1.
  rewrite run_bind, fill_copy. unfold mret, M_ret.
  pose proof (fill_indexed [] data) as Hfill. cbn [app length] in Hfill.
  unfold range. cbn [data_read]. change (indexed []) with (@nil (key * value)) in Hfill.
  by rewrite Hfill.
Qed.

Lemma fresh_values_run random (this : EA) (k : nat) (w : World) :
  unit_range random ->
  exists new,
    fresh_values random this k w
    = Return new (mkWorld (heap w) (oids w) (draws w + k))
    /\ length new = k
    /\ (((interval this).1 <= (interval this).2)%Q ->
        Forall (rounded_value this) new).
Proof.
  intros Hr. revert w. induction k as [|k IH]; intros w.
  - exists []. simpl. by rewrite world_draws_0.
  - cbn [fresh_values]. rewrite run_bind. unfold Math_random at 1.
    rewrite run_bind.
    destruct (IH (mkWorld (heap w) (oids w) (S (draws w)))) as (new & Hrun & Hlen & Hall).
    rewrite Hrun. cbn [heap oids draws]. unfold mret, M_ret.
    eexists. split; [|split].
    + by replace (draws w + S k)%nat with (S (draws w) + k)%nat by lia.
    + simpl. lia.
    + intros Hord. constructor; [|by apply Hall]. eexists. split; [done|].
      destruct (Hr (draws w)) as [H0 H1].
      destruct (in_interval_bounds this (random (draws w)) H0 H1 Hord) as [Hlo Hhi].
      split; by apply Math_round_mono.
Qed.

(** The child of a parent under the three mutations that splice the array
    of values: [removed] values are taken out at [start] and [new] ones
    put in. *)
Lemma splice_child random (this : EA) (ps : list EAIndividual)
    (method : string) (options : option Options) (i : nat) (p : EAIndividual)
    (w : World) :
  unit_range random ->
  ps !! i = Some p ->
  method = "shrink_mutation"%string \/ method = "growth_mutation"%string
  \/ method = "replace_mutation"%string ->
  exists (start removed : nat) (new : list value) w',
    make_child random this (Obj <$> ps) method options i w
    = Return (mkIndividual (oids w)
                (indexed (take start (toArray p) ++ new
                          ++ drop (start + removed) (toArray p)))
                (fitnessFunction this
                   (indexed (take start (toArray p) ++ new
                             ++ drop (start + removed) (toArray p)))))
        w'
    /\ heap w' = heap w /\ oids w' = S (oids w)
    /\ (start <= length (variables p))%nat
    /\ (removed <= if String.eqb method "shrink_mutation"
                   then option_or options max_shrink_size 5
                   else if String.eqb method "replace_mutation"
                        then option_or options max_replace_size 5 else 0)%nat
    /\ (length new <= if String.eqb method "growth_mutation"
                      then option_or options max_growth_size 5
                      else if String.eqb method "replace_mutation"
                           then option_or options max_insert_size 5 else 0)%nat
    /\ (((interval this).1 <= (interval this).2)%Q ->
        Forall (rounded_value this) new).
Proof.
  intros Hr Hp Hm. unfold make_child, getVariables, parent_of.
  rewrite (arr_get_Obj _ _ _ Hp). rewrite run_bind, run_bind.
  change (@mret M _ _ p w) with (Return p w). cbv beta iota zeta.
  unfold Object_keys. rewrite length_fmap.
  assert (Hlen : length (toArray p) = length (variables p))
    by (unfold toArray; by rewrite length_fmap).
  destruct Hm as [->|[->| ->]]; eval_method; unfold generateFunction; eval_method.
  - rewrite !run_bind.
    destruct (round_random_run random (length (variables p)) w Hr) as (start & -> & Hs).
    rewrite run_bind.
    destruct (round_random_run random (option_or options max_shrink_size 5)
                (mkWorld (heap w) (oids w) (S (draws w))) Hr) as (size & -> & Hz).
    unfold mret at 1, M_ret at 1.
    rewrite Array_splice_nat by lia. rewrite structural_child.
    exists start, size, []. eexists. split; [done|]. cbn [heap oids length].
    repeat split; try done; try lia.
  - rewrite !run_bind.
    destruct (round_random_run random (length (variables p)) w Hr) as (pos & -> & Hs).
    rewrite run_bind.
    destruct (round_random_run random (option_or options max_growth_size 5)
                (mkWorld (heap w) (oids w) (S (draws w))) Hr) as (size & -> & Hz).
    rewrite run_bind, Nat2Z.id. cbn [heap oids draws].
    destruct (fresh_values_run random this size
                (mkWorld (heap w) (oids w) (S (S (draws w)))) Hr)
      as (new & -> & Hnew & Hall).
    unfold mret at 1, M_ret at 1.
    rewrite (Array_splice_nat _ pos 0) by lia. rewrite structural_child.
    exists pos, 0%nat, new. eexists. rewrite Nat.add_0_r. split; [done|].
    cbn [heap oids]. repeat split; try done; try lia.
  - rewrite !run_bind.
    destruct (round_random_run random (length (variables p)) w Hr) as (start & -> & Hs).
    rewrite run_bind.
    destruct (round_random_run random (option_or options max_replace_size 5)
                (mkWorld (heap w) (oids w) (S (draws w))) Hr) as (size & -> & Hz).
    rewrite run_bind. cbn [heap oids draws].
    destruct (round_random_run random (option_or options max_insert_size 5)
                (mkWorld (heap w) (oids w) (S (S (draws w)))) Hr) as (ins & -> & Hi).
    rewrite run_bind, Nat2Z.id. cbn [heap oids draws].
    destruct (fresh_values_run random this ins
                (mkWorld (heap w) (oids w) (S (S (S (draws w))))) Hr)
      as (new & -> & Hnew & Hall).
    unfold mret at 1, M_ret at 1.
    rewrite Array_splice_nat by lia. rewrite structural_child.
    exists start, size, new. eexists. split; [done|].
    cbn [heap oids]. repeat split; try done; try lia.
Qed.

(** X12.  The shrink mutation takes one block of adjacent values out of
    the values of the parent: at most [max_shrink_size] of them (5 when
    the option is left out or 0), from a position inside the array or at
    its end, where nothing is removed.  The child holds the remaining
    values in order under the keys [0, 1, ...], whatever the names of the
    parent's variables were. *)
Theorem shrink_mutation_removes_a_block
    (random : nat -> Q) (this : EAPopulation) (parents : addr)
    (options : option Options) (w : World) (ps : list EAIndividual) :
  unit_range random ->
  heap w !! parents = Some (Obj <$> ps) ->
  ps <> [] ->
  exists children w',
    applyGeneticOperators random this (Some parents) "shrink_mutation" options w
    = Return (length (heap w)) w'
    /\ heap w' = heap w ++ [Obj <$> children]
    /\ Forall2 (fun p c =>
         exists start size : nat,
           (start <= length (variables p))%nat
           /\ (size <= option_or options max_shrink_size 5)%nat
           /\ variables c
              = indexed (take start (toArray p) ++ drop (start + size) (toArray p)))
         ps children.
Proof.
  intros Hr Hp Hne.
  edestruct (applyGeneticOperators_rel random this parents "shrink_mutation"
               options w ps) as (children & w' & Hrun & Hh & _ & _ & Hall);
    [|done..|].
  2:{ exists children, w'. split; [done|]. split; [done|]. exact Hall. }
  intros i p w0 Hi.
  destruct (splice_child random (algorithm this) ps "shrink_mutation" options
              i p w0 Hr Hi ltac:(by left))
    as (start & size & new & w1 & Hrun & Hh & Ho & Hs & Hz & Hn & _).
  eexists _, w1. split; [exact Hrun|]. cbn [oid variables].
  split; [done|]. split; [done|]. split; [done|].
  destruct new; [|simpl in Hn; lia].
  by exists start, size.
Qed.

Lemma shrink_mutation_removes_a_block_witness :
  unit_range (replay [1 # 2; 1 # 4]%Q)
  /\ exists children w',
       applyGeneticOperators (replay [1 # 2; 1 # 4]%Q) (mkPopulation real_xy 0)
         (Some 0%nat) "shrink_mutation" None (mkWorld [[Obj parent_xy]] 1 0)
       = Return 1%nat w'
       /\ heap w' = [[Obj parent_xy]; Obj <$> children]
       /\ Forall2 (fun p c =>
            exists start size : nat,
              (start <= length (variables p))%nat
              /\ (size <= 5)%nat
              /\ variables c
                 = indexed (take start (toArray p)
                            ++ drop (start + size) (toArray p)))
            [parent_xy] children.
Proof.
  assert (Hr : unit_range (replay [1 # 2; 1 # 4]%Q)).
  { apply replay_unit_range. repeat constructor; lra. }
  split; [exact Hr|].
  exact (shrink_mutation_removes_a_block (replay [1 # 2; 1 # 4]%Q)
           (mkPopulation real_xy 0) 0 None (mkWorld [[Obj parent_xy]] 1 0)
           [parent_xy] Hr eq_refl ltac:(discriminate)).
Defined.

(** X13.  The growth mutation puts at most [max_growth_size] new values
    into the values of the parent at one position, and removes none; the
    new values are rounded to integers, also under the coding ['REAL'],
    and lie between the rounded bounds of the interval. *)
Theorem growth_mutation_inserts_a_block
    (random : nat -> Q) (this : EAPopulation) (parents : addr)
    (options : option Options) (w : World) (ps : list EAIndividual) :
  unit_range random ->
  ((interval (algorithm this)).1 <= (interval (algorithm this)).2)%Q ->
  heap w !! parents = Some (Obj <$> ps) ->
  ps <> [] ->
  exists children w',
    applyGeneticOperators random this (Some parents) "growth_mutation" options w
    = Return (length (heap w)) w'
    /\ heap w' = heap w ++ [Obj <$> children]
    /\ Forall2 (fun p c =>
         exists (pos : nat) (new : list value),
           (pos <= length (variables p))%nat
           /\ (length new <= option_or options max_growth_size 5)%nat
           /\ Forall (rounded_value (algorithm this)) new
           /\ variables c
              = indexed (take pos (toArray p) ++ new ++ drop pos (toArray p)))
         ps children.
Proof.
  intros Hr Hord Hp Hne.
  edestruct (applyGeneticOperators_rel random this parents "growth_mutation"
               options w ps) as (children & w' & Hrun & Hh & _ & _ & Hall);
    [|done..|].
  2:{ exists children, w'. split; [done|]. split; [done|]. exact Hall. }
  intros i p w0 Hi.
  destruct (splice_child random (algorithm this) ps "growth_mutation" options
              i p w0 Hr Hi ltac:(right; by left))
    as (pos & removed & new & w1 & Hrun & Hh & Ho & Hs & Hz & Hn & Hnew).
  eexists _, w1. split; [exact Hrun|]. cbn [oid variables].
  split; [done|]. split; [done|]. split; [done|].
  cbn in Hz. assert (removed = 0%nat) as -> by lia. rewrite Nat.add_0_r.
  exists pos, new. split; [done|]. split; [exact Hn|]. split; [by apply Hnew|done].
Qed.

Lemma growth_mutation_inserts_a_block_witness :
  unit_range (replay [1 # 2; 1 # 4; 3 # 4]%Q)
  /\ ((interval real_xy).1 <= (interval real_xy).2)%Q
  /\ exists children w',
       applyGeneticOperators (replay [1 # 2; 1 # 4; 3 # 4]%Q)
         (mkPopulation real_xy 0) (Some 0%nat) "growth_mutation" None
         (mkWorld [[Obj parent_xy]] 1 0)
       = Return 1%nat w'
       /\ heap w' = [[Obj parent_xy]; Obj <$> children]
       /\ length children = 1%nat.
Proof.
  assert (Hr : unit_range (replay [1 # 2; 1 # 4; 3 # 4]%Q)).
  { apply replay_unit_range. repeat constructor; lra. }
  assert (Hord : ((interval real_xy).1 <= (interval real_xy).2)%Q)
    by (simpl; lra).
  split; [exact Hr|]. split; [exact Hord|].
  destruct (growth_mutation_inserts_a_block (replay [1 # 2; 1 # 4; 3 # 4]%Q)
              (mkPopulation real_xy 0) 0 None (mkWorld [[Obj parent_xy]] 1 0)
              [parent_xy] Hr Hord eq_refl ltac:(discriminate))
    as (children & w' & Hrun & Hh & Hall).
  exists children, w'. split; [exact Hrun|]. split; [exact Hh|].
  symmetry. exact (Forall2_length _ _ _ Hall).
Defined.

(** X14.  The replace mutation takes at most [max_replace_size] adjacent
    values out of the values of the parent and puts at most
    [max_insert_size] new ones in their place; the new values are rounded
    integers between the rounded bounds, whatever the coding. *)
Theorem replace_mutation_replaces_a_block
    (random : nat -> Q) (this : EAPopulation) (parents : addr)
    (options : option Options) (w : World) (ps : list EAIndividual) :
  unit_range random ->
  ((interval (algorithm this)).1 <= (interval (algorithm this)).2)%Q ->
  heap w !! parents = Some (Obj <$> ps) ->
  ps <> [] ->
  exists children w',
    applyGeneticOperators random this (Some parents) "replace_mutation" options w
    = Return (length (heap w)) w'
    /\ heap w' = heap w ++ [Obj <$> children]
    /\ Forall2 (fun p c =>
         exists (start size : nat) (new : list value),
           (start <= length (variables p))%nat
           /\ (size <= option_or options max_replace_size 5)%nat
           /\ (length new <= option_or options max_insert_size 5)%nat
           /\ Forall (rounded_value (algorithm this)) new
           /\ variables c
              = indexed (take start (toArray p) ++ new
                         ++ drop (start + size) (toArray p)))
         ps children.
Proof.
  intros Hr Hord Hp Hne.
  edestruct (applyGeneticOperators_rel random this parents "replace_mutation"
               options w ps) as (children & w' & Hrun & Hh & _ & _ & Hall);
    [|done..|].
  2:{ exists children, w'. split; [done|]. split; [done|]. exact Hall. }
  intros i p w0 Hi.
  destruct (splice_child random (algorithm this) ps "replace_mutation" options
              i p w0 Hr Hi ltac:(right; by right))
    as (start & size & new & w1 & Hrun & Hh & Ho & Hs & Hz & Hn & Hnew).
  eexists _, w1. split; [exact Hrun|]. cbn [oid variables].
  split; [done|]. split; [done|]. split; [done|].
  exists start, size, new. split; [done|]. split; [exact Hz|].
  split; [exact Hn|]. split; [by apply Hnew|done].
Qed.

Lemma replace_mutation_replaces_a_block_witness :
  unit_range (replay [1 # 2; 1 # 4; 1 # 4; 3 # 4]%Q)
  /\ ((interval real_xy).1 <= (interval real_xy).2)%Q
  /\ exists children w',
       applyGeneticOperators (replay [1 # 2; 1 # 4; 1 # 4; 3 # 4]%Q)
         (mkPopulation real_xy 0) (Some 0%nat) "replace_mutation" None
         (mkWorld [[Obj parent_xy]] 1 0)
       = Return 1%nat w'
       /\ heap w' = [[Obj parent_xy]; Obj <$> children]
       /\ length children = 1%nat.
Proof.
  assert (Hr : unit_range (replay [1 # 2; 1 # 4; 1 # 4; 3 # 4]%Q)).
  { apply replay_unit_range. repeat constructor; lra. }
  assert (Hord : ((interval real_xy).1 <= (interval real_xy).2)%Q)
    by (simpl; lra).
  split; [exact Hr|]. split; [exact Hord|].
  destruct (replace_mutation_replaces_a_block
              (replay [1 # 2; 1 # 4; 1 # 4; 3 # 4]%Q)
              (mkPopulation real_xy 0) 0 None (mkWorld [[Obj parent_xy]] 1 0)
              [parent_xy] Hr Hord eq_refl ltac:(discriminate))
    as (children & w' & Hrun & Hh & Hall).
  exists children, w'. split; [exact Hrun|]. split; [exact Hh|].
  symmetry. exact (Forall2_length _ _ _ Hall).
Defined.

(** Under the coding ['REAL'] with the interval [[1/5, 2/5]], the growth
    mutation inserts the integer 0, which is outside the interval. *)
Example growth_mutation_rounds_under_real :
  exists a w' child,
    applyGeneticOperators (replay [0; 1 # 5; 1 # 2]%Q)
      (mkPopulation (mkEA [Name "x"] (1 # 5, 2 # 5)%Q "REAL" sum_of_variables false) 0)
      (Some 0%nat) "growth_mutation" None (mkWorld [[Obj parent_x]] 1 0)
    = Return a w'
    /\ heap w' !! a = Some [Obj child]
    /\ variables child = [(Idx 0, VNum 0); (Idx 1, VNum 3)].
Proof. do 3 eexists. split; [vm_compute; reflexivity|]. split; reflexivity. Qed.

(** ** Variation: the swap mutation *)

Lemma fill_in_order (g : key -> value) (keys pre : list key) :
  StronglySorted key_after (pre ++ keys) ->
  foldl (fun o k => obj_set k (g k) o) ((fun k => (k, g k)) <$> pre) keys
  = (fun k => (k, g k)) <$> (pre ++ keys).
Proof.
  revert pre. induction keys as [|k keys IH]; intros pre Hs.
  - by rewrite app_nil_r.
  - cbn [foldl]. rewrite obj_set_last.
    + replace (((fun k0 => (k0, g k0)) <$> pre) ++ [(k, g k)])
        with ((fun k0 => (k0, g k0)) <$> (pre ++ [k])) by (by rewrite fmap_app).
      replace (pre ++ k :: keys) with ((pre ++ [k]) ++ keys) in * 
        by (by rewrite <- app_assoc).
      by apply IH.
    + apply Forall_fmap, Forall_forall. intros k' Hk'. simpl.
      eapply StronglySorted_app_1_elem_of; [exact Hs|done|apply list_elem_of_here].
Qed.

Lemma copy_child (vars : list key) (data : individual_data) (f : object -> Q)
    (w : World) :
  StronglySorted key_after vars ->
  new_EAIndividual vars (generate_copy data) f w
  = Return (mkIndividual (oids w) ((fun k => (k, data_read data k)) <$> vars)
              (f ((fun k => (k, data_read data k)) <$> vars)))
      (mkWorld (heap w) (S (oids w)) (draws w)).
Proof.
  intros Hs. unfold new_EAIndividual. rewrite run_bind. unfold fresh_oid at 1.
  rewrite run_bind, fill_copy. unfold mret, M_ret.
  pose proof (fill_in_order (data_read data) vars [] Hs) as Hfill.
  cbn [app fmap list_fmap] in Hfill. by rewrite Hfill.
Qed.

Lemma swap_getVariables random (this : EA) (ps : list EAIndividual)
    (options : option Options) (i : nat) (p : EAIndividual) (w : World) :
  ps !! i = Some p ->
  exists data,
    getVariables random this (Obj <$> ps) "swap_mutation" options i w
    = Return (Object_keys (variables p), DataArray data)
        (mkWorld (heap w) (oids w) (S (S (S (draws w))))).
Proof.
  intros Hp. unfold getVariables, parent_of.
  rewrite (arr_get_Obj _ _ _ Hp), run_bind.
  change (@mret M _ _ p w) with (Return p w). cbv beta iota zeta. eval_method.
  unfold round_random. rewrite !run_bind. unfold Math_random at 1.
  unfold mret at 1, M_ret at 1. rewrite !run_bind. unfold Math_random at 1.
  unfold mret at 1, M_ret at 1. rewrite !run_bind. unfold Math_random at 1.
  unfold mret at 1, M_ret at 1. cbn [heap oids draws].
  destruct (Array_splice (toArray p) _ _ _) as [data1 data].
  destruct (Array_splice data _ _ _) as [removed data'].
  by exists data'.
Qed.

(** X15.  The swap mutation keeps the keys of the parent but reads the
    child's values from an array.  For a parent whose variables have names
    that mean nothing to an array (not an index, not [length], not a
    property that arrays inherit), each read gives [undefined]: the child
    has the parent's variables, all [undefined], for all draws and all
    sizes. *)
Theorem swap_mutation_of_named_variables
    (random : nat -> Q) (this : EAPopulation) (parents : addr)
    (options : option Options) (w : World) (ps : list EAIndividual) :
  heap w !! parents = Some (Obj <$> ps) ->
  ps <> [] ->
  Forall (fun p => is_object (variables p)
                   /\ Forall (fun k => plain_name k = true)
                             (Object_keys (variables p))) ps ->
  exists children w',
    applyGeneticOperators random this (Some parents) "swap_mutation" options w
    = Return (length (heap w)) w'
    /\ heap w' = heap w ++ [Obj <$> children]
    /\ Forall2 (fun p c =>
         variables c = (fun k => (k, VUndefined)) <$> Object_keys (variables p)
         /\ fitness c = fitnessFunction (algorithm this) (variables c))
         ps children.
Proof.
  intros Hp Hne Hnames.
  edestruct (applyGeneticOperators_rel random this parents "swap_mutation"
               options w ps) as (children & w' & Hrun & Hh & _ & _ & Hall);
    [|done..|].
  2:{ exists children, w'. split; [done|]. split; [done|]. exact Hall. }
  intros i p w0 Hi.
  destruct (proj1 (Forall_forall _ _) Hnames p (list_elem_of_lookup_2 _ _ _ Hi))
    as [Hobj Hn].
  unfold make_child. rewrite run_bind.
  destruct (swap_getVariables random (algorithm this) ps options i p w0 Hi)
    as (data & ->).
  unfold generateFunction. eval_method.
  rewrite copy_child by exact Hobj.
  assert (Hund : (fun k => (k, data_read (DataArray data) k))
                   <$> Object_keys (variables p)
                 = (fun k => (k, VUndefined)) <$> Object_keys (variables p)).
  { apply list_fmap_ext. intros j k Hk.
    rewrite Forall_forall in Hn.
    specialize (Hn k (list_elem_of_lookup_2 _ _ _ Hk)).
    destruct k as [i'|s]; [done|]. cbn [data_read data_get plain_name] in *.
    destruct (index_of_name s); [done|].
    apply andb_true_iff in Hn as [Hlen Hinh].
    apply negb_true_iff in Hlen, Hinh. by rewrite Hlen, Hinh. }
  rewrite Hund. eexists _, _. split; [done|].
  cbn [heap oids draws oid variables fitness]. repeat split; done.
Qed.

Lemma swap_mutation_of_named_variables_witness :
  Forall (fun p => is_object (variables p)
                   /\ Forall (fun k => plain_name k = true)
                             (Object_keys (variables p))) [parent_xy]
  /\ exists children w',
       applyGeneticOperators (replay [1 # 2; 1 # 4; 3 # 4]%Q)
         (mkPopulation real_xy 0) (Some 0%nat) "swap_mutation" None
         (mkWorld [[Obj parent_xy]] 1 0)
       = Return 1%nat w'
       /\ heap w' = [[Obj parent_xy]; Obj <$> children]
       /\ Forall2 (fun p c =>
            variables c = (fun k => (k, VUndefined)) <$> Object_keys (variables p)
            /\ fitness c = sum_of_variables (variables c))
            [parent_xy] children.
Proof.
  assert (Hn : Forall (fun p => is_object (variables p)
                                /\ Forall (fun k => plain_name k = true)
                                          (Object_keys (variables p)))
                      [parent_xy]).
  { repeat constructor. }
  split; [exact Hn|].
  destruct (swap_mutation_of_named_variables (replay [1 # 2; 1 # 4; 3 # 4]%Q)
              (mkPopulation real_xy 0) 0 None (mkWorld [[Obj parent_xy]] 1 0)
              [parent_xy] eq_refl ltac:(discriminate) Hn)
    as (children & w' & Hrun & Hh & Hall).
  exists children, w'. split; [exact Hrun|]. split; [exact Hh|exact Hall].
Defined.

(** A variable named [length] reads the length of the array of values, and
    one named [map] the function that arrays inherit. *)
Example swap_mutation_of_a_variable_named_length :
  exists a w' child,
    applyGeneticOperators (replay [1 # 2; 1 # 4; 3 # 4]%Q)
      (mkPopulation real_x 0) (Some 0%nat) "swap_mutation" None
      (mkWorld [[Obj (mkIndividual 0 [(Name "length", VNum 3)] 3)]] 1 0)
    = Return a w'
    /\ heap w' !! a = Some [Obj child]
    /\ variables child = [(Name "length", VNum 1)].
Proof. do 3 eexists. split; [vm_compute; reflexivity|]. split; reflexivity. Qed.

Example swap_mutation_of_a_variable_named_map :
  exists a w' child,
    applyGeneticOperators (replay [1 # 2; 1 # 4; 3 # 4]%Q)
      (mkPopulation real_x 0) (Some 0%nat) "swap_mutation" None
      (mkWorld [[Obj (mkIndividual 0 [(Name "map", VNum 4)] 4)]] 1 0)
    = Return a w'
    /\ heap w' !! a = Some [Obj child]
    /\ variables child = [(Name "map", VInherited "map")].
Proof. do 3 eexists. split; [vm_compute; reflexivity|]. split; reflexivity. Qed.

Lemma Array_slice_nat {A} (l : list A) (a b : nat) :
  (a <= b)%nat -> (b <= length l)%nat ->
  Array_slice l (Z.of_nat a) (Z.of_nat b) = take (b - a) (drop a l).
Proof.
  intros Hab Hb. unfold Array_slice, rel_index. cbv zeta.
  destruct (Z.ltb_spec (Z.of_nat a) 0) as [?|_]; [lia|].
  destruct (Z.ltb_spec (Z.of_nat b) 0) as [?|_]; [lia|].
  rewrite !Z.min_l by lia. rewrite Nat2Z.id. f_equal. lia.
Qed.

Lemma Array_splice_removed {A} (l : list A) (s dc : nat) (items : list A) :
  (s + dc <= length l)%nat ->
  (Array_splice l (Z.of_nat s) (Z.of_nat dc) items).1 = take dc (drop s l).
Proof.
  intros Hs. unfold Array_splice, rel_index. cbv zeta. cbn [fst].
  destruct (Z.ltb_spec (Z.of_nat s) 0) as [?|_]; [lia|].
  rewrite (Z.min_l (Z.of_nat s)) by lia. rewrite Nat2Z.id. f_equal. lia.
Qed.

Lemma indexed_keys (data : list value) :
  Object_keys (indexed data) = Idx <$> range (length data).
Proof.
  unfold Object_keys, indexed, range. rewrite fmap_imap.
  exact (imap_seq data Idx 0).
Qed.

Lemma length_swap_blocks (l : list value) (pos1 pos2 size : nat) :
  (pos1 <= pos2)%nat -> (pos2 + size <= length l)%nat ->
  length (swap_blocks l pos1 pos2 size) = length l.
Proof.
  intros H1 H2. unfold swap_blocks. cbv zeta.
  rewrite !length_app, !length_take, !length_drop, !length_app, !length_take,
    !length_drop.
  lia.
Qed.

Lemma swap_blocks_exchange (A B1 C B2 D : list value) :
  length B1 = length B2 ->
  swap_blocks (A ++ B1 ++ C ++ B2 ++ D) (length A) (length A + length B1 + length C)
              (length B1)
  = A ++ B2 ++ C ++ B1 ++ D.
Proof.
  intros Hlen. unfold swap_blocks. cbv zeta.
  assert (H2 : take (length B1)
                 (drop (length A + length B1 + length C) (A ++ B1 ++ C ++ B2 ++ D))
               = B2).
  { rewrite <- !Nat.add_assoc, drop_app_add, drop_app_add, drop_app_length.
    by apply take_app_length'. }
  assert (H1 : take (length B1) (drop (length A) (A ++ B1 ++ C ++ B2 ++ D)) = B1).
  { by rewrite drop_app_length, take_app_length. }
  rewrite H1, H2, take_app_length, drop_app_add, drop_app_length.
  assert (Ht : take (length A + length B1 + length C) (A ++ B2 ++ C ++ B2 ++ D)
               = A ++ B2 ++ C).
  { rewrite <- !Nat.add_assoc, take_app_add, Hlen, take_app_add.
    by rewrite take_app_length. }
  assert (Hd : drop (length A + length B1 + length C + length B1)
                 (A ++ B2 ++ C ++ B2 ++ D) = D).
  { rewrite <- !Nat.add_assoc, drop_app_add, Hlen, drop_app_add, drop_app_add.
    by rewrite drop_app_length. }
  rewrite Ht, Hd. by rewrite <- !app_assoc.
Qed.

Lemma swap_getVariables_indices random (this : EA) (ps : list EAIndividual)
    (options : option Options) (i : nat) (p : EAIndividual) (w : World) :
  unit_range random ->
  ps !! i = Some p ->
  (option_or options max_swap_size 5 <= length (variables p))%nat ->
  exists (size pos1 pos2 : nat) w',
    getVariables random this (Obj <$> ps) "swap_mutation" options i w
    = Return (Object_keys (variables p),
              DataArray (swap_blocks (toArray p) pos1 pos2 size))
        w'
    /\ heap w' = heap w /\ oids w' = oids w
    /\ (size <= option_or options max_swap_size 5)%nat
    /\ (pos1 <= pos2)%nat /\ (pos2 + size <= length (variables p))%nat.
Proof.
  intros Hr Hp Hmax. unfold getVariables, parent_of.
  rewrite (arr_get_Obj _ _ _ Hp), run_bind.
  change (@mret M _ _ p w) with (Return p w). cbv beta iota zeta. eval_method.
  assert (Hk : length (Object_keys (variables p)) = length (variables p))
    by (unfold Object_keys; apply length_fmap).
  rewrite !Hk.
  assert (Hlen : length (toArray p) = length (variables p))
    by (unfold toArray; by rewrite length_fmap).
  rewrite run_bind.
  destruct (round_random_run random (option_or options max_swap_size 5) w Hr)
    as (size & -> & Hsize).
  rewrite run_bind. cbn [heap oids draws].
  replace (inject_Z (Z.of_nat (length (variables p)) - Z.of_nat size))
    with (Qnat (length (variables p) - size))
    by (unfold Qnat; f_equal; lia).
  destruct (round_random_run random (length (variables p) - size)
              (mkWorld (heap w) (oids w) (S (draws w))) Hr) as (pos1 & -> & Hpos1).
  rewrite run_bind. cbn [heap oids draws].
  replace (inject_Z (Z.of_nat (length (variables p)) - Z.of_nat size - Z.of_nat pos1))
    with (Qnat (length (variables p) - size - pos1))
    by (unfold Qnat; f_equal; lia).
  destruct (round_random_run random (length (variables p) - size - pos1)
              (mkWorld (heap w) (oids w) (S (S (draws w)))) Hr) as (off & -> & Hoff).
  cbn [heap oids draws].
  replace (Z.min (Z.of_nat off + Z.of_nat pos1)
                 (Z.of_nat (length (variables p)) - Z.of_nat size))
    with (Z.of_nat (off + pos1)) by lia.
  replace (Z.of_nat (off + pos1) + Z.of_nat size)%Z
    with (Z.of_nat (off + pos1 + size)) by lia.
  rewrite Array_slice_nat by lia.
  replace (off + pos1 + size - (off + pos1))%nat with size by lia.
  pose proof (Array_splice_removed (toArray p) pos1 size
                (take size (drop (off + pos1) (toArray p))) ltac:(lia)) as Hrem.
  pose proof (Array_splice_nat (toArray p) pos1 size
                (take size (drop (off + pos1) (toArray p))) ltac:(lia)) as Hleft.
  destruct (Array_splice (toArray p) (Z.of_nat pos1) (Z.of_nat size) _)
    as [data1 data]. cbn [fst snd] in Hrem, Hleft. subst data1 data.
  set (l1 := take pos1 (toArray p) ++ _ ++ drop (pos1 + size) (toArray p)).
  assert (Hl1 : length l1 = length (variables p)).
  { unfold l1. rewrite !length_app, !length_take, !length_drop. lia. }
  pose proof (Array_splice_nat l1 (off + pos1) size
                (take size (drop pos1 (toArray p))) ltac:(lia)) as Hfinal.
  destruct (Array_splice l1 (Z.of_nat (off + pos1)) (Z.of_nat size) _)
    as [removed data]. cbn [snd] in Hfinal. subst data.
  exists size, pos1, (off + pos1)%nat. eexists. split; [reflexivity|].
  cbn [heap oids]. repeat split; try done; lia.
Qed.

(** X16.  The swap mutation of a parent whose keys are [0 .. len-1] (an
    individual of variable length), for a maximal block size of at most
    [len]: the child has the same keys and as many values, and its values
    are those of the parent after the two [splice] calls for two blocks
    of one size inside the array, the second not before the first.  Two
    blocks that do not overlap are exchanged, so that the child's values
    are the parent's in another order. *)
Theorem swap_mutation_of_indexed_variables
    (random : nat -> Q) (this : EAPopulation) (parents : addr)
    (options : option Options) (w : World) (ps : list EAIndividual) :
  unit_range random ->
  heap w !! parents = Some (Obj <$> ps) ->
  ps <> [] ->
  Forall (fun p => variables p = indexed (toArray p)
                   /\ (option_or options max_swap_size 5
                       <= length (variables p))%nat) ps ->
  (exists children w',
     applyGeneticOperators random this (Some parents) "swap_mutation" options w
     = Return (length (heap w)) w'
     /\ heap w' = heap w ++ [Obj <$> children]
     /\ Forall2 (fun p c =>
          exists size pos1 pos2 : nat,
            (size <= option_or options max_swap_size 5)%nat
            /\ (pos1 <= pos2)%nat /\ (pos2 + size <= length (variables p))%nat
            /\ variables c = indexed (swap_blocks (toArray p) pos1 pos2 size)
            /\ length (variables c) = length (variables p))
          ps children)
  /\ forall A B1 C B2 D : list value,
       length B1 = length B2 ->
       swap_blocks (A ++ B1 ++ C ++ B2 ++ D) (length A)
                   (length A + length B1 + length C) (length B1)
       = A ++ B2 ++ C ++ B1 ++ D.
Proof.
  intros Hr Hp Hne Hidx. split; [|apply swap_blocks_exchange].
  edestruct (applyGeneticOperators_rel random this parents "swap_mutation"
               options w ps) as (children & w' & Hrun & Hh & _ & _ & Hall);
    [|done..|].
  2:{ exists children, w'. split; [done|]. split; [done|]. exact Hall. }
  intros i p w0 Hi.
  destruct (proj1 (Forall_forall _ _) Hidx p (list_elem_of_lookup_2 _ _ _ Hi))
    as [Hvars Hmax].
  assert (Hlen : length (toArray p) = length (variables p))
    by (unfold toArray; by rewrite length_fmap).
  unfold make_child. rewrite run_bind.
  destruct (swap_getVariables_indices random (algorithm this) ps options i p w0
              Hr Hi Hmax)
    as (size & pos1 & pos2 & w1 & -> & Hh & Ho & Hsize & H12 & H2).
  unfold generateFunction. eval_method.
  pose proof (length_swap_blocks (toArray p) pos1 pos2 size H12 ltac:(lia)) as Hsw.
  assert (Hkeys : Object_keys (variables p)
                  = Idx <$> range (length (swap_blocks (toArray p) pos1 pos2 size))).
  { by rewrite Hvars, indexed_keys, Hsw. }
  rewrite Hkeys, structural_child.
  eexists _, _. split; [done|]. cbn [heap oids oid variables].
  split; [done|]. split; [congruence|]. split; [done|].
  exists size, pos1, pos2. repeat split; try done.
  unfold indexed. rewrite length_imap. lia.
Qed.

Lemma swap_mutation_of_indexed_variables_witness :
  unit_range (replay [1 # 2; 1 # 4; 3 # 4]%Q)
  /\ exists children w',
       applyGeneticOperators (replay [1 # 2; 1 # 4; 3 # 4]%Q)
         (mkPopulation real_x 0) (Some 0%nat) "swap_mutation"
         (Some (mkOptions None false None None None (Some 2%nat) None None None None))
         (mkWorld [[Obj (mkIndividual 0 (indexed [VNum 1; VNum 2; VNum 3]) 6)]] 1 0)
       = Return 1%nat w'
       /\ heap w'
          = [[Obj (mkIndividual 0 (indexed [VNum 1; VNum 2; VNum 3]) 6)];
             Obj <$> children]
       /\ length children = 1%nat.
Proof.
  assert (Hr : unit_range (replay [1 # 2; 1 # 4; 3 # 4]%Q)).
  { apply replay_unit_range. repeat constructor; lra. }
  split; [exact Hr|].
  destruct (proj1 (swap_mutation_of_indexed_variables
              (replay [1 # 2; 1 # 4; 3 # 4]%Q) (mkPopulation real_x 0) 0
              (Some (mkOptions None false None None None (Some 2%nat) None None
                               None None))
              (mkWorld [[Obj (mkIndividual 0 (indexed [VNum 1; VNum 2; VNum 3]) 6)]]
                       1 0)
              [mkIndividual 0 (indexed [VNum 1; VNum 2; VNum 3]) 6]
              Hr eq_refl ltac:(discriminate)
              ltac:(repeat constructor; simpl; lia)))
    as (children & w' & Hrun & Hh & Hall).
  exists children, w'. split; [exact Hrun|]. split; [exact Hh|].
  symmetry. exact (Forall2_length _ _ _ Hall).
Defined.

(** Two blocks that overlap are not exchanged: of the values 1, 2, 3 with
    blocks of size 2 at 0 and 1, the value 3 is lost and 2 is there
    twice. *)
Example swap_mutation_overlapping_blocks :
  swap_blocks [VNum 1; VNum 2; VNum 3] 0 1 2 = [VNum 2; VNum 1; VNum 2]
  /\ exists a w' child,
       applyGeneticOperators (replay [3 # 4; 0; 1 # 2]%Q) (mkPopulation real_x 0)
         (Some 0%nat) "swap_mutation"
         (Some (mkOptions None false None None None (Some 2%nat) None None None None))
         (mkWorld [[Obj (mkIndividual 0 (indexed [VNum 1; VNum 2; VNum 3]) 6)]] 1 0)
       = Return a w'
       /\ heap w' !! a = Some [Obj child]
       /\ toArray child = [VNum 2; VNum 1; VNum 2].
Proof.
  split; [reflexivity|]. do 3 eexists.
  split; [vm_compute; reflexivity|]. split; reflexivity.
Qed.

(** ** Variation: the mutations that keep the variables *)

Lemma key_eqb_refl (k : key) : key_eqb k k = true.
Proof. destruct k; simpl; [apply Nat.eqb_refl|apply String.eqb_refl]. Qed.

Lemma obj_get_member (o : object) (k : key) (v : value) :
  is_object o -> (k, v) ∈ o -> obj_get o k = v.
Proof.
  unfold is_object, Object_keys.
  induction o as [|[k' v'] o IH]; intros Hs Hin; [by apply elem_of_nil in Hin|].
  cbn [fmap list_fmap fst] in Hs. apply StronglySorted_inv in Hs as [Hs Hall].
  cbn [obj_get]. apply elem_of_cons in Hin as [[= -> ->]|Hin].
  - by rewrite key_eqb_refl.
  - rewrite Forall_forall in Hall.
    destruct (Hall k) as [-> _]; [|by apply IH].
    change k with (k, v).1. by apply list_elem_of_fmap_2.
Qed.

Lemma Forall2_impl_Forall_l {A B} (R R' : A -> B -> Prop) (S : A -> Prop)
    (l : list A) (k : list B) :
  Forall2 R l k -> Forall S l -> (forall x y, S x -> R x y -> R' x y) ->
  Forall2 R' l k.
Proof.
  intros HR HS Himpl. induction HR as [|x y l k Hxy _ IH]; [constructor|].
  apply Forall_cons in HS as [Hx HS]. constructor; auto.
Qed.

Lemma mutated_positions_run random (len n : nat) (w : World) :
  exists pos w',
    mutated_positions random len n w = Return pos w'
    /\ heap w' = heap w /\ oids w' = oids w.
Proof.
  destruct (succeeds_mutated_positions random len n w) as (pos & w' & Hrun & Hh).
  pose proof (quiet_mutated_positions random len n w) as Hq.
  rewrite Hrun in Hq. exists pos, w'. by destruct Hq.
Qed.

Lemma fill_mutated random (this : EA) (method : string) (n : nat)
    (data : individual_data) (keys : list key) (v : nat) (o : object) (w : World) :
  unit_range random ->
  ((interval this).1 <= (interval this).2)%Q ->
  StronglySorted key_after (Object_keys o ++ keys) ->
  exists news w',
    EAIndividual_fill (generate_mutated random (mutation_value random this method)
                         n data) keys v o w
    = Return (o ++ news) w'
    /\ heap w' = heap w /\ oids w' = oids w
    /\ Forall2 (fun k kv => kv.1 = k
                            /\ (kv.2 = data_read data k
                                \/ generated_value this kv.2))
               keys news.
Proof.
  intros Hr Hord. revert v o w.
  induction keys as [|k keys IH]; intros v o w Hs.
  - exists [], w. simpl. rewrite app_nil_r. repeat split; constructor.
  - cbn [EAIndividual_fill]. rewrite run_bind.
    assert (Hgen : exists x w1,
      generate_mutated random (mutation_value random this method) n data k v w
      = Return x w1
      /\ heap w1 = heap w /\ oids w1 = oids w
      /\ (x = data_read data k \/ generated_value this x)).
    { unfold generate_mutated. rewrite run_bind.
      destruct (mutated_positions_run random (data_length data) n w)
        as (pos & w1 & -> & Hh1 & Ho1).
      destruct (has_position pos v).
      - unfold mutation_value.
        destruct (uniform_value_run random this Hr Hord w1) as (x & -> & Hx).
        exists x. eexists. split; [done|]. cbn [heap oids].
        split; [done|]. split; [done|]. by right.
      - exists (data_read data k), w1. repeat split; try done. by left. }
    destruct Hgen as (x & w1 & -> & Hh1 & Ho1 & Hx).
    rewrite obj_set_last.
    2:{ apply Forall_forall. intros kv Hkv.
        eapply StronglySorted_app_1_elem_of; [exact Hs| |apply list_elem_of_here].
        by apply list_elem_of_fmap_2. }
    destruct (IH (S v) (o ++ [(k, x)]) w1) as (news & w2 & Hrun & Hh2 & Ho2 & Hall).
    { unfold Object_keys in *. rewrite fmap_app, <- app_assoc. exact Hs. }
    exists ((k, x) :: news), w2. rewrite Hrun, <- app_assoc.
    split; [done|]. split; [congruence|]. split; [congruence|].
    constructor; [|done]. by split.
Qed.

(** X17.  The uniform mutation, the extremal mutation and every unknown
    method keep the variables of the parent: the child has the parent's
    keys in the parent's order, and every value is the parent's value or
    a value generated as [initializePopulation] generates them (inside
    the interval, or a rounded integer under ['INT']). *)
Theorem mutation_keeps_the_variables
    (random : nat -> Q) (this : EAPopulation) (parents : addr)
    (method : string) (options : option Options) (w : World)
    (ps : list EAIndividual) :
  unit_range random ->
  ((interval (algorithm this)).1 <= (interval (algorithm this)).2)%Q ->
  is_structural method = false ->
  heap w !! parents = Some (Obj <$> ps) ->
  ps <> [] ->
  Forall (fun p => is_object (variables p)) ps ->
  exists children w',
    applyGeneticOperators random this (Some parents) method options w
    = Return (length (heap w)) w'
    /\ heap w' = heap w ++ [Obj <$> children]
    /\ Forall2 (fun p c =>
         Forall2 (fun pv cv =>
                    cv.1 = pv.1
                    /\ (cv.2 = pv.2 \/ generated_value (algorithm this) cv.2))
                 (variables p) (variables c))
         ps children.
Proof.
  intros Hr Hord Hm Hp Hne Hobj.
  edestruct (applyGeneticOperators_rel random this parents method options w ps)
    as (children & w' & Hrun & Hh & _ & _ & Hall); [|done..|].
  2:{ exists children, w'. split; [done|]. split; [done|]. exact Hall. }
  intros i p w0 Hi.
  pose proof (proj1 (Forall_forall _ _) Hobj p (list_elem_of_lookup_2 _ _ _ Hi))
    as Hsorted.
  unfold make_child, getVariables, parent_of.
  rewrite (arr_get_Obj _ _ _ Hi), run_bind, run_bind.
  change (@mret M _ _ p w0) with (Return p w0). cbv beta iota zeta.
  unfold is_structural in Hm. apply orb_false_iff in Hm as [Hm Hm4].
  apply orb_false_iff in Hm as [Hm Hm3]. apply orb_false_iff in Hm as [Hm1 Hm2].
  rewrite Hm1, Hm2, Hm3, Hm4. unfold mret at 1, M_ret at 1.
  unfold generateFunction, is_structural. rewrite Hm1, Hm2, Hm3, Hm4. cbn [orb].
  unfold new_EAIndividual. rewrite run_bind. unfold fresh_oid at 1.
  rewrite run_bind.
  destruct (fill_mutated random (algorithm this) method
              (option_or options number_of_mutated_values 1)
              (DataObject (variables p)) (Object_keys (variables p)) 0 []
              (mkWorld (heap w0) (S (oids w0)) (draws w0)) Hr Hord Hsorted)
    as (news & w1 & -> & Hh1 & Ho1 & Hnews).
  unfold mret, M_ret. eexists _, w1. split; [done|].
  cbn [oid variables app]. split; [done|]. split; [done|]. split; [done|].
  unfold Object_keys in Hnews. apply Forall2_fmap_l in Hnews.
  apply (Forall2_impl_Forall_l _ _ (fun pv => pv ∈ variables p) _ _ Hnews).
  - by apply Forall_forall.
  - intros [k v] [k' v'] Hin [Hk Hv]. simpl in *. split; [done|].
    destruct Hv as [->|Hv]; [left|by right].
    by apply obj_get_member.
Qed.

Lemma mutation_keeps_the_variables_witness :
  unit_range (replay [0; 1 # 4; 1 # 2; 3 # 4]%Q)
  /\ ((interval real_xy).1 <= (interval real_xy).2)%Q
  /\ Forall (fun p => is_object (variables p)) [parent_xy]
  /\ exists children w',
       applyGeneticOperators (replay [0; 1 # 4; 1 # 2; 3 # 4]%Q)
         (mkPopulation real_xy 0) (Some 0%nat) "extremal_mutation" None
         (mkWorld [[Obj parent_xy]] 1 0)
       = Return 1%nat w'
       /\ heap w' = [[Obj parent_xy]; Obj <$> children]
       /\ length children = 1%nat.
Proof.
  assert (Hr : unit_range (replay [0; 1 # 4; 1 # 2; 3 # 4]%Q)).
  { apply replay_unit_range. repeat constructor; lra. }
  assert (Hord : ((interval real_xy).1 <= (interval real_xy).2)%Q)
    by (simpl; lra).
  assert (Hobj : Forall (fun p => is_object (variables p)) [parent_xy]).
  { repeat constructor. }
  split; [exact Hr|]. split; [exact Hord|]. split; [exact Hobj|].
  destruct (mutation_keeps_the_variables (replay [0; 1 # 4; 1 # 2; 3 # 4]%Q)
              (mkPopulation real_xy 0) 0 "extremal_mutation" None
              (mkWorld [[Obj parent_xy]] 1 0) [parent_xy]
              Hr Hord eq_refl eq_refl ltac:(discriminate) Hobj)
    as (children & w' & Hrun & Hh & Hall).
  exists children, w'. split; [exact Hrun|]. split; [exact Hh|].
  symmetry. exact (Forall2_length _ _ _ Hall).
Defined.

(** ** Variation on an array that holds something else *)

Lemma make_child_same_parent random this (ps ps' : jsarray) method options (i : nat) :
  arr_get ps (Z.of_nat i) = arr_get ps' (Z.of_nat i) ->
  make_child random this ps method options i
  = make_child random this ps' method options i.
Proof.
  intros Hget. unfold make_child, getVariables, parent_of. by rewrite Hget.
Qed.

Lemma arr_get_app_l (a b : jsarray) (i : nat) :
  (i < length a)%nat -> arr_get (a ++ b) (Z.of_nat i) = arr_get a (Z.of_nat i).
Proof.
  intros Hi. unfold arr_get. rewrite Nat2Z.id. by rewrite lookup_app_l.
Qed.

Lemma variation_loop_TypeError random this (pre : list EAIndividual) (s : slot)
    (rest : jsarray) method options :
  (forall x, s <> Obj x) ->
  forall (k i : nat) (children : jsarray) (w : World),
    (i <= length pre)%nat -> (length pre < i + k)%nat ->
    for_range i k
      (fun i children =>
         '(vars, data) ← getVariables random this ((Obj <$> pre) ++ s :: rest)
                           method options i;
         child ← new_EAIndividual vars
                   (generateFunction random this method options data)
                   (fitnessFunction this);
         mret (arr_set children i (Obj child)))
      children w
    = Throw TypeError.
Proof.
  intros Hs. induction k as [|k IH]; intros i children w Hi Hk; [lia|].
  cbn [for_range]. rewrite run_bind, run_variation_step.
  destruct (decide (i = length pre)) as [->|Hne].
  - unfold make_child, getVariables, parent_of, arr_get.
    destruct (Z.ltb_spec (Z.of_nat (length pre)) 0) as [?|_]; [lia|].
    rewrite Nat2Z.id, lookup_app_r by (by rewrite length_fmap).
    rewrite length_fmap, Nat.sub_diag. cbn [lookup list_lookup].
    destruct s as [| |x]; [done..|]. by destruct (Hs x).
  - rewrite (make_child_same_parent _ _ _ (Obj <$> pre)).
    2:{ apply arr_get_app_l. rewrite length_fmap. lia. }
    destruct (lookup_lt_is_Some_2 pre i ltac:(lia)) as [p Hp].
    destruct (make_child_fresh random this pre method options i p w Hp)
      as (c & w1 & -> & _).
    apply IH; lia.
Qed.

(** X18.  An array of parents that holds anything but individuals (an
    [undefined] from a roulette draw, or a hole left by a remainder
    method) makes every method of [applyGeneticOperators] raise a
    [TypeError] when it reaches that position; no array of children is
    returned. *)
Theorem applyGeneticOperators_TypeError
    (random : nat -> Q) (this : EAPopulation) (parents : addr)
    (method : string) (options : option Options) (w : World)
    (pre : list EAIndividual) (s : slot) (rest : jsarray) :
  heap w !! parents = Some ((Obj <$> pre) ++ s :: rest) ->
  (forall x, s <> Obj x) ->
  applyGeneticOperators random this (Some parents) method options w
  = Throw TypeError.
Proof.
  intros Hp Hs. unfold applyGeneticOperators.
  rewrite run_bind, (run_read _ _ _ Hp).
  assert (Hlen : length ((Obj <$> pre) ++ s :: rest) = S (length pre + length rest)).
  { rewrite length_app, length_fmap. simpl. lia. }
  rewrite Hlen. change (S (length pre + length rest) =? 0)%nat with false.
  cbv iota. rewrite run_bind.
  rewrite (variation_loop_TypeError random (algorithm this) pre s rest method
             options Hs); [done|lia..].
Qed.

Lemma applyGeneticOperators_TypeError_witness :
  applyGeneticOperators (replay [1 # 2; 1 # 4]%Q) (mkPopulation real_x 0)
    (Some 1%nat) "uniform_mutation" None
    (mkWorld [[Obj weak]; [Obj weak; Undefined]] 4 0)
  = Throw TypeError.
Proof.
  apply (applyGeneticOperators_TypeError (replay [1 # 2; 1 # 4]%Q)
           (mkPopulation real_x 0) 1 "uniform_mutation" None
           (mkWorld [[Obj weak]; [Obj weak; Undefined]] 4 0) [weak] Undefined []
           eq_refl).
  intros x. discriminate.
Defined.

(** ** The individuals of an initial population *)

Lemma fill_keys (g : key -> nat -> M value) (keys : list key) (v : nat)
    (o : object) (w : World) :
  (forall variable k, quiet (g variable k)) ->
  (forall variable k, succeeds (g variable k)) ->
  StronglySorted key_after (Object_keys o ++ keys) ->
  exists news w',
    EAIndividual_fill g keys v o w = Return (o ++ news) w'
    /\ heap w' = heap w /\ oids w' = oids w /\ Object_keys news = keys.
Proof.
  intros Hq Hsuc. revert v o w.
  induction keys as [|k keys IH]; intros v o w Hs.
  - exists [], w. simpl. by rewrite app_nil_r.
  - cbn [EAIndividual_fill]. rewrite run_bind.
    destruct (Hsuc k v w) as (x & w1 & Hrun1 & Hh1).
    pose proof (Hq k v w) as Ho1. rewrite Hrun1 in Ho1. destruct Ho1 as [_ Ho1].
    rewrite Hrun1, obj_set_last.
    2:{ apply Forall_forall. intros kv Hkv.
        eapply StronglySorted_app_1_elem_of; [exact Hs| |apply list_elem_of_here].
        by apply list_elem_of_fmap_2. }
    destruct (IH (S v) (o ++ [(k, x)]) w1) as (news & w2 & Hrun & Hh2 & Ho2 & Hk).
    { unfold Object_keys in *. rewrite fmap_app, <- app_assoc. exact Hs. }
    exists ((k, x) :: news), w2. rewrite Hrun, <- app_assoc.
    split; [done|]. split; [congruence|]. split; [congruence|].
    unfold Object_keys in *. cbn [fmap list_fmap fst]. by rewrite Hk.
Qed.

Lemma new_EAIndividual_keys (g : key -> nat -> M value) (keys : list key)
    (f : object -> Q) (w : World) :
  (forall variable k, quiet (g variable k)) ->
  (forall variable k, succeeds (g variable k)) ->
  StronglySorted key_after keys ->
  exists o w',
    new_EAIndividual keys g f w = Return (mkIndividual (oids w) o (f o)) w'
    /\ heap w' = heap w /\ oids w' = S (oids w) /\ Object_keys o = keys.
Proof.
  intros Hq Hsuc Hs. unfold new_EAIndividual.
  rewrite run_bind. unfold fresh_oid at 1. rewrite run_bind.
  destruct (fill_keys g keys 0 [] (mkWorld (heap w) (S (oids w)) (draws w))
              Hq Hsuc Hs) as (o & w' & -> & Hh & Ho & Hk).
  by exists o, w'.
Qed.

Lemma sorted_range (k : nat) : StronglySorted key_after (Idx <$> range k).
Proof.
  unfold range. generalize 0%nat. induction k as [|k IH]; intros j; [constructor|].
  cbn [seq fmap list_fmap]. constructor; [apply IH|].
  apply Forall_fmap, Forall_forall. intros i Hi. apply elem_of_seq in Hi.
  split; simpl; [apply Nat.eqb_neq|apply Nat.ltb_ge]; lia.
Qed.

Lemma indexed_of_keys (o : object) (k : nat) :
  Object_keys o = Idx <$> range k -> o = indexed (o.*2) /\ length o = k.
Proof.
  intros Hk.
  assert (Hlen : length o = k).
  { apply (f_equal length) in Hk. unfold Object_keys, range in Hk.
    by rewrite !length_fmap, length_seq in Hk. }
  split; [|done]. apply list_eq. intros i. unfold indexed.
  rewrite list_lookup_imap, list_lookup_fmap.
  destruct (o !! i) as [[k' v']|] eqn:E; [|done]. cbn [fmap option_fmap option_map snd].
  assert (Hi : Object_keys o !! i = Some k').
  { unfold Object_keys. by rewrite list_lookup_fmap, E. }
  rewrite Hk in Hi. unfold range in Hi. rewrite list_lookup_fmap in Hi.
  rewrite lookup_seq_lt in Hi by (apply lookup_lt_Some in E; lia).
  by injection Hi as <-.
Qed.

Lemma random_length (r : Q) :
  (0 <= r)%Q -> (r < 1)%Q -> (Z.to_nat (Math_round (r * 100)) <= 100)%nat.
Proof.
  intros H0 H1.
  pose proof (Math_round_mono (r * 100) (inject_Z 100)
                ltac:(change (inject_Z 100) with 100%Q; lra)) as Hhi.
  rewrite Math_round_Z in Hhi. lia.
Qed.

(** The loop of [initializePopulation], for what every new individual
    is. *)
Lemma populate_created random (this : EA) (population : EAPopulation)
    (n fuel : nat) (w : World) (xs : list EAIndividual) :
  unit_range random ->
  variable_individual_length this = true
  \/ StronglySorted key_after (EA_variables this) ->
  heap w !! individuals population = Some (Obj <$> xs) ->
  (n <= length xs + fuel)%nat ->
  exists w' ys,
    populate random fuel this population n w = Return tt w'
    /\ heap w' = <[individuals population := Obj <$> (xs ++ ys)]> (heap w)
    /\ length ys = (n - length xs)%nat
    /\ oids w' = (oids w + length ys)%nat
    /\ oid <$> ys = seq (oids w) (length ys)
    /\ Forall (created_by this) ys.
Proof.
  intros Hr Hnames. revert w xs. induction fuel as [|fuel IH]; intros w xs Ha Hfuel.
  - exists w, []. rewrite app_nil_r.
    assert (Hc : count population w = Return (length xs) w).
    { unfold count. rewrite run_bind, (run_read _ _ _ Ha). by rewrite length_fmap. }
    simpl. rewrite run_bind, Hc.
    destruct (Nat.ltb_spec (length xs) n) as [?|?]; [lia|].
    split; [done|]. split; [by rewrite list_insert_id|].
    repeat split; try constructor; lia.
  - assert (Hc : count population w = Return (length xs) w).
    { unfold count. rewrite run_bind, (run_read _ _ _ Ha). by rewrite length_fmap. }
    simpl. rewrite run_bind, Hc.
    destruct (Nat.ltb_spec (length xs) n) as [Hlt|Hge].
    2:{ exists w, []. rewrite app_nil_r.
        split; [done|]. split; [by rewrite list_insert_id|].
        repeat split; try constructor; simpl; lia. }
    assert (Hvars : exists vars w1,
      (if variable_individual_length this
       then r ← Math_random random;
            mret (Idx <$> range (Z.to_nat (Math_round (r * 100))))
       else mret (EA_variables this)) w = Return vars w1
      /\ heap w1 = heap w /\ oids w1 = oids w
      /\ StronglySorted key_after vars
      /\ if variable_individual_length this
         then exists k, vars = Idx <$> range k /\ (k <= 100)%nat
         else vars = EA_variables this).
    { destruct (variable_individual_length this).
      - do 2 eexists. split; [reflexivity|]. cbn [heap oids].
        split; [done|]. split; [done|]. split; [apply sorted_range|].
        eexists. split; [done|].
        destruct (Hr (draws w)). by apply random_length.
      - do 2 eexists. split; [reflexivity|].
        split; [done|]. split; [done|]. split; [|done].
        by destruct Hnames. }
    destruct Hvars as (vars & w1 & Hvars & Hh1 & Ho1 & Hsorted & Hshape).
    rewrite run_bind, Hvars.
    destruct (new_EAIndividual_keys (fun _ _ => uniform_value random this) vars
                (fitnessFunction this) w1
                (fun _ _ => quiet_uniform_value random this)
                (fun _ _ => succeeds_uniform_value random this) Hsorted)
      as (o & w2 & Hnew & Hh2 & Ho2 & Hkeys).
    rewrite run_bind, Hnew, run_bind.
    unfold push. rewrite run_bind.
    assert (Ha2 : heap w2 !! individuals population = Some (Obj <$> xs))
      by (by rewrite Hh2, Hh1).
    rewrite (run_read _ _ _ Ha2). unfold write.
    set (x := mkIndividual (oids w1) o (fitnessFunction this o)).
    destruct (IH (mkWorld (<[individuals population := (Obj <$> xs) ++ [Obj x]]> (heap w2))
                          (oids w2) (draws w2))
                 (xs ++ [x])) as (w' & ys & Hrun & Hh & Hlen & Ho & Hids & Hall).
    { simpl. rewrite fmap_app. apply list_lookup_insert_eq.
      by eapply lookup_lt_Some. }
    { rewrite length_app. simpl. lia. }
    rewrite length_app in Hlen. simpl in Hlen, Ho, Hids.
    exists w', (x :: ys).
    replace (xs ++ x :: ys) with ((xs ++ [x]) ++ ys) by (by rewrite <- app_assoc).
    split; [exact Hrun|]. split; [|split; [|split; [|split]]].
    + rewrite Hh. simpl. by rewrite list_insert_insert_eq, Hh2, Hh1.
    + simpl. lia.
    + simpl. lia.
    + cbn [fmap list_fmap length seq]. f_equal; [simpl; congruence|].
      change (list_fmap _ _ oid ys) with (oid <$> ys).
      rewrite Hids. f_equal. lia.
    + constructor; [|done]. split; [done|]. subst x. cbn [variables toArray].
      destruct (variable_individual_length this).
      * destruct Hshape as (k & -> & Hk).
        destruct (indexed_of_keys o k Hkeys) as [Hidx Hlen'].
        split; [done|lia].
      * by rewrite Hkeys.
Qed.



(** ** The plus strategy never loses the fittest *)

Lemma option_or_positive (options : option Options) (field : Options -> option nat)
    (d : nat) :
  (0 < d)%nat -> (0 < option_or options field d)%nat.
Proof.
  intros Hd. unfold option_or. destruct options as [o|]; [|done].
  destruct (field o) as [[|k]|]; lia.
Qed.

(** X20.  The plus strategy is elitist: when the population was not
    empty, the first individual of the new population is a parent or a
    child that is at least as fit as every parent and every child; the
    best fitness never goes down from the parents to the new
    population. *)
Theorem plus_strategy_keeps_the_fittest
    (this : EAPopulation) (parents children : addr) (options : option Options)
    (w : World) (inds : jsarray) (ps cs : list EAIndividual) :
  heap w !! individuals this = Some inds ->
  inds <> [] ->
  heap w !! parents = Some (Obj <$> ps) ->
  heap w !! children = Some (Obj <$> cs) ->
  ps ++ cs <> [] ->
  exists best rest,
    replacement this parents children "plus_strategy" options w
    = Return (mkPopulation (algorithm this) (length (heap w)))
        (mkWorld (heap w ++ [Obj <$> (best :: rest)]) (oids w) (draws w))
    /\ best ∈ ps ++ cs
    /\ forall z, z ∈ ps ++ cs -> (fitness z <= fitness best)%Q.
Proof.
  intros Hi Hne Hp Hc Hsome.
  pose proof (option_or_positive options newGenerationSize (length inds)) as Hsize.
  destruct (option_or options newGenerationSize (length inds)) as [|size] eqn:Esize.
  { destruct inds; [done|]. simpl in Hsize. lia. }
  pose proof (sort_by_fitness_Permutation (ps ++ cs)) as Hperm.
  pose proof (sort_by_fitness_sorted (ps ++ cs)) as Hsorted.
  destruct (sort_by_fitness (ps ++ cs)) as [|best tl] eqn:Esort.
  { apply Permutation_nil_l in Hperm. by destruct Hsome. }
  exists best, (take size tl). split; [|split].
  - unfold replacement.
    rewrite run_bind, (run_read _ _ _ Hi). eval_method.
    rewrite run_bind, (run_read _ _ _ Hp), run_bind, (run_read _ _ _ Hc).
    rewrite <- fmap_app, Array_sort_Obj, Array_slice_take, Esize, Esort.
    rewrite fmap_cons, firstn_cons, fmap_cons. by rewrite fmap_take.
  - rewrite <- Hperm. apply list_elem_of_here.
  - intros z Hz. rewrite <- Hperm in Hz.
    apply StronglySorted_inv in Hsorted as [_ Hall].
    apply elem_of_cons in Hz as [->|Hz]; [apply Qle_refl|].
    rewrite Forall_forall in Hall. by apply Hall.
Qed.

Lemma plus_strategy_keeps_the_fittest_witness :
  [Obj weak] <> []
  /\ [weak] ++ [middle; strong] <> []
  /\ exists best rest,
       replacement (mkPopulation real_x 0) 0 1 "plus_strategy" None
         (mkWorld [[Obj weak]; [Obj middle; Obj strong]] 4 0)
       = Return (mkPopulation real_x 2)
           (mkWorld [[Obj weak]; [Obj middle; Obj strong]; Obj <$> (best :: rest)]
                    4 0)
       /\ best ∈ [weak] ++ [middle; strong].
Proof.
  split; [discriminate|]. split; [discriminate|].
  destruct (plus_strategy_keeps_the_fittest (mkPopulation real_x 0) 0 1 None
              (mkWorld [[Obj weak]; [Obj middle; Obj strong]] 4 0)
              [Obj weak] [weak] [middle; strong]
              eq_refl ltac:(discriminate) eq_refl eq_refl ltac:(discriminate))
    as (best & rest & Hrun & Hin & _).
  exists best, rest. split; [exact Hrun|exact Hin].
Defined.

(** ** Random selection from an empty population *)

Lemma random_loop_empty random (len : nat) (k : nat) (vs : jsarray) (w : World) :
  for_range (length vs) k
    (fun i parents =>
       r ← Math_random random;
       mret (arr_set parents i (arr_get [] (Math_floor (r * Qnat len)))))
    (vs ++ replicate k Hole) w
  = Return (vs ++ replicate k Undefined) (mkWorld (heap w) (oids w) (draws w + k)).
Proof.
  revert vs w. induction k as [|k IH]; intros vs w.
  - simpl. by rewrite world_draws_0.
  - cbn [for_range]. rewrite run_bind, run_bind. unfold Math_random at 1.
    unfold mret at 1, M_ret at 1.
    rewrite arr_set_next. replace (S k - 1)%nat with k by lia.
    assert (Hget : arr_get [] (Math_floor (random (draws w) * Qnat len)) = Undefined).
    { unfold arr_get. by destruct (_ <? 0)%Z. }
    rewrite Hget.
    replace (S (length vs)) with (length (vs ++ [Undefined]))
      by (rewrite length_app; simpl; lia).
    rewrite IH. cbn [heap oids draws replicate].
    rewrite <- app_assoc. cbn [app].
    by replace (S (draws w) + k)%nat with (draws w + S k)%nat by lia.
Qed.

(** X21.  ['random'] on an empty population returns no individual: the
    result is a new array of [n] positions that all hold [undefined], and
    [n] random numbers are drawn all the same. *)
Theorem getParents_random_of_empty_population
    (random : nat -> Q) (this : EAPopulation) (n : nat)
    (options : option Options) (w : World) :
  heap w !! individuals this = Some [] ->
  getParents random this "random" n options w
  = Return (length (heap w))
      (mkWorld (heap w ++ [replicate n Undefined]) (oids w) (draws w + n)).
Proof.
  intros Ha. unfold getParents. eval_method. unfold getRandomParents.
  rewrite run_bind, (run_read _ _ _ Ha), run_bind, for_range_from_0.
  change (new_Array n) with ([] ++ replicate n Hole).
  cbn [length]. change 0%nat with (length (@nil slot)) at 1.
  by rewrite (random_loop_empty random 0 n [] w).
Qed.

Lemma getParents_random_of_empty_population_witness :
  getParents (replay [1 # 2]%Q) (mkPopulation real_x 0) "random" 2 None
    (mkWorld [[]] 0 0)
  = Return 1%nat (mkWorld [[]; [Undefined; Undefined]] 0 2).
Proof.
  exact (getParents_random_of_empty_population (replay [1 # 2]%Q)
           (mkPopulation real_x 0) 2 None (mkWorld [[]] 0 0) eq_refl).
Defined.

(** ** Printing and construction *)

(** X22.  [toString] tests every key of the variables for being an own
    property of the individual, whose own properties are [variables] and
    [fitness]: unless a variable has one of these two names, no variable
    is printed and the text is only the fitness. *)
Theorem toString_prints_only_the_fitness
    (Number_toString : Q -> string) (this : EAIndividual) :
  Forall (fun k => k <> Name "variables" /\ k <> Name "fitness")
         (Object_keys (variables this)) ->
  toString Number_toString this
  = ("fitness: " ++ Number_toString (fitness this))%string.
Proof.
  intros Hkeys. unfold toString.
  assert (Hnone : filter (fun kv => hasOwnProperty kv.1 = true) (variables this) = []).
  { unfold Object_keys in Hkeys. induction (variables this) as [|[k v] o IH]; [done|].
    cbn [fmap list_fmap fst] in Hkeys. apply Forall_cons in Hkeys as [[H1 H2] Hrest].
    rewrite filter_cons_False; [by apply IH|].
    simpl. destruct k as [i|s]; [done|]. simpl.
    destruct (String.eqb_spec s "variables") as [->|_]; [done|].
    destruct (String.eqb_spec s "fitness") as [->|_]; done. }
  by rewrite Hnone.
Qed.

Lemma toString_prints_only_the_fitness_witness :
  toString (fun _ => "7"%string) parent_xy = "fitness: 7"%string.
Proof.
  apply (toString_prints_only_the_fitness (fun _ => "7"%string) parent_xy).
  repeat constructor; discriminate.
Defined.

(** A variable named [fitness] is printed, before the fitness itself. *)
Example toString_of_a_variable_named_fitness :
  toString (fun _ => "7"%string) (mkIndividual 0 [(Name "fitness", VNum 7)] 7)
  = "fitness: 7, fitness: 7"%string.
Proof. reflexivity. Qed.

Lemma upper_idem (c : ascii) : upper (upper c) = upper c.
Proof. destruct c as [[] [] [] [] [] [] [] []]; reflexivity. Qed.

Lemma toUpperCase_idem (s : string) : toUpperCase (toUpperCase s) = toUpperCase s.
Proof. induction s as [|c s IH]; [done|]. simpl. by rewrite upper_idem, IH. Qed.

Lemma toUpperCase_empty (s : string) : toUpperCase s = ""%string <-> s = ""%string.
Proof. by destruct s. Qed.

(** X23.  The constructor stores the coding in upper case, so that the
    later tests [number_coding == 'INT'] do not depend on the case in
    which it was given: the stored coding is ['INT'] exactly when the
    given one is ['int'] in any case or the empty string, and it is never
    empty. *)
Theorem new_EA_number_coding_upper_case
    (variables : variables_arg) (interval : interval_arg) (coding : string)
    (fitnessFunction : option (object -> Q)) (options : option EA_options)
    (this : EA) :
  new_EA variables interval (Some coding) fitnessFunction options = inr this ->
  toUpperCase (number_coding this) = number_coding this
  /\ number_coding this <> ""%string
  /\ (number_coding this = "INT"%string
      <-> toUpperCase coding = "INT"%string \/ coding = ""%string).
Proof.
  unfold new_EA. intros Hnew.
  destruct interval as [[|lo [|hi [|? ?]]]|]; try discriminate.
  destruct fitnessFunction as [f|]; [|discriminate].
  injection Hnew as <-. cbn [number_coding].
  destruct (String.eqb_spec (toUpperCase coding) "") as [Hempty|Hsome].
  - split; [done|]. split; [done|]. split; [|done].
    intros _. right. by apply toUpperCase_empty.
  - split; [apply toUpperCase_idem|]. split; [done|]. split; [by left|].
    intros [Hup | ->]; [done|]. by destruct Hsome.
Qed.

Lemma new_EA_number_coding_upper_case_witness :
  number_coding (mkEA [Name "x"] (0, 1)%Q "INT" sum_of_variables false)
  = "INT"%string
  <-> toUpperCase "Int" = "INT"%string \/ "Int"%string = ""%string.
Proof.
  exact (proj2 (proj2 (new_EA_number_coding_upper_case
                         (VariablesOther (Name "x")) (IntervalArray [0; 1]%Q)
                         "Int" (Some sum_of_variables) None
                         (mkEA [Name "x"] (0, 1)%Q "INT" sum_of_variables false)
                         eq_refl))).
Defined.

(** ** The first version: mutation in place *)

Lemma key_eqb_eq (a b : key) : key_eqb a b = true <-> a = b.
Proof.
  destruct a as [i|s], b as [j|t]; simpl; try (split; intros; discriminate).
  - rewrite Nat.eqb_eq. split; congruence.
  - rewrite String.eqb_eq. split; congruence.
Qed.

Lemma key_eqb_ne (a b : key) : a <> b -> key_eqb a b = false.
Proof.
  intros Hne. destruct (key_eqb a b) eqn:E; [|done].
  by apply key_eqb_eq in E.
Qed.

Lemma obj_get_obj_set_ne (name k : key) (x : value) (o : object) :
  k <> name -> obj_get (obj_set name x o) k = obj_get o k.
Proof.
  intros Hne. pose proof (key_eqb_ne k name Hne) as Hk.
  induction o as [|[k' v'] o IH]; simpl.
  - by rewrite Hk.
  - destruct (key_eqb name k') eqn:E.
    + apply key_eqb_eq in E as <-. simpl. by rewrite Hk.
    + destruct (key_before name k'); simpl.
      * by rewrite Hk.
      * by rewrite IH.
Qed.

Lemma Version1_preserves_refl variables parents w :
  Version1_preserves variables parents w w.
Proof. split; [done|]. split; [done|]. intros a o o' k Ho Ho' _. congruence. Qed.

Lemma Version1_preserves_trans variables parents w1 w2 w3 :
  Version1_preserves variables parents w1 w2 ->
  Version1_preserves variables parents w2 w3 ->
  Version1_preserves variables parents w1 w3.
Proof.
  intros (Hl1 & Hf1 & Hk1) (Hl2 & Hf2 & Hk2). split; [congruence|]. split.
  - intros a Ha. by rewrite Hf2, Hf1.
  - intros a o o' k Ho Ho' Hk.
    destruct (lookup_lt_is_Some_2 (Version1.objects w2) a) as [o2 Ho2].
    { rewrite Hl1. by eapply lookup_lt_Some. }
    rewrite (Hk2 a o2 o' k Ho2 Ho' Hk). by apply (Hk1 a o o2 k).
Qed.

Lemma Version1_preserves_more variables p parents w w' :
  Version1_preserves variables parents w w' ->
  Version1_preserves variables (p :: parents) w w'.
Proof.
  intros (Hl & Hf & Hk). split; [done|]. split; [|done].
  intros a Ha. apply Hf. intros Hin. apply Ha. by apply list_elem_of_further.
Qed.

Lemma Version1_mutate_once random (variables : list key) (interval : Q * Q)
    (extremal : bool) (p : nat) (w : Version1.World) :
  unit_range random -> variables <> [] ->
  (p < length (Version1.objects w))%nat ->
  exists w',
    Version1.mutate_once random variables interval extremal p w = inr w'
    /\ Version1.draws w' = S (S (Version1.draws w))
    /\ Version1_preserves variables [p] w w'.
Proof.
  intros Hr Hne Hp. unfold Version1.mutate_once.
  destruct (lookup_lt_is_Some_2 _ _ Hp) as [o Ho]. rewrite Ho.
  eexists. split; [reflexivity|]. split; [reflexivity|].
  destruct (Hr (Version1.draws w)) as [H0 H1].
  assert (Hlen : (0 < length variables)%nat) by (destruct variables; [done|simpl; lia]).
  pose proof (floor_index _ _ H0 H1 Hlen) as Hpos.
  destruct (Z.ltb_spec (Math_floor (random (Version1.draws w) * Qnat (length variables))) 0)
    as [?|_]; [lia|].
  destruct (lookup_lt_is_Some_2 variables
              (Z.to_nat (Math_floor (random (Version1.draws w)
                                     * Qnat (length variables))))
              ltac:(lia)) as [name Hname].
  rewrite Hname. cbn [default].
  split; [|split]; cbn [Version1.objects].
  - by rewrite length_insert.
  - intros a Ha. apply list_lookup_insert_ne. intros ->. apply Ha, list_elem_of_here.
  - intros a o1 o' k Ho1 Ho' Hk.
    destruct (decide (a = p)) as [->|Hap].
    + rewrite list_lookup_insert_eq in Ho' by done.
      injection Ho' as <-. rewrite Ho in Ho1. injection Ho1 as <-.
      apply obj_get_obj_set_ne. intros ->. apply Hk.
      by eapply list_elem_of_lookup_2.
    + rewrite list_lookup_insert_ne in Ho' by done. congruence.
Qed.

Lemma Version1_mutate_times random (variables : list key) (interval : Q * Q)
    (extremal : bool) (p n : nat) (w : Version1.World) :
  unit_range random -> variables <> [] ->
  (p < length (Version1.objects w))%nat ->
  exists w',
    Version1.mutate_times random variables interval extremal p n w = inr w'
    /\ Version1.draws w' = (Version1.draws w + 2 * n)%nat
    /\ Version1_preserves variables [p] w w'.
Proof.
  intros Hr Hne. revert w. induction n as [|n IH]; intros w Hp.
  - exists w. simpl. split; [done|]. split; [lia|apply Version1_preserves_refl].
  - cbn [Version1.mutate_times].
    destruct (Version1_mutate_once random variables interval extremal p w Hr Hne Hp)
      as (w1 & -> & Hd1 & Hpres1).
    destruct (IH w1) as (w' & Hrun & Hd & Hpres).
    { destruct Hpres1 as [Hl _]. by rewrite Hl. }
    exists w'. split; [done|]. split; [lia|].
    by eapply Version1_preserves_trans.
Qed.

Lemma Version1_mutate_all random (variables : list key) (interval : Q * Q)
    (extremal : bool) (n : nat) (parents : list nat) (w : Version1.World) :
  unit_range random -> variables <> [] ->
  Forall (fun p => (p < length (Version1.objects w))%nat) parents ->
  exists w',
    Version1.mutate_all random variables interval extremal n parents w = inr w'
    /\ Version1.draws w' = (Version1.draws w + 2 * (n * length parents))%nat
    /\ Version1_preserves variables parents w w'.
Proof.
  intros Hr Hne. revert w. induction parents as [|p parents IH]; intros w Hall.
  - exists w. simpl. split; [done|]. split; [lia|apply Version1_preserves_refl].
  - apply Forall_cons in Hall as [Hp Hall]. cbn [Version1.mutate_all].
    destruct (Version1_mutate_times random variables interval extremal p n w Hr Hne Hp)
      as (w1 & -> & Hd1 & Hpres1).
    destruct (IH w1) as (w' & Hrun & Hd & Hpres).
    { destruct Hpres1 as [Hl _]. by rewrite Hl. }
    exists w'. split; [done|]. split; [simpl; lia|].
    eapply Version1_preserves_trans.
    + destruct Hpres1 as (Hl & Hf & Hk). split; [done|]. split; [|exact Hk].
      intros a Ha. apply Hf. intros Hin. apply Ha.
      apply list_elem_of_singleton in Hin as ->. apply list_elem_of_here.
    + by apply Version1_preserves_more.
Qed.

(** X24.  In the first version [applyGeneticOperators] creates nothing:
    on parents that are objects it writes
    [number_of_mutated_values] times into every parent, drawing two
    random numbers per write, and only into properties that are variables
    of the configuration.  Objects that are not parents stay as they are,
    and so does the [fitness] of every parent, which is not computed
    again. *)
Theorem Version1_mutation_in_place
    (random : nat -> Q) (variables : list key) (interval : Q * Q)
    (parents : list nat) (method : string) (options : option Options)
    (w : Version1.World) :
  unit_range random ->
  variables <> [] ->
  parents <> [] ->
  Forall (fun p => (p < length (Version1.objects w))%nat) parents ->
  exists w',
    Version1.applyGeneticOperators random variables interval parents method
      options w = inr w'
    /\ Version1.draws w'
       = (Version1.draws w
          + 2 * (option_or options number_of_mutated_values 1 * length parents))%nat
    /\ Version1_preserves variables parents w w'.
Proof.
  intros Hr Hne Hps Hall. unfold Version1.applyGeneticOperators.
  destruct parents as [|p parents]; [done|].
  change (negb (0 <? length (p :: parents))%nat) with false. cbv iota zeta.
  by apply Version1_mutate_all.
Qed.

Lemma Version1_mutation_in_place_witness :
  unit_range (replay [1 # 2; 1 # 4]%Q)
  /\ exists w',
       Version1.applyGeneticOperators (replay [1 # 2; 1 # 4]%Q) [Name "x"]
         (0, 10)%Q [0%nat] "uniform_mutation" None
         (Version1.mkWorld [[(Name "x", VNum 3); (Name "fitness", VNum 3)]] 0)
       = inr w'
       /\ Version1.draws w' = 2%nat
       /\ Version1_preserves [Name "x"] [0%nat]
            (Version1.mkWorld [[(Name "x", VNum 3); (Name "fitness", VNum 3)]] 0) w'.
Proof.
  assert (Hr : unit_range (replay [1 # 2; 1 # 4]%Q)).
  { apply replay_unit_range. repeat constructor; lra. }
  split; [exact Hr|].
  exact (Version1_mutation_in_place (replay [1 # 2; 1 # 4]%Q) [Name "x"]
           (0, 10)%Q [0%nat] "uniform_mutation" None
           (Version1.mkWorld [[(Name "x", VNum 3); (Name "fitness", VNum 3)]] 0)
           Hr ltac:(discriminate) ltac:(discriminate)
           ltac:(repeat constructor)).
Defined.

(** ** The second version: positions drawn once for a child *)

Lemma mutated_positions_length random (len n : nat) (w : World) :
  exists pos w',
    mutated_positions random len n w = Return pos w'
    /\ heap w' = heap w /\ oids w' = oids w /\ length pos = n.
Proof.
  revert w. induction n as [|n IH]; intros w.
  - by exists [], w.
  - cbn [mutated_positions]. rewrite run_bind. unfold Math_random at 1.
    rewrite run_bind.
    destruct (IH (mkWorld (heap w) (oids w) (S (draws w))))
      as (pos & w' & -> & Hh & Ho & Hlen).
    eexists _, w'. split; [done|]. split; [done|]. split; [done|].
    simpl. by rewrite Hlen.
Qed.

Lemma Version2_value_run random (this : EA) (method : string) (w : World) :
  exists v,
    Version2.mutation_value random this method w
    = Return v (mkWorld (heap w) (oids w) (S (draws w)))
    /\ Version2_value this method v.
Proof.
  unfold Version2.mutation_value, Version2_value.
  destruct (String.eqb method "extremal_mutation").
  - eexists. split; [reflexivity|]. cbv beta.
    destruct (Qlt_bool (1 # 2) (random (draws w))); [by right|by left].
  - eexists. split; [reflexivity|]. by eexists.
Qed.

Lemma Version2_fill random (this : EA) (method : string) (pos : list Z)
    (p : EAIndividual) (keys : list key) (v : nat) (o : object) (w : World) :
  StronglySorted key_after (Object_keys o ++ keys) ->
  exists news w',
    EAIndividual_fill
      (Version2.generate (Version2.mutation_value random this method) pos (Obj p))
      keys v o w
    = Return (o ++ news) w'
    /\ heap w' = heap w /\ oids w' = oids w /\ Object_keys news = keys
    /\ forall j kv, news !! j = Some kv ->
         if has_position pos (v + j) then Version2_value this method kv.2
         else kv.2 = obj_get (variables p) kv.1.
Proof.
  revert v o w. induction keys as [|k keys IH]; intros v o w Hs.
  - exists [], w. simpl. rewrite app_nil_r. repeat split; done.
  - cbn [EAIndividual_fill]. rewrite run_bind.
    assert (Hgen : exists x w1,
      Version2.generate (Version2.mutation_value random this method) pos (Obj p) k v w
      = Return x w1
      /\ heap w1 = heap w /\ oids w1 = oids w
      /\ if has_position pos v then Version2_value this method x
         else x = obj_get (variables p) k).
    { unfold Version2.generate. destruct (has_position pos v).
      - destruct (Version2_value_run random this method w) as (x & -> & Hx).
        by exists x; eexists.
      - by exists (obj_get (variables p) k), w. }
    destruct Hgen as (x & w1 & -> & Hh1 & Ho1 & Hx).
    rewrite obj_set_last.
    2:{ apply Forall_forall. intros kv Hkv.
        eapply StronglySorted_app_1_elem_of; [exact Hs| |apply list_elem_of_here].
        by apply list_elem_of_fmap_2. }
    destruct (IH (S v) (o ++ [(k, x)]) w1)
      as (news & w2 & Hrun & Hh2 & Ho2 & Hk & Hall).
    { unfold Object_keys in *. rewrite fmap_app, <- app_assoc. exact Hs. }
    exists ((k, x) :: news), w2. rewrite Hrun, <- app_assoc.
    split; [done|]. split; [congruence|]. split; [congruence|]. split.
    { unfold Object_keys in *. cbn [fmap list_fmap fst]. by rewrite Hk. }
    intros [|j] kv Hj.
    + injection Hj as <-. by rewrite Nat.add_0_r.
    + replace (v + S j)%nat with (S v + j)%nat by lia. by apply Hall.
Qed.

Lemma Version2_loop random (this : EA) (ps : list EAIndividual) (method : string)
    (n : nat) (k : nat) (vs : jsarray) (w : World) :
  StronglySorted key_after (EA_variables this) ->
  (length vs + k <= length ps)%nat ->
  exists children w',
    for_range (length vs) k
      (fun i children =>
         pos ← mutated_positions random (length (EA_variables this)) n;
         child ← new_EAIndividual (EA_variables this)
                   (Version2.generate (Version2.mutation_value random this method)
                      pos (arr_get (Obj <$> ps) (Z.of_nat i)))
                   (fitnessFunction this);
         mret (arr_set children i (Obj child)))
      (vs ++ replicate k Hole) w
    = Return (vs ++ (Obj <$> children)) w'
    /\ heap w' = heap w
    /\ Forall2 (fun p c =>
         Object_keys (variables c) = EA_variables this
         /\ fitness c = fitnessFunction this (variables c)
         /\ exists pos : list Z,
              length pos = n
              /\ forall j kv, variables c !! j = Some kv ->
                   if has_position pos j then Version2_value this method kv.2
                   else kv.2 = obj_get (variables p) kv.1)
         (take k (drop (length vs) ps)) children.
Proof.
  intros Hs. revert vs w. induction k as [|k IH]; intros vs w Hk.
  - exists [], w. simpl. rewrite !app_nil_r. repeat split; constructor.
  - cbn [for_range]. rewrite run_bind.
    destruct (lookup_lt_is_Some_2 ps (length vs) ltac:(lia)) as [p Hp].
    rewrite (arr_get_Obj _ _ _ Hp), run_bind.
    destruct (mutated_positions_length random (length (EA_variables this)) n w)
      as (pos & w1 & -> & Hh1 & Ho1 & Hlen).
    rewrite run_bind. unfold new_EAIndividual. rewrite run_bind.
    unfold fresh_oid at 1. rewrite run_bind.
    destruct (Version2_fill random this method pos p (EA_variables this) 0 []
                (mkWorld (heap w1) (S (oids w1)) (draws w1)) Hs)
      as (o & w2 & -> & Hh2 & Ho2 & Hkeys & Hvals).
    unfold mret at 1 2, M_ret at 1 2. cbn [app].
    rewrite arr_set_next. replace (S k - 1)%nat with k by lia.
    set (c := mkIndividual (oids w1) o (fitnessFunction this o)).
    replace (S (length vs)) with (length (vs ++ [Obj c]))
      by (rewrite length_app; simpl; lia).
    destruct (IH (vs ++ [Obj c]) w2) as (children & w' & Hrun & Hh & Hall).
    { rewrite length_app. simpl. lia. }
    exists (c :: children), w'. split.
    { etransitivity; [exact Hrun|]. by rewrite <- app_assoc. }
    split; [simpl in *; congruence|].
    rewrite (drop_S _ _ _ Hp). cbn [take]. constructor.
    + split; [done|]. split; [done|]. by exists pos.
    + rewrite length_app in Hall. simpl in Hall.
      by rewrite Nat.add_1_r in Hall.
Qed.



(** ** The roulette and the sign of the fitness *)

Lemma owner_positive (xs : list EAIndividual) (c p : Q) (x : EAIndividual) :
  owner xs c p = Obj x -> x ∈ xs /\ (0 < fitness x)%Q.
Proof.
  revert c. induction xs as [|y xs IH]; intros c Hown; [done|].
  cbn [owner] in Hown.
  destruct (Qlt_bool c p && Qle_bool p (c + Math_max0 (fitness y))) eqn:E.
  - injection Hown as <-. split; [apply list_elem_of_here|].
    apply andb_true_iff in E as [Hlt Hle].
    apply Qlt_bool_iff in Hlt. apply Qle_bool_iff in Hle.
    unfold Math_max0 in Hle. destruct (Qle_bool 0 (fitness y)) eqn:E0.
    + apply Qle_bool_iff in E0. lra.
    + lra.
  - destruct (IH _ Hown) as [Hin Hpos]. split; [by apply list_elem_of_further|done].
Qed.

(** X26.  The roulette with replacement and the ['univerzal'] roulette
    without shuffle give no chance to an individual whose fitness is not
    positive: every individual in the result is an individual of the
    population with a positive fitness, whatever the draws. *)
Theorem roulette_selects_positive_fitness
    (random : nat -> Q) (this : EAPopulation) (n : nat) (o : Options)
    (w : World) (xs : list EAIndividual) :
  heap w !! individuals this = Some (Obj <$> xs) ->
  (0 < total_fitness xs)%Q ->
  is_remainder (rouletteMethod_or_default o) = false ->
  is_without (rouletteMethod_or_default o) = false ->
  shuffleOrder o = false ->
  exists parents w',
    getParents random this "roulette" n (Some o) w = Return (length (heap w)) w'
    /\ heap w' = heap w ++ [parents]
    /\ length parents = n
    /\ forall x, Obj x ∈ parents -> x ∈ xs /\ (0 < fitness x)%Q.
Proof.
  intros Ha Hpos Hr Hw Hs. unfold getParents. eval_method. rewrite Hs.
  destruct (String.eqb (rouletteMethod_or_default o) "univerzal") eqn:Hu.
  - apply String.eqb_eq in Hu. rewrite Hu.
    rewrite (getParentsFromRoulette_univerzal random _ n w xs Ha Hpos).
    eexists _, _. split; [done|]. cbn [heap]. split; [done|].
    split; [apply universal_sampling_length|].
    intros x Hx. unfold universal_sampling in Hx.
    apply list_elem_of_fmap in Hx as (k & Hk & _). symmetry in Hk.
    by apply owner_positive in Hk.
  - rewrite (getParentsFromRoulette_with_replacement random _ _ n false w xs
               Ha Hu Hr Hw Hpos).
    eexists _, _. split; [done|]. cbn [heap]. split; [done|].
    split; [by rewrite length_fmap, length_seq|].
    intros x Hx. apply list_elem_of_fmap in Hx as (k & Hk & _). symmetry in Hk.
    by apply owner_positive in Hk.
Qed.

Lemma roulette_selects_positive_fitness_witness :
  (0 < total_fitness [mkIndividual 9 [] (-1); strong])%Q
  /\ exists parents w',
       getParents (replay [1 # 2; 1 # 8]%Q) (mkPopulation real_x 0) "roulette" 2
         (Some no_options)
         (mkWorld [[Obj (mkIndividual 9 [] (-1)); Obj strong]] 10 0)
       = Return 1%nat w'
       /\ heap w' = [[Obj (mkIndividual 9 [] (-1)); Obj strong]; parents]
       /\ length parents = 2%nat
       /\ forall x, Obj x ∈ parents ->
            x ∈ [mkIndividual 9 [] (-1); strong] /\ (0 < fitness x)%Q.
Proof.
  assert (Hpos : (0 < total_fitness [mkIndividual 9 [] (-1); strong])%Q)
    by (vm_compute; reflexivity).
  split; [exact Hpos|].
  exact (roulette_selects_positive_fitness (replay [1 # 2; 1 # 8]%Q)
           (mkPopulation real_x 0) 2 no_options
           (mkWorld [[Obj (mkIndividual 9 [] (-1)); Obj strong]] 10 0)
           [mkIndividual 9 [] (-1); strong] eq_refl Hpos eq_refl eq_refl eq_refl).
Defined.

(** ** One generation *)

(** X27.  One generation that selects the best [n >= 1] individuals of a
    non-empty population, breeds one child from each with any method and
    replaces by the plus strategy: the three arrays are new ones next to
    each other, the old population array is left as it is, the new
    population is in non-increasing order of fitness, and it holds an
    individual at least as fit as every individual of the old
    population. *)
Theorem generation_of_best_and_plus_strategy
    (random : nat -> Q) (this : EAPopulation) (n : nat) (method : string)
    (options : option Options) (w : World) (xs : list EAIndividual) :
  heap w !! individuals this = Some (Obj <$> xs) ->
  xs <> [] ->
  (0 < n)%nat ->
  exists ys w',
    (parents ← getParents random this "best" n None;
     children ← applyGeneticOperators random this (Some parents) method options;
     replacement this parents children "plus_strategy" options) w
    = Return (mkPopulation (algorithm this) (length (heap w) + 2)) w'
    /\ heap w' !! (length (heap w) + 2)%nat = Some (Obj <$> ys)
    /\ heap w' !! individuals this = Some (Obj <$> xs)
    /\ length (heap w') = (length (heap w) + 3)%nat
    /\ StronglySorted fitter ys
    /\ forall x, x ∈ xs -> exists y, y ∈ ys /\ (fitness x <= fitness y)%Q.
Proof.
  intros Ha Hne Hn.
  pose proof (lookup_lt_Some _ _ _ Ha) as Hlt.
  (* selection *)
  rewrite run_bind. unfold getParents at 1. eval_method. unfold getBestParents.
  rewrite run_bind, (run_read _ _ _ Ha), Array_slice_full, Array_sort_Obj,
    Array_slice_take, <- fmap_take, run_alloc.
  set (ps := take n (sort_by_fitness xs)).
  set (w1 := mkWorld (heap w ++ [Obj <$> ps]) (oids w) (draws w)).
  pose proof (sort_by_fitness_Permutation xs) as Hperm.
  pose proof (sort_by_fitness_sorted xs) as Hsorted.
  assert (Hps : exists b tl, sort_by_fitness xs = b :: tl /\ ps = b :: take (n - 1) tl).
  { unfold ps. destruct (sort_by_fitness xs) as [|b tl].
    - apply Permutation_nil_l in Hperm. by destruct Hne.
    - exists b, tl. split; [done|]. destruct n as [|n']; [lia|].
      simpl. by rewrite Nat.sub_0_r. }
  destruct Hps as (b & tl & Hsort & Hps).
  assert (Hb : forall x, x ∈ xs -> (fitness x <= fitness b)%Q).
  { intros x Hx. rewrite <- Hperm, Hsort in Hx. rewrite Hsort in Hsorted.
    apply StronglySorted_inv in Hsorted as [_ Hall].
    apply elem_of_cons in Hx as [->|Hx]; [apply Qle_refl|].
    rewrite Forall_forall in Hall. by apply Hall. }
  (* variation *)
  rewrite run_bind.
  destruct (applyGeneticOperators_rel random this (length (heap w)) method options
              w1 ps (fun _ _ => True))
    as (cs & w2 & Hrun2 & Hh2 & _ & _ & _).
  { intros i p w0 Hi.
    destruct (make_child_fresh random (algorithm this) ps method options i p w0 Hi)
      as (c & w0' & ? & ? & ? & ? & _).
    by exists c, w0'. }
  { unfold w1. cbn [heap]. by apply list_lookup_middle. }
  { by rewrite Hps. }
  rewrite Hrun2.
  assert (Hlen1 : length (heap w1) = S (length (heap w))).
  { unfold w1. cbn [heap]. rewrite length_app. simpl. lia. }
  (* replacement *)
  unfold replacement.
  assert (Ha2 : heap w2 !! individuals this = Some (Obj <$> xs)).
  { rewrite Hh2. apply lookup_app_l_Some. unfold w1. cbn [heap].
    by apply lookup_app_l_Some. }
  assert (Hp2 : heap w2 !! length (heap w) = Some (Obj <$> ps)).
  { rewrite Hh2. apply lookup_app_l_Some. unfold w1. cbn [heap].
    by apply list_lookup_middle. }
  assert (Hc2 : heap w2 !! length (heap w1) = Some (Obj <$> cs)).
  { rewrite Hh2. by apply list_lookup_middle. }
  rewrite run_bind, (run_read _ _ _ Ha2). eval_method.
  rewrite run_bind, (run_read _ _ _ Hp2), run_bind, (run_read _ _ _ Hc2).
  rewrite <- fmap_app, Array_sort_Obj, Array_slice_take, <- fmap_take.
  rewrite run_bind, run_alloc. unfold mret, M_ret.
  set (size := option_or options newGenerationSize (length (Obj <$> xs))).
  set (ys := take size (sort_by_fitness (ps ++ cs))).
  assert (Hlen2 : length (heap w2) = (length (heap w) + 2)%nat).
  { rewrite Hh2, length_app, Hlen1. simpl. lia. }
  exists ys. eexists. split; [by rewrite Hlen2|]. cbn [heap].
  split; [|split; [|split; [|split]]].
  - rewrite <- Hlen2. by apply list_lookup_middle.
  - by apply lookup_app_l_Some.
  - rewrite length_app, Hlen2. simpl. lia.
  - apply StronglySorted_take, sort_by_fitness_sorted.
  - pose proof (sort_by_fitness_Permutation (ps ++ cs)) as Hperm2.
    pose proof (sort_by_fitness_sorted (ps ++ cs)) as Hsorted2.
    assert (Hsize : (0 < size)%nat).
    { apply option_or_positive. rewrite length_fmap.
      destruct xs; [done|simpl; lia]. }
    unfold ys. destruct (sort_by_fitness (ps ++ cs)) as [|b' tl'] eqn:Esort2.
    { apply Permutation_nil_l in Hperm2. by rewrite Hps in Hperm2. }
    assert (Hbb : (fitness b <= fitness b')%Q).
    { assert (Hin : b ∈ b' :: tl').
      { rewrite Hperm2, Hps. apply list_elem_of_here. }
      apply StronglySorted_inv in Hsorted2 as [_ Hall].
      apply elem_of_cons in Hin as [->|Hin]; [apply Qle_refl|].
      rewrite Forall_forall in Hall. by apply Hall. }
    intros x Hx. exists b'. split.
    + destruct size; [lia|]. apply list_elem_of_here.
    + eapply Qle_trans; [by apply Hb|done].
Qed.

Lemma generation_of_best_and_plus_strategy_witness :
  exists ys w',
    (parents ← getParents (replay [1 # 2; 1 # 4]%Q) (mkPopulation real_x 0)
                 "best" 1 None;
     children ← applyGeneticOperators (replay [1 # 2; 1 # 4]%Q)
                  (mkPopulation real_x 0) (Some parents) "uniform_mutation" None;
     replacement (mkPopulation real_x 0) parents children "plus_strategy" None)
      (mkWorld [[Obj weak; Obj strong]] 4 0)
    = Return (mkPopulation real_x 3) w'
    /\ heap w' !! 3%nat = Some (Obj <$> ys)
    /\ heap w' !! 0%nat = Some [Obj weak; Obj strong]
    /\ forall x, x ∈ [weak; strong] -> exists y, y ∈ ys /\ (fitness x <= fitness y)%Q.
Proof.
  destruct (generation_of_best_and_plus_strategy (replay [1 # 2; 1 # 4]%Q)
              (mkPopulation real_x 0) 1 "uniform_mutation" None
              (mkWorld [[Obj weak; Obj strong]] 4 0) [weak; strong]
              eq_refl ltac:(discriminate) ltac:(lia))
    as (ys & w' & Hrun & Hnew & Hold & _ & _ & Hbest).
  exists ys, w'. split; [exact Hrun|]. split; [exact Hnew|].
  split; [exact Hold|exact Hbest].
Defined.

(** ** The roulette, by what does not depend on rounding *)

(** The statements of this part hold for the numbers of the code as they
    hold for the exact ones: they rest on the order of the operations, on
    comparisons of a sum with a part of itself, and on the walk only
    moving forward. *)

Lemma univerzal_loop_forward (inds : jsarray) (keys : list nat)
    (weights : list number) (pointerStep : Q) (k : nat) (vs : jsarray)
    (f : number) (j : nat) (pos : Q) (w : World) :
  exists js f' j' pos',
    for_range (length vs) k (univerzal_step inds keys weights pointerStep)
      (vs ++ replicate k Hole, f, j, pos) w
    = Return (vs ++ (parent_at_key inds keys <$> js), f', j', pos') w
    /\ length js = k /\ Forall (le j) js /\ StronglySorted le js.
Proof.
  revert vs f j pos. induction k as [|k IH]; intros vs f j pos.
  - exists [], f, j, pos. simpl. repeat split; constructor.
  - cbn [for_range]. rewrite run_bind. unfold univerzal_step at 1.
    pose proof (walk_index_ge (drop j weights) pos f j) as Hge.
    destruct (walk (drop j weights) pos f j) as [f1 j1]. cbn [snd] in Hge.
    unfold mret, M_ret.
    rewrite arr_set_next. replace (S k - 1)%nat with k by lia.
    set (s := parent_at_key inds keys j1).
    replace (S (length vs)) with (length (vs ++ [s]))
      by (rewrite length_app; simpl; lia).
    destruct (IH (vs ++ [s]) f1 j1 (pos + pointerStep)%Q)
      as (js & f' & j' & pos' & Hrun & Hlen & Hfrom & Hsorted).
    exists (j1 :: js), f', j', pos'. rewrite Hrun, <- app_assoc.
    split; [done|]. split; [simpl; lia|]. split.
    + constructor; [done|]. eapply Forall_impl; [exact Hfrom|].
      intros i Hi. simpl in Hi. lia.
    + by constructor.
Qed.

Lemma getParentsFromRoulette_forward random (a : addr) (n : nat) (w : World)
    (xs : list EAIndividual) :
  heap w !! a = Some (Obj <$> xs) ->
  (0 < total_fitness xs)%Q ->
  exists js,
    getParentsFromRoulette random a "univerzal" n false w
    = Return (length (heap w))
        (mkWorld
           (heap w ++ [(fun j => arr_get (Obj <$> xs) (Z.of_nat j - 1)) <$> js])
           (oids w) (S (draws w)))
    /\ length js = n /\ StronglySorted le js.
Proof.
  intros Ha Hpos. unfold getParentsFromRoulette.
  rewrite run_bind, (run_read _ _ _ Ha), run_bind, map_fitness_Obj.
  eval_method. rewrite run_bind. unfold mret at 1, M_ret at 1.
  rewrite roulette_size_cumulative.
  rewrite Qeq_bool_false by (intros H; rewrite H in Hpos; by apply Qlt_irrefl in Hpos).
  rewrite run_bind. unfold Math_random at 1. rewrite run_bind.
  rewrite for_range_from_0. change (new_Array n) with ([] ++ replicate n Hole).
  edestruct (univerzal_loop_forward (Obj <$> xs) (array_keys (Obj <$> xs)))
    as (js & f' & j' & pos' & Hrun & Hlen & _ & Hsorted).
  rewrite Hrun. exists js. rewrite run_alloc. cbn [heap oids draws app].
  split; [|done]. do 4 f_equal.
  apply list_fmap_ext. intros i j _.
  rewrite array_keys_Obj. apply parent_at_key_seq.
Qed.

Lemma drawn_Obj (xs : list EAIndividual) (parents : jsarray) :
  Forall (drawn xs) parents ->
  (Hole ∉ parents) /\ forall x, Obj x ∈ parents -> x ∈ xs.
Proof.
  intros Hall. rewrite Forall_forall in Hall. split.
  - intros Hin. destruct (Hall _ Hin) as [?|(x & ? & _)]; discriminate.
  - intros x Hin. destruct (Hall _ Hin) as [?|(y & [= ->] & Hy)]; [discriminate|done].
Qed.



Lemma walk_within (qs : list Q) (pos c : Q) (j : nat) :
  Forall (fun q => (0 <= q)%Q) qs ->
  (c < pos)%Q -> (pos <= c + foldr Qplus 0 qs)%Q ->
  (j < (walk (Num <$> qs) pos (Num c) j).2 <= j + length qs)%nat.
Proof.
  intros Hall. revert c j. induction Hall as [|q qs Hq _ IH]; intros c j Hlt Hle.
  - simpl in Hle. lra.
  - cbn [fmap list_fmap walk num_lt].
    rewrite (proj2 (Qlt_bool_iff c pos) Hlt). cbn [num_add].
    destruct (Qlt_le_dec (c + q) pos) as [Hmore|Hstop].
    + cbn [foldr] in Hle.
      pose proof (IH (c + q)%Q (S j) Hmore ltac:(lra)) as Hin.
      change (list_fmap Q number Num qs) with (Num <$> qs). simpl. lia.
    + change (list_fmap Q number Num qs) with (Num <$> qs).
      rewrite walk_stop; [simpl; lia|].
      cbn [num_lt]. by apply Qlt_bool_false.
Qed.

Lemma roulette_size_from (weight : Q -> Q) (xs : list EAIndividual) (c : Q) :
  (foldl (fun a s => match s with Obj b => (a + weight (fitness b))%Q | _ => a end)
         c (Obj <$> xs)
   == c + foldr Qplus 0 ((fun x => weight (fitness x)) <$> xs))%Q.
Proof.
  revert c. induction xs as [|x xs IH]; intros c.
  - simpl. lra.
  - cbn [fmap list_fmap foldl foldr].
    change (list_fmap _ _ Obj xs) with (Obj <$> xs).
    change (list_fmap _ _ (fun x => weight (fitness x)) xs)
      with ((fun x => weight (fitness x)) <$> xs).
    rewrite IH. lra.
Qed.

Lemma roulette_size_sum (weight : Q -> Q) (xs : list EAIndividual) :
  (roulette_size weight (Obj <$> xs)
   == foldr Qplus 0 ((fun x => weight (fitness x)) <$> xs))%Q.
Proof. unfold roulette_size. rewrite roulette_size_from. lra. Qed.

Lemma mod1_nonneg (x : Q) : (0 <= mod1 (Math_max0 x))%Q.
Proof.
  pose proof (Math_max0_nonneg x) as Hx. unfold mod1.
  rewrite (proj2 (Qle_bool_iff 0 (Math_max0 x)) Hx).
  pose proof (Qfloor_le (Math_max0 x)). lra.
Qed.

Lemma remainder_weights (xs : list EAIndividual) :
  (fun f => num_mod1 (num_max0 f)) <$> weights_of xs
  = Num <$> ((fun x => mod1 (Math_max0 (fitness x))) <$> xs).
Proof.
  unfold weights_of. rewrite <- !list_fmap_compose.
  apply list_fmap_ext. intros i x _. simpl. by rewrite Math_max0_idem.
Qed.

(** The roulette with replacement on non-negative weights whose sum is the
    roulette size: a draw that is not 0 stops the walk inside the
    population. *)
Lemma roulette_loop_members random (xs : list EAIndividual) (qs : list Q)
    (rouletteSize : Q) (k : nat) (vs : jsarray) (w : World) :
  unit_range random -> (forall i, (0 < random i)%Q) ->
  length qs = length xs ->
  Forall (fun q => (0 <= q)%Q) qs ->
  (0 < rouletteSize)%Q ->
  (rouletteSize == foldr Qplus 0 qs)%Q ->
  exists ys,
    for_range (length vs) k (roulette_step random (Obj <$> xs) false)
      (vs ++ replicate k Hole, Num <$> qs, rouletteSize) w
    = Return (vs ++ ys, Num <$> qs, rouletteSize)
        (mkWorld (heap w) (oids w) (draws w + k))
    /\ length ys = k /\ Forall (member_of xs) ys.
Proof.
  intros Hr Hdraws Hlen Hqs Hsize Hsum. revert vs w.
  induction k as [|k IH]; intros vs w.
  - exists []. simpl. by rewrite world_draws_0.
  - cbn [for_range]. rewrite run_bind.
    unfold roulette_step at 1. rewrite run_bind. unfold Math_random at 1.
    destruct (Hr (draws w)) as [_ H1]. pose proof (Hdraws (draws w)) as H0.
    pose proof (walk_within qs (random (draws w) * rouletteSize) 0 0 Hqs
                  ltac:(nra) ltac:(nra)) as Hj.
    destruct (walk (Num <$> qs) (random (draws w) * rouletteSize) (Num 0) 0)
      as [f j]. cbn [snd] in Hj.
    unfold mret, M_ret.
    rewrite arr_set_next. replace (S k - 1)%nat with k by lia.
    destruct (lookup_lt_is_Some_2 xs (j - 1)) as [x Hx]; [lia|].
    replace (Z.of_nat j - 1)%Z with (Z.of_nat (j - 1)) by lia.
    rewrite (arr_get_Obj _ _ _ Hx).
    replace (S (length vs)) with (length (vs ++ [Obj x]))
      by (rewrite length_app; simpl; lia).
    destruct (IH (vs ++ [Obj x]) (mkWorld (heap w) (oids w) (S (draws w))))
      as (ys & Hrun & Hlen' & Hall).
    exists (Obj x :: ys). rewrite Hrun. cbn [heap oids draws].
    rewrite <- app_assoc.
    replace (S (draws w) + k)%nat with (draws w + S k)%nat by lia.
    split; [done|]. split; [simpl; lia|].
    constructor; [|done]. exists x. split; [done|].
    by eapply list_elem_of_lookup_2.
Qed.

Lemma individuals_of_holes (m : nat) :
  individuals_of (replicate m Hole) = [].
Proof. induction m; [done|]. simpl. done. Qed.

(** Every roulette method but the remainder ones: how many positions, and
    what they hold. *)
Lemma getParentsFromRoulette_drawn random (a : addr) (method : string) (n : nat)
    (shuffleOrder : bool) (w : World) (xs : list EAIndividual) :
  heap w !! a = Some (Obj <$> xs) ->
  is_remainder method = false ->
  exists parents w',
    getParentsFromRoulette random a method n shuffleOrder w
    = Return (length (heap w)) w'
    /\ heap w' = heap w ++ [parents]
    /\ Forall (drawn xs) parents
    /\ (if Qeq_bool (total_fitness xs) 0 then parents = []
        else length parents = n).
Proof.
  intros Ha Hr. unfold getParentsFromRoulette.
  rewrite run_bind, (run_read _ _ _ Ha), run_bind, map_fitness_Obj.
  destruct (String.eqb method "univerzal") eqn:Hu.
  - rewrite roulette_size_cumulative, run_bind.
    assert (Hkeys : exists keys w1,
      (if shuffleOrder then shuffle_keys random (array_keys (Obj <$> xs))
       else mret (array_keys (Obj <$> xs))) w = Return keys w1
      /\ heap w1 = heap w).
    { destruct shuffleOrder.
      - destruct (shuffle_loop random (length (array_keys (Obj <$> xs)))
                    (length (array_keys (Obj <$> xs))) 0
                    (array_keys (Obj <$> xs)) w) as (keys & Hrun & _).
        exists keys. eexists. split; [exact Hrun|done].
      - by exists (array_keys (Obj <$> xs)), w. }
    destruct Hkeys as (keys & w1 & -> & Hh1).
    destruct (Qeq_bool (total_fitness xs) 0).
    + exists []. eexists. rewrite run_alloc. cbn [heap].
      rewrite Hh1. by repeat split.
    + rewrite run_bind. unfold Math_random at 1. rewrite run_bind.
      rewrite for_range_from_0. change (new_Array n) with ([] ++ replicate n Hole).
      edestruct (univerzal_loop_drawn xs keys) as (ys & f' & j' & pos' & Hrun & Hlen & Hall).
      rewrite Hrun. exists ys. eexists. rewrite run_alloc. cbn [heap oids draws app].
      rewrite Hh1. by repeat split.
  - rewrite Hr, roulette_size_cumulative.
    destruct (Qeq_bool (total_fitness xs) 0).
    + exists []. eexists. rewrite run_alloc. by repeat split.
    + rewrite run_bind, for_range_from_0.
      change (new_Array n) with ([] ++ replicate n Hole).
      edestruct (roulette_loop_drawn random xs) as (ys & fv' & rs' & Hrun & Hlen & Hall).
      rewrite Hrun. exists ys. eexists. rewrite run_alloc. cbn [heap oids draws app].
      by repeat split.
Qed.

(** The remainder methods: the copies first, then what the roulette of the
    fractional parts adds. *)
Lemma getParentsFromRoulette_copies_first random (a : addr) (method : string)
    (n : nat) (shuffleOrder : bool) (w : World) (xs : list EAIndividual) :
  unit_range random ->
  heap w !! a = Some (Obj <$> xs) ->
  is_remainder method = true ->
  let size := roulette_size (fun f => mod1 (Math_max0 f)) (Obj <$> xs) in
  exists rest w',
    getParentsFromRoulette random a method n shuffleOrder w
    = Return (length (heap w)) w'
    /\ heap w' = heap w ++ [(Obj <$> deterministic_copies xs) ++ rest]
    /\ Forall (fun s => s = Hole \/ drawn xs s) rest
    /\ ((size == 0)%Q -> individuals_of rest = [])
    /\ (~ (size == 0)%Q ->
        length rest = (n - length (deterministic_copies xs))%nat
        /\ Forall (drawn xs) rest
        /\ (is_without method = false -> (forall i, (0 < random i)%Q) ->
            Forall (member_of xs) rest)).
Proof.
  intros Hrange Ha Hr size. unfold getParentsFromRoulette.
  rewrite run_bind, (run_read _ _ _ Ha), run_bind, map_fitness_Obj.
  assert (Hu : String.eqb method "univerzal" = false).
  { unfold is_remainder in Hr. apply orb_true_iff in Hr as [H|H];
      apply String.eqb_eq in H; by rewrite H. }
  rewrite Hu, Hr.
  change (new_Array n) with ([] ++ replicate n Hole).
  change 0%nat with (length (@nil slot)) at 1.
  rewrite whole_copies_Obj. cbn [app length Nat.add]. fold size.
  set (m := (n - length (deterministic_copies xs))%nat).
  destruct (Qeq_bool size 0) eqn:Esize.
  - apply Qeq_bool_iff in Esize.
    exists (replicate m Hole). eexists. rewrite run_alloc. cbn [heap].
    split; [done|]. split; [done|]. split.
    { apply Forall_forall. intros s Hs. apply elem_of_replicate in Hs as [-> _].
      by left. }
    split; [intros _; by apply individuals_of_holes|]. by intros Hne.
  - assert (Hne : ~ (size == 0)%Q).
    { intros Heq. apply Qeq_bool_iff in Heq. congruence. }
    rewrite run_bind.
    pose proof (roulette_loop_drawn random xs (is_without method) m
                  (Obj <$> deterministic_copies xs)
                  ((fun f => num_mod1 (num_max0 f)) <$> weights_of xs)
                  size w) as (ys & fv' & rs' & Hrun & Hlen & Hall).
    rewrite length_fmap in Hrun. rewrite Hrun.
    exists ys. eexists. rewrite run_alloc. cbn [heap].
    split; [done|]. split; [done|]. split.
    { eapply Forall_impl; [exact Hall|]. intros s Hs. by right. }
    split; [by intros Heq|]. intros _. split; [done|]. split; [done|].
    intros Hwith Hdraws. rewrite Hwith, remainder_weights in Hrun.
    assert (Hsum : (size == foldr Qplus 0
                              ((fun x => mod1 (Math_max0 (fitness x))) <$> xs))%Q)
      by apply roulette_size_sum.
    assert (Hqs : Forall (fun q => (0 <= q)%Q)
                    ((fun x => mod1 (Math_max0 (fitness x))) <$> xs)).
    { apply Forall_fmap, Forall_forall. intros x _. apply mod1_nonneg. }
    assert (Hpos : (0 < size)%Q).
    { assert (0 <= size)%Q.
      { rewrite Hsum. clear. induction xs as [|x xs IH]; simpl; [lra|].
        pose proof (mod1_nonneg (fitness x)).
        change (list_fmap _ _ (fun x => mod1 (Math_max0 (fitness x))) xs)
          with ((fun x => mod1 (Math_max0 (fitness x))) <$> xs). lra. }
      destruct (Qlt_le_dec 0 size) as [?|Hle]; [done|].
      destruct Hne. lra. }
    assert (Hlenq : length ((fun x => mod1 (Math_max0 (fitness x))) <$> xs)
                    = length xs) by apply length_fmap.
    pose proof (roulette_loop_members random xs
                  ((fun x => mod1 (Math_max0 (fitness x))) <$> xs) size m
                  (Obj <$> deterministic_copies xs) w Hrange Hdraws
                  Hlenq Hqs Hpos Hsum)
      as (ys' & Hrun' & _ & Hall').
    rewrite length_fmap in Hrun'. rewrite Hrun' in Hrun.
    injection Hrun as Heq _ _. apply app_inv_head in Heq. by subst ys'.
Qed.

(** C4 (amended).  On a population that holds individuals only, with draws
    in [[0, 1)], for every [n]:
    - ['random'] on a population that is not empty returns [n] elements,
      each an individual of the population;
    - ['roulette'] with any method but the remainder ones returns an empty
      array when no fitness is positive, and otherwise [n] elements and no
      hole, where every individual is an individual of the population;
      with replacement (the default and every name but
      ['without_replacement'], ['univerzal'] and the remainder methods)
      all [n] elements are individuals of the population when no draw is
      0;
    - ['roulette'] with a remainder method returns first the copies,
      [Math.floor(Math.max(0, fitness))] of every individual in the order
      of the population, be they fewer or more than [n].  When the
      remainder roulette size is 0 no other individual follows; otherwise
      the roulette of the fractional parts adds the [n - copies] elements
      that are missing, without a hole, where every individual is an
      individual of the population, and with
      ['remainder_with_replacement'] all of them are when no draw is 0. *)
Theorem getParents_count_and_members
    (random : nat -> Q) (this : EAPopulation) (n : nat) (o : Options)
    (w : World) (xs : list EAIndividual) :
  unit_range random ->
  heap w !! individuals this = Some (Obj <$> xs) ->
  let method := rouletteMethod_or_default o in
  let size := roulette_size (fun f => mod1 (Math_max0 f)) (Obj <$> xs) in
  (xs <> [] ->
     exists parents w',
       getParents random this "random" n (Some o) w = Return (length (heap w)) w'
       /\ heap w' = heap w ++ [parents]
       /\ length parents = n /\ Forall (member_of xs) parents)
  /\ (is_remainder method = false ->
      exists parents w',
        getParents random this "roulette" n (Some o) w = Return (length (heap w)) w'
        /\ heap w' = heap w ++ [parents]
        /\ ((total_fitness xs == 0)%Q -> parents = [])
        /\ (~ (total_fitness xs == 0)%Q -> length parents = n)
        /\ (Hole ∉ parents)
        /\ (forall x, Obj x ∈ parents -> x ∈ xs)
        /\ (is_without method = false ->
            String.eqb method "univerzal" = false ->
            (0 < total_fitness xs)%Q -> (forall k, (0 < random k)%Q) ->
            Forall (member_of xs) parents))
  /\ (is_remainder method = true ->
      exists rest w',
        getParents random this "roulette" n (Some o) w = Return (length (heap w)) w'
        /\ heap w' = heap w ++ [(Obj <$> deterministic_copies xs) ++ rest]
        /\ (forall x, Obj x ∈ rest -> x ∈ xs)
        /\ ((size == 0)%Q -> individuals_of rest = [])
        /\ (~ (size == 0)%Q ->
            length rest = (n - length (deterministic_copies xs))%nat
            /\ (Hole ∉ rest)
            /\ (is_without method = false -> (forall k, (0 < random k)%Q) ->
                Forall (member_of xs) rest))).
Proof.
  intros Hr Ha method size. split; [|split].
  - intros Hne. unfold getParents. eval_method.
    destruct (getRandomParents_members random (individuals this) n w xs Hr Ha Hne)
      as (ys & Hrun & Hlen & Hsub).
    exists (Obj <$> ys). eexists. split; [exact Hrun|]. split; [done|].
    split; [by rewrite length_fmap|].
    apply Forall_fmap, Forall_forall. intros y Hy. exists y. split; [done|].
    by apply Hsub.
  - intros Hrem. unfold getParents. eval_method. fold method.
    destruct (getParentsFromRoulette_drawn random (individuals this) method n
                (shuffleOrder o) w xs Ha Hrem)
      as (parents & w' & Hrun & Hh & Hall & Hcount).
    destruct (drawn_Obj xs parents Hall) as [Hhole Horigin].
    exists parents, w'. split; [done|]. split; [done|].
    split; [|split; [|split; [done|split; [done|]]]].
    + intros Hzero. by rewrite (Qeq_bool_true _ _ Hzero) in Hcount.
    + intros Hsome. by rewrite (Qeq_bool_false _ _ Hsome) in Hcount.
    + intros Hwith Huni Hpos Hdraws.
      rewrite (getParentsFromRoulette_with_replacement random _ method n
                 (shuffleOrder o) w xs Ha Huni Hrem Hwith Hpos) in Hrun.
      injection Hrun as Hw. rewrite <- Hw in Hh. cbn [heap] in Hh.
      apply app_inv_head in Hh. injection Hh as <-.
      by apply roulette_with_replacement_members.
  - intros Hrem. unfold getParents. eval_method. fold method.
    destruct (getParentsFromRoulette_copies_first random (individuals this)
                method n (shuffleOrder o) w xs Hr Ha Hrem)
      as (rest & w' & Hrun & Hh & Hall & Hzero & Hsome).
    exists rest, w'. split; [done|]. split; [done|]. split; [|split; [done|]].
    + intros x Hx. rewrite Forall_forall in Hall.
      destruct (Hall _ Hx) as [?|[?|(y & [= ->] & Hy)]]; [discriminate..|done].
    + intros Hne. destruct (Hsome Hne) as (Hlen & Hdrawn & Hmem).
      split; [done|]. split; [|done]. by apply (drawn_Obj xs rest).
Qed.

Lemma getParents_count_and_members_witness :
  unit_range (fun _ => 1 # 2)%Q
  /\ (exists parents w',
        getParents (fun _ => 1 # 2)%Q (mkPopulation real_x 0) "random" 3
          (Some no_options) (mkWorld [[Obj weak; Obj strong]] 4 0)
        = Return 1%nat w'
        /\ heap w' = [[Obj weak; Obj strong]; parents]
        /\ length parents = 3%nat
        /\ Forall (member_of [weak; strong]) parents)
  /\ (exists parents w',
        getParents (fun _ => 1 # 2)%Q (mkPopulation real_x 0) "roulette" 3
          (Some no_options) (mkWorld [[Obj weak; Obj strong]] 4 0)
        = Return 1%nat w'
        /\ heap w' = [[Obj weak; Obj strong]; parents]
        /\ Forall (member_of [weak; strong]) parents)
  /\ (exists rest w',
        getParents (fun _ => 1 # 2)%Q (mkPopulation real_x 0) "roulette" 3
          (roulette_options "remainder_with_replacement")
          (mkWorld [[Obj weak; Obj strong]] 4 0)
        = Return 1%nat w'
        /\ heap w'
           = [[Obj weak; Obj strong];
              (Obj <$> deterministic_copies [weak; strong]) ++ rest]
        /\ individuals_of rest = []).
Proof.
  assert (Hr : unit_range (fun _ => 1 # 2)%Q).
  { intros k. split; [discriminate|reflexivity]. }
  split; [exact Hr|].
  destruct (getParents_count_and_members (fun _ => 1 # 2)%Q
              (mkPopulation real_x 0) 3 no_options
              (mkWorld [[Obj weak; Obj strong]] 4 0) [weak; strong]
              Hr eq_refl) as (Hrandom & Hroulette & _).
  destruct (getParents_count_and_members (fun _ => 1 # 2)%Q
              (mkPopulation real_x 0) 3
              (mkOptions (Some "remainder_with_replacement"%string) false None
                         None None None None None None None)
              (mkWorld [[Obj weak; Obj strong]] 4 0) [weak; strong]
              Hr eq_refl) as (_ & _ & Hremainder).
  split; [apply Hrandom; discriminate|]. split.
  - destruct (Hroulette eq_refl)
      as (parents & w' & Hrun & Hh & _ & _ & _ & _ & Hmembers).
    exists parents, w'. split; [exact Hrun|]. split; [exact Hh|].
    apply Hmembers; [reflexivity|reflexivity|reflexivity|].
    intros k. reflexivity.
  - destruct (Hremainder eq_refl) as (rest & w' & Hrun & Hh & _ & Hzero & _).
    exists rest, w'. split; [exact Hrun|]. split; [exact Hh|].
    apply Hzero. reflexivity.
Defined.
